(** * Derecho: RPC reply tracking, header framing, memory regions

    A shallow embedding of
      - [derecho/rpc_utils.h]  (QueryResults, PendingResults, RPC headers),
      - the RDMA [MemoryRegion] translation unit,
      - [print_partial_sums] of the [missed_counters] application,
    together with the properties the specification states about them. *)

From stdpp Require Import gmap list.
From Stdlib Require Import ZArith Lia Sorted.

Local Open Scope Z_scope.

(** ** Machine integers and raw memory *)

(** [using node_id_t = uint32_t;] *)
Abbreviation node_id_t := Z.

(** Unsigned [w]-bit wrap-around. *)
Definition wrap (w : Z) (x : Z) : Z := x mod 2 ^ w.
Definition wrap64 : Z -> Z := wrap 64.

(** A byte is a [Z] in [0, 256). [le_bytes n x] are the [n] low bytes of
    [x], least significant first; [le_value] reads them back. *)
Fixpoint le_bytes (n : nat) (x : Z) : list Z :=
  match n with
  | O => []
  | S n' => x mod 256 :: le_bytes n' (x / 256)
  end.

Fixpoint le_value (bs : list Z) : Z :=
  match bs with
  | [] => 0
  | b :: bs' => b + 256 * le_value bs'
  end.

(** Object representation of an unsigned integer of [n] bytes on a host
    that is big-endian or not. *)
Definition to_bytes (big_endian : bool) (n : nat) (x : Z) : list Z :=
  if big_endian then rev (le_bytes n x) else le_bytes n x.

Definition of_bytes (big_endian : bool) (bs : list Z) : Z :=
  if big_endian then le_value (rev bs) else le_value bs.

(** A [char*] buffer is the list of its bytes.  A store or load that
    leaves the buffer has no defined behaviour: [None]. *)
Definition store (buf : list Z) (off : nat) (bs : list Z) : option (list Z) :=
  if decide (off + length bs <= length buf)%nat
  then Some (take off buf ++ bs ++ drop (off + length bs) buf)
  else None.

Definition load (buf : list Z) (off n : nat) : option (list Z) :=
  if decide (off + n <= length buf)%nat
  then Some (take n (drop off buf))
  else None.

(** ** RPC header framing ([namespace remote_invocation_utilities]) *)

Module remote_invocation_utilities.
Section Layout.
(** The host: its byte order and [sizeof(std::size_t)]. *)
Variable big_endian : bool.
Variable sizeof_size_t : nat.

(** [struct Opcode { unsigned long long id; }] and [uint32_t]. *)
Definition sizeof_Opcode : nat := 8.
Definition sizeof_node_id_t : nat := 4.

Definition header_space : nat :=
  (sizeof_size_t + sizeof_Opcode + sizeof_node_id_t)%nat.

Definition populate_header (reply_buf : list Z)
    (payload_size : Z) (op : Z) (from : node_id_t) : option (list Z) :=
  b1 ← store reply_buf 0 (to_bytes big_endian sizeof_size_t payload_size);
  b2 ← store b1 sizeof_size_t (to_bytes big_endian sizeof_Opcode op);
  store b2 (sizeof_size_t + sizeof_Opcode)
        (to_bytes big_endian sizeof_node_id_t from).

Definition retrieve_header (reply_buf : list Z) : option (Z * Z * node_id_t) :=
  payload_size ← load reply_buf 0 sizeof_size_t;
  op ← load reply_buf sizeof_size_t sizeof_Opcode;
  from ← load reply_buf (sizeof_size_t + sizeof_Opcode) sizeof_node_id_t;
  Some (of_bytes big_endian payload_size,
        of_bytes big_endian op,
        of_bytes big_endian from).
End Layout.
End remote_invocation_utilities.

(** ** Control flow: results, exceptions, assertions *)

(** [std::future_errc] *)
Inductive future_errc :=
  | broken_promise
  | future_already_retrieved
  | promise_already_satisfied
  | no_state.

(** The exceptions of this code base and of the standard library calls it
    makes.  An [std::exception_ptr] holds one of them. *)
Inductive exception :=
  | remote_exception_occurred (who : node_id_t)
  | node_removed_from_group_exception (who : node_id_t)
  | future_error (code : future_errc)
  | out_of_range
  | RDMAConnectionRemoved (remote_id : node_id_t)
  | RDMAConnectionBroken (remote_id : node_id_t).

(** How a call ends: it returns, it throws, the process is stopped (a failed
    [assert], a crash macro), the standard leaves the behaviour open, or the
    call is still waiting for another thread. *)
Inductive outcome (A : Type) :=
  | Returns (a : A)
  | Throws (e : exception)
  | Aborts
  | Undefined
  | Blocks.
Arguments Returns {A} a.
Arguments Throws {A} e.
Arguments Aborts {A}.
Arguments Undefined {A}.
Arguments Blocks {A}.

(** A member function of an object of type [S]: the object after the call
    (also when the call throws) and how the call ended. *)
Definition M (S A : Type) : Type := S -> S * outcome A.

#[global] Instance M_ret {S} : MRet (M S) := fun A a s => (s, Returns a).

#[global] Instance M_bind {S} : MBind (M S) := fun A B f m s =>
  match m s with
  | (s', Returns a) => f a s'
  | (s', Throws e) => (s', Throws e)
  | (s', Aborts) => (s', Aborts)
  | (s', Undefined) => (s', Undefined)
  | (s', Blocks) => (s', Blocks)
  end.

Definition gets {S A} (f : S -> A) : M S A := fun s => (s, Returns (f s)).
Definition modify {S} (f : S -> S) : M S unit := fun s => (f s, Returns tt).
Definition throw {S A} (e : exception) : M S A := fun s => (s, Throws e).

(** [assert(c)]: nothing when compiled with [NDEBUG], otherwise the process
    is stopped unless [c] holds. *)
Definition assert {S} (ndebug : bool) (c : bool) : M S unit :=
  fun s => if ndebug || c then (s, Returns tt) else (s, Aborts).

(** [for (const auto& e : l) acc = body(acc, e)] *)
Fixpoint for_each {S A B} (body : B -> A -> M S B) (l : list A) (acc : B) : M S B :=
  match l with
  | [] => mret acc
  | e :: l' => acc' ← body acc e; for_each body l' acc'
  end.

(** ** [std::promise] and [std::future] *)

Module promise.
Section T.
Context {T : Type}.

(** The shared state (empty, a value or an exception) and whether the
    future end has been handed out. *)
Record t := mk {
  result : option (T + exception);
  retrieved : bool
}.

(** A default-constructed promise. *)
Definition fresh : t := mk None false.

Definition set_value (v : T) : M t unit := fun p =>
  match result p with
  | Some _ => (p, Throws (future_error promise_already_satisfied))
  | None => (mk (Some (inl v)) (retrieved p), Returns tt)
  end.

Definition set_exception (e : exception) : M t unit := fun p =>
  match result p with
  | Some _ => (p, Throws (future_error promise_already_satisfied))
  | None => (mk (Some (inr e)) (retrieved p), Returns tt)
  end.

(** [get_future()]; the caller names the shared state [here] that the new
    future refers to. *)
Definition get_future {L} (here : L) : M t (option L) := fun p =>
  if retrieved p
  then (p, Throws (future_error future_already_retrieved))
  else (mk (result p) true, Returns (Some here)).
End T.
Arguments t : clear implicits.
End promise.

(** [std::future<T>] of one peer's reply: the shared state it refers to is
    the one of [populated_promises[nid]], named by [nid]; [None] once the
    future has no shared state. *)
Abbreviation future := (option node_id_t).

(** [std::future::valid()] *)
Definition future_valid {L} (f : option L) : bool := bool_decide (is_Some f).

(** [template <typename T> using reply_map = std::map<node_id_t, std::future<T>>;] *)
Abbreviation reply_map := (gmap Z future).

(** [std::map::emplace]: an existing element is kept. *)
Definition emplace {V} (k : Z) (v : V) (m : gmap Z V) : gmap Z V :=
  match m !! k with
  | Some _ => m
  | None => <[k := v]> m
  end.

(** ** [PendingResults<T>] *)

Module PendingResults.
Section T.
Context {T : Type}.

Record t := mk {
  pending_map : promise.t reply_map;
  populated_promises : gmap Z (promise.t T);
  map_fulfilled : bool;
  dest_nodes : gset Z;
  responded_nodes : gset Z
}.

(** A newly constructed object. *)
Definition fresh : t := mk promise.fresh ∅ false ∅ ∅.

Definition set_map_fulfilled (b : bool) (s : t) : t :=
  mk (pending_map s) (populated_promises s) b (dest_nodes s) (responded_nodes s).
Definition set_dest_nodes (d : gset Z) (s : t) : t :=
  mk (pending_map s) (populated_promises s) (map_fulfilled s) d (responded_nodes s).
Definition set_responded_nodes (r : gset Z) (s : t) : t :=
  mk (pending_map s) (populated_promises s) (map_fulfilled s) (dest_nodes s) r.
Definition set_populated_promises (pp : gmap Z (promise.t T)) (s : t) : t :=
  mk (pending_map s) pp (map_fulfilled s) (dest_nodes s) (responded_nodes s).
Definition set_pending_map (pm : promise.t reply_map) (s : t) : t :=
  mk pm (populated_promises s) (map_fulfilled s) (dest_nodes s) (responded_nodes s).

(** [populated_promises[nid].op(...)]: [operator[]] inserts a
    default-constructed promise when [nid] has none. *)
Definition at_populated_promises {A} (nid : node_id_t)
    (op : M (promise.t T) A) : M t A := fun s =>
  let '(p, r) := op (default promise.fresh (populated_promises s !! nid)) in
  (set_populated_promises (<[nid := p]> (populated_promises s)) s, r).

(** [pending_map.op(...)] *)
Definition at_pending_map {A} (op : M (promise.t reply_map) A) : M t A := fun s =>
  let '(p, r) := op (pending_map s) in (set_pending_map p s, r).

(** [to_add->emplace(e, populated_promises[e].get_future())] *)
Definition emplace_future (to_add : reply_map) (e : node_id_t) : M t reply_map :=
  f ← at_populated_promises e (promise.get_future e);
  mret (emplace e f to_add).

Definition fulfill_map (who : list node_id_t) : M t unit :=
  modify (set_map_fulfilled true);;
  to_add ← for_each emplace_future who (∅ : reply_map);
  modify (fun s => set_dest_nodes (dest_nodes s ∪ list_to_set who) s);;
  at_pending_map (promise.set_value to_add).

Definition set_value (nid : node_id_t) (v : T) : M t unit :=
  modify (fun s => set_responded_nodes ({[nid]} ∪ responded_nodes s) s);;
  at_populated_promises nid (promise.set_value v).

Definition set_exception (nid : node_id_t) (e : exception) : M t unit :=
  modify (fun s => set_responded_nodes ({[nid]} ∪ responded_nodes s) s);;
  at_populated_promises nid (promise.set_exception e).

Definition set_exception_for_removed_node (ndebug : bool)
    (removed_nid : node_id_t) : M t unit :=
  fulfilled ← gets map_fulfilled;
  assert ndebug fulfilled;;
  dest ← gets dest_nodes;
  responded ← gets responded_nodes;
  if bool_decide (removed_nid ∈ dest) && bool_decide (removed_nid ∉ responded)
  then set_exception removed_nid
         (node_removed_from_group_exception removed_nid)
  else mret tt.

(** [get_future()] builds the [QueryResults] around the future end of
    [pending_map]; here it returns that future. *)
Definition get_future : M t (option unit) :=
  at_pending_map (promise.get_future tt).

(** The per-peer slot of [nid]: the shared state of its promise. *)
Definition slot (s : t) (nid : node_id_t) : option (T + exception) :=
  promise.result (default promise.fresh (populated_promises s !! nid)).

(** Every slot that holds a result belongs to a peer in [responded_nodes],
    and an object with destinations has [map_fulfilled] set. *)
Definition consistent (s : t) : Prop :=
  (forall p, is_Some (slot s p) -> p ∈ responded_nodes s)
  /\ (forall p, p ∈ dest_nodes s -> map_fulfilled s = true).

(** [s'] is [s] up to the [retrieved] flags of the per-peer promises. *)
Definition keeps (s s' : t) : Prop :=
  pending_map s' = pending_map s /\ map_fulfilled s' = map_fulfilled s
  /\ dest_nodes s' = dest_nodes s /\ responded_nodes s' = responded_nodes s
  /\ (forall q, slot s' q = slot s q).

(** The calls a [PendingResults] object receives. *)
Inductive call :=
  | call_fulfill_map (who : list node_id_t)
  | call_set_value (nid : node_id_t) (v : T)
  | call_set_exception (nid : node_id_t) (e : exception)
  | call_set_exception_for_removed_node (removed_nid : node_id_t)
  | call_get_future.

Definition run (ndebug : bool) (c : call) (s : t) : t * outcome unit :=
  match c with
  | call_fulfill_map who => fulfill_map who s
  | call_set_value nid v => set_value nid v s
  | call_set_exception nid e => set_exception nid e s
  | call_set_exception_for_removed_node nid =>
      set_exception_for_removed_node ndebug nid s
  | call_get_future => (get_future ≫= fun _ => mret tt) s
  end.

(** One call on a live object; a stopped process makes no further call. *)
Inductive step (ndebug : bool) : t -> t -> Prop :=
  | step_run c s : snd (run ndebug c s) ≠ Aborts ->
                 step ndebug s (fst (run ndebug c s)).

(** The objects the interface can produce. *)
Inductive reachable (ndebug : bool) : t -> Prop :=
  | reachable_fresh : reachable ndebug fresh
  | reachable_step s s' :
    reachable ndebug s -> step ndebug s s' -> reachable ndebug s'.

(** [later ndebug s s']: [s'] is [s] after any number of calls. *)
Inductive later (ndebug : bool) : t -> t -> Prop :=
  | later_now s : later ndebug s s
  | later_step s s' s'' :
    later ndebug s s' -> step ndebug s' s'' -> later ndebug s s''.
End T.
Arguments t : clear implicits.
Arguments call : clear implicits.
End PendingResults.

(** ** [QueryResults<T>] *)

Module QueryResults.
(** A [std::chrono] duration, in seconds. *)
Definition duration := Z.
Definition five_minutes : duration := 300.

(** [pending_rmap] is the future end of [PendingResults::pending_map]
    ([None] once it has no shared state); [replies] is [replies.rmap]. *)
Record t := mk {
  pending_rmap : option unit;
  replies : reply_map
}.

(** [QueryResults(map_fut pm)] *)
Definition make (pm : option unit) : t := mk pm ∅.

(** The calls of a thread that can suspend it, most recent first. *)
Inductive blocking_call :=
  | future_wait_for (d : duration)
  | future_get.

Definition me := (t * list blocking_call)%type.

Definition set_replies (m : reply_map) : M me unit :=
  modify (fun w => (mk (pending_rmap (fst w)) m, snd w)).

(** [pending_rmap.wait_for(d) == std::future_status::ready], where
    [shared] is the shared state as the call finds it. *)
Definition pending_rmap_wait_for (shared : promise.t reply_map)
    (d : duration) : M me bool := fun w =>
  match pending_rmap (fst w) with
  | None => (w, Undefined)
  | Some _ =>
      ((fst w, future_wait_for d :: snd w),
       Returns (bool_decide (is_Some (promise.result shared))))
  end.

(** [pending_rmap.get()], whose result the callers move out of. *)
Definition pending_rmap_get (shared : promise.t reply_map) : M me reply_map :=
  fun w =>
  match pending_rmap (fst w) with
  | None => (w, Undefined)
  | Some _ =>
      match promise.result shared with
      | None => ((fst w, future_get :: snd w), Blocks)
      | Some (inl m) =>
          ((mk None (replies (fst w)), future_get :: snd w), Returns m)
      | Some (inr e) =>
          ((mk None (replies (fst w)), future_get :: snd w), Throws e)
      end
  end.

(** [ReplyMap* wait(Time t)]: the map behind the returned pointer, or
    [None] for [nullptr]. *)
Definition wait (shared : promise.t reply_map) (d : duration)
    : M me (option reply_map) :=
  rmap ← gets (fun w => replies (fst w));
  if bool_decide (size rmap = 0%nat) then
    ready ← pending_rmap_wait_for shared d;
    if ready : bool then
      m ← pending_rmap_get shared;
      set_replies m;;
      mret (Some m)
    else mret None
  else mret (Some rmap).

(** [ReplyMap& get()]: [while(true)] over [wait(5min)]; the [k]-th poll
    finds the shared state [env k].  [None]: the loop needs more than
    [fuel] rounds. *)
Fixpoint get (fuel : nat) (env : nat -> promise.t reply_map) (w : me)
    : option (me * outcome reply_map) :=
  match fuel with
  | O => None
  | S fuel' =>
      match wait (env O) five_minutes w with
      | (w', Returns (Some rmap)) => Some (w', Returns rmap)
      | (w', Returns None) => get fuel' (fun k => env (S k)) w'
      | (w', Throws e) => Some (w', Throws e)
      | (w', Aborts) => Some (w', Aborts)
      | (w', Undefined) => Some (w', Undefined)
      | (w', Blocks) => Some (w', Blocks)
      end
  end.

(** *** [QueryResults::ReplyMap] *)
Module ReplyMap.
Definition valid (ndebug : bool) (nid : node_id_t) : M reply_map bool :=
  rmap ← gets id;
  assert ndebug (bool_decide (size rmap = 0%nat)
                 || bool_decide (is_Some (rmap !! nid)));;
  if bool_decide (0 < size rmap)%nat then
    match rmap !! nid with
    | Some f => mret (future_valid f)
    | None => throw out_of_range
    end
  else mret false.

Definition contains (nid : node_id_t) : M reply_map bool :=
  rmap ← gets id; mret (bool_decide (is_Some (rmap !! nid))).

(** [rmap.at(nid).get()]: the reply is read from the shared state of
    the promise of [nid]; the future has no shared state afterwards. *)
Definition at_get {T} (slot : node_id_t -> option (T + exception))
    (nid : node_id_t) : M me T := fun w =>
  match replies (fst w) !! nid with
  | None => (w, Throws out_of_range)
  | Some None => (w, Undefined)
  | Some (Some src) =>
      match slot src with
      | None => ((fst w, future_get :: snd w), Blocks)
      | Some (inl v) =>
          ((mk (pending_rmap (fst w)) (<[nid := None]> (replies (fst w))),
            future_get :: snd w), Returns v)
      | Some (inr e) =>
          ((mk (pending_rmap (fst w)) (<[nid := None]> (replies (fst w))),
            future_get :: snd w), Throws e)
      end
  end.

(** [auto get(const node_id_t& nid)], run against the pending side
    [pending] in the state the call finds it. *)
Definition get {T} (ndebug : bool) (pending : PendingResults.t T)
    (nid : node_id_t) : M me T :=
  rmap ← gets (fun w => replies (fst w));
  (if bool_decide (size rmap = 0%nat) then
     pm ← gets (fun w => pending_rmap (fst w));
     assert ndebug (future_valid pm);;
     m ← pending_rmap_get (PendingResults.pending_map pending);
     set_replies m
   else mret tt);;
  rmap ← gets (fun w => replies (fst w));
  assert ndebug (bool_decide (0 < size rmap)%nat);;
  assert ndebug (bool_decide (is_Some (rmap !! nid)));;
  assert ndebug (match rmap !! nid with
                 | Some f => future_valid f
                 | None => false
                 end);;
  at_get (PendingResults.slot pending) nid.
End ReplyMap.
End QueryResults.

(** ** The RDMA [MemoryRegion] *)

Module MemoryRegion.
(** The arguments [RDMAConnection::write_remote] is called with. *)
Record write_request := mk_write {
  local_addr : Z;
  remote_addr : Z;
  length : Z;
  completion : bool;
  remote_key : Z;
  local_key : Z
}.

(** What a region sees of its [RDMAConnection]: the [is_broken] flag and
    the answer of the connection's own [write_remote]. *)
Record RDMAConnection := mk_conn {
  is_broken : bool;
  post_write : write_request -> bool
}.

(** [fi_mr_reg] (return code once the [EAGAIN] retries are over, and the
    handle it fills in) and [fi_mr_key]. *)
Record libfabric := mk_lf {
  fi_mr_reg : Z -> Z -> Z * Z;
  fi_mr_key : Z -> Z
}.

Record MRConnectionData := mk_data { mr_key : Z; vaddr : Z }.

Record t := mk {
  remote_id : node_id_t;
  send_buf : Z;
  recv_buf : Z;
  size : Z;
  write_mr : Z;
  read_mr : Z;
  mr_lrkey : Z;
  mr_lwkey : Z;
  mr_rwkey : Z;
  remote_recv_buf : Z
}.

Section Host.
(** The byte order of this host. *)
Variable big_endian : bool.
(** libfabric's [FI_KEY_NOTAVAIL]. *)
Variable FI_KEY_NOTAVAIL : Z.
(** The value the member [size] has when the constructor body starts: the
    member is declared in [memory_region.hpp], and the constructor's
    initializer list names [remote_id], [rdma_connection], [send_buf] and
    [recv_buf] only. *)
Variable declared_size : Z.

(** Modelled from the spec: [htonll]/[ntohll] are not part of the sources;
    they convert a 64-bit value between native and network (big-endian)
    byte order, the swap being done by hand on a little-endian host. *)
Definition htonll (x : Z) : Z := of_bytes big_endian (to_bytes true 8 x).
Definition ntohll (x : Z) : Z := of_bytes true (to_bytes big_endian 8 x).

(** Modelled from the spec: the layout of [MRConnectionData] is not part
    of the sources; the exchanged record is 16 bytes, [u64 mr_key] at
    offset 0 and [u64 vaddr] at offset 8. *)
Definition record_bytes (d : MRConnectionData) : list Z :=
  to_bytes big_endian 8 (mr_key d) ++ to_bytes big_endian 8 (vaddr d).
Definition record_of_bytes (bs : list Z) : MRConnectionData :=
  mk_data (of_bytes big_endian (take 8 bs))
          (of_bytes big_endian (take 8 (drop 8 bs))).

(** Modelled from the spec: [tcp_exchange] is not part of the sources; it
    is one send and one receive of the same record over the TCP side
    channel.  The state is the list of records sent so far (most recent
    first); [incoming] is what the peer's send delivers, [None] when the
    exchange fails and the call returns false. *)
Definition tcp_exchange (incoming : option (list Z))
    (local_data : MRConnectionData) : M (list (list Z)) (option MRConnectionData) :=
  modify (cons (record_bytes local_data));;
  match incoming with
  | Some bs => if bool_decide (base.length bs = 16%nat)
               then mret (Some (record_of_bytes bs)) else mret None
  | None => mret None
  end.

(** Modelled from the spec: the macros [FAIL_IF_NONZERO_RETRY_EAGAIN],
    [FAIL_IF_ZERO] and [CRASH_WITH_MESSAGE] are not part of the sources; a
    failure other than the retried [EAGAIN] is fatal and stops the
    process. *)
Definition crash {S A} : M S A := fun s => (s, Aborts).

(** [MemoryRegion::MemoryRegion(remote_id, send_buf, recv_buf, size)];
    [shared_rdma_connection] is what [rdma_connection.lock()] gives. *)
Definition MemoryRegion (shared_rdma_connection : option RDMAConnection)
    (lf : libfabric) (incoming : option (list Z))
    (remote_id_ : node_id_t) (send_buf_ recv_buf_ size_ : Z)
    : M (list (list Z)) t :=
  match shared_rdma_connection with
  | None => throw (RDMAConnectionRemoved remote_id_)
  | Some c =>
      if is_broken c then throw (RDMAConnectionBroken remote_id_) else
      let '(rc_w, write_mr_) := fi_mr_reg lf send_buf_ size_ in
      if negb (rc_w =? 0) then crash else
      let '(rc_r, read_mr_) := fi_mr_reg lf recv_buf_ size_ in
      if negb (rc_r =? 0) then crash else
      let mr_lrkey_ := fi_mr_key lf read_mr_ in
      if mr_lrkey_ =? FI_KEY_NOTAVAIL then crash else
      let mr_lwkey_ := fi_mr_key lf write_mr_ in
      if mr_lwkey_ =? FI_KEY_NOTAVAIL then crash else
      let local_data := mk_data (wrap64 (htonll mr_lrkey_))
                                (wrap64 (htonll (wrap64 recv_buf_))) in
      exchanged ← tcp_exchange incoming local_data;
      match exchanged with
      | None => crash
      | Some remote_data =>
          mret (mk remote_id_ send_buf_ recv_buf_ declared_size
                   write_mr_ read_mr_ mr_lrkey_ mr_lwkey_
                   (wrap64 (ntohll (mr_key remote_data)))
                   (ntohll (vaddr remote_data)))
      end
  end.

(** [bool MemoryRegion::write_remote(offset, size, with_completion)]: the
    request handed to the connection and the connection's answer. *)
Definition write_remote (ndebug : bool)
    (shared_rdma_connection : option RDMAConnection) (mr : t)
    (offset size_ : Z) (with_completion : bool)
    : outcome (write_request * bool) :=
  match shared_rdma_connection with
  | None => Throws (RDMAConnectionRemoved (remote_id mr))
  | Some c =>
      if ndebug || (wrap64 (offset + size_) <=? size mr) then
        let req := mk_write (wrap64 (send_buf mr + offset))
                            (wrap64 (remote_recv_buf mr + offset))
                            size_ with_completion
                            (mr_rwkey mr) (mr_lrkey mr) in
        Returns (req, post_write c req)
      else Aborts
  end.
End Host.
End MemoryRegion.

(** ** [print_partial_sums] of [missed_counters.cpp] *)

Module missed_counters.
(** A subscript outside its [std::vector]. *)
Inductive bad_access :=
  | row_out_of_bounds (i : Z)
  | element_out_of_bounds (i j : Z).

(** Code over [vector<vector<uint64_t>>& received_msgs]. *)
Definition V (A : Type) : Type :=
  list (list Z) -> list (list Z) * (A + bad_access).

#[global] Instance V_ret : MRet V := fun A a rm => (rm, inl a).
#[global] Instance V_bind : MBind V := fun A B f m rm =>
  match m rm with
  | (rm', inl a) => f a rm'
  | (rm', inr e) => (rm', inr e)
  end.

(** The element at subscript [i], if [i] is below the vector's size. *)
Definition lookup_index {A} (l : list A) (i : Z) : option A :=
  if (0 <=? i) && (i <? Z.of_nat (length l)) then l !! Z.to_nat i else None.

(** [received_msgs[i].size()] *)
Definition size_of (i : Z) : V Z := fun rm =>
  match lookup_index rm i with
  | Some row => (rm, inl (Z.of_nat (length row)))
  | None => (rm, inr (row_out_of_bounds i))
  end.

(** [received_msgs[i][j]] read *)
Definition read (i j : Z) : V Z := fun rm =>
  match lookup_index rm i with
  | Some row =>
      match lookup_index row j with
      | Some x => (rm, inl x)
      | None => (rm, inr (element_out_of_bounds i j))
      end
  | None => (rm, inr (row_out_of_bounds i))
  end.

(** [received_msgs[i][j] = x] *)
Definition write (i j x : Z) : V unit := fun rm =>
  match lookup_index rm i with
  | Some row =>
      match lookup_index row j with
      | Some _ => (<[Z.to_nat i := <[Z.to_nat j := x]> row]> rm, inl tt)
      | None => (rm, inr (element_out_of_bounds i j))
      end
  | None => (rm, inr (row_out_of_bounds i))
  end.

(** [for(uint64_t j = 1; j < received_msgs[i].size(); j++)
      if(received_msgs[i][j] > received_msgs[i][j - 1]) logic_size++;
      else break;] *)
Fixpoint logic_size_loop (fuel : nat) (i j logic_size : Z) : V Z :=
  match fuel with
  | O => mret logic_size
  | S fuel' =>
      n ← size_of i;
      if j <? n then
        a ← read i j;
        b ← read i (wrap64 (j - 1));
        if b <? a
        then logic_size_loop fuel' i (wrap64 (j + 1)) (wrap64 (logic_size + 1))
        else mret logic_size
      else mret logic_size
  end.

(** [for(uint64_t j = 0; j < logic_size; j++)
      if(received_msgs[i][j] > num_msgs / 2) { start_index = j; break; }] *)
Fixpoint start_index_loop (fuel : nat) (num_msgs i j logic_size start_index : Z)
    : V Z :=
  match fuel with
  | O => mret start_index
  | S fuel' =>
      if j <? logic_size then
        a ← read i j;
        if num_msgs / 2 <? a then mret j
        else start_index_loop fuel' num_msgs i (wrap64 (j + 1))
                              logic_size start_index
      else mret start_index
  end.

(** [for(uint64_t j = start_index; j < logic_size; j++) {
      count_missed += received_msgs[i][j] - received_msgs[i][j - 1] - 1;
      if(received_msgs[i][j] - received_msgs[i][j - 1] - 1 > 0)
        num_intervals_with_missed++; }] *)
Fixpoint count_loop (fuel : nat) (i j logic_size : Z) (counts : Z * Z)
    : V (Z * Z) :=
  match fuel with
  | O => mret counts
  | S fuel' =>
      if j <? logic_size then
        a ← read i j;
        b ← read i (wrap64 (j - 1));
        let missed := wrap64 (a - b - 1) in
        count_loop fuel' i (wrap64 (j + 1)) logic_size
          (wrap64 (fst counts + missed),
           if 0 <? missed then wrap64 (snd counts + 1) else snd counts)
      else mret counts
  end.

(** The block that [print_partial_sums] runs on row [my_rank] and then on
    every other row [i]: logic size, start index, the rewrite of the
    element before the start index, the count.  [counts] is
    [(count_missed, num_intervals_with_missed)].  Each loop is given as
    fuel the bound its loop variable runs up to, so that it ends by its own
    test. *)
Definition count_row (num_msgs i : Z) (counts : Z * Z) : V (Z * Z) :=
  n ← size_of i;
  logic_size ← logic_size_loop (Z.to_nat n) i 1 1;
  start_index ← start_index_loop (Z.to_nat logic_size) num_msgs i 0 logic_size 0;
  write i (wrap64 (start_index - 1)) (num_msgs / 2);;
  count_loop (Z.to_nat logic_size) i start_index logic_size counts.

(** [for(uint32_t i = 0; i < num_nodes; i++) { if(i == my_rank) continue; ... }] *)
Fixpoint remote_loop (fuel : nat) (num_nodes num_msgs my_rank i : Z)
    (counts : Z * Z) : V (Z * Z) :=
  match fuel with
  | O => mret counts
  | S fuel' =>
      if i <? num_nodes then
        if i =? my_rank
        then remote_loop fuel' num_nodes num_msgs my_rank (wrap 32 (i + 1)) counts
        else counts' ← count_row num_msgs i counts;
             remote_loop fuel' num_nodes num_msgs my_rank (wrap 32 (i + 1)) counts'
      else mret counts
  end.

(** [print_partial_sums]: the four numbers written to [missed_results]. *)
Definition print_partial_sums (num_nodes num_msgs my_rank : Z) : V (list Z) :=
  local ← count_row num_msgs my_rank (0, 0);
  remote ← remote_loop (Z.to_nat num_nodes) num_nodes num_msgs my_rank 0 (0, 0);
  mret [fst local; snd local; fst remote; snd remote].
End missed_counters.

(** ** The allocator of RPC buffers *)

(** [calloc(n, sizeof(char))]: [n] zero bytes, or a null pointer when the
    allocation fails. *)
Definition calloc (succeeds : bool) (n : Z) : option (list Z) :=
  if succeeds then Some (repeat 0 (Z.to_nat n)) else None.

(** [extra_alloc(int i)]: the allocated block and the offset in it of the
    returned pointer.  [i + hs] is computed in [std::size_t]; on a null
    block the pointer arithmetic has no defined result. *)
Definition extra_alloc (sizeof_size_t : nat) (calloc_succeeds : bool) (i : Z)
    : option (list Z * nat) :=
  let hs := remote_invocation_utilities.header_space sizeof_size_t in
  block ← calloc calloc_succeeds
             (wrap (8 * Z.of_nat sizeof_size_t) (i + Z.of_nat hs));
  Some (block, hs).

(** ** [MemoryRegion::sync] *)


(** ** Observations on a [PendingResults] object *)

(** [populated_promises[e]] has handed out its future. *)
Definition future_taken {T} (s : PendingResults.t T) (e : node_id_t) : bool :=
  promise.retrieved
    (default promise.fresh (PendingResults.populated_promises s !! e)).

(** What [pending_map] holds. *)
Definition published {T} (s : PendingResults.t T)
    : option (reply_map + exception) :=
  promise.result (PendingResults.pending_map s).

(** A published reply map has, for each of its peers, the future of that
    peer's own promise; its peers are destinations; [map_fulfilled] is
    set. *)
Definition well_published {T} (s : PendingResults.t T) : Prop :=
  match published s with
  | None => True
  | Some (inl m) =>
      PendingResults.map_fulfilled s = true
      /\ forall e f, m !! e = Some f ->
           f = Some e /\ e ∈ PendingResults.dest_nodes s
           /\ future_taken s e = true
  | Some (inr _) => False
  end.

(** ** The receiver thread of [missed_counters.cpp] *)

Module receiver.
(** A subscript outside one of the receiver's vectors. *)
Inductive bad_subscript :=
  | in_received_msgs (e : missed_counters.bad_access)
  | in_last_received (i : Z)
  | in_j (i : Z).

(** [received_msgs], captured by reference from [main], and the locals
    [last_received] and [j] of [receiver_loop]. *)
Record t := mk {
  received_msgs : list (list Z);
  last_received : list Z;
  j : list Z
}.

Definition R (A : Type) : Type := t -> t * (A + bad_subscript).

#[global] Instance R_ret : MRet R := fun A a s => (s, inl a).
#[global] Instance R_bind : MBind R := fun A B f m s =>
  match m s with
  | (s', inl a) => f a s'
  | (s', inr e) => (s', inr e)
  end.

(** [vector<vector<uint64_t>> received_msgs(num_nodes,
      vector<uint64_t>(num_msgs, 0));
    vector<uint64_t> last_received(num_nodes, 0);
    vector<uint64_t> j(num_nodes, 0);] *)
Definition init (num_nodes num_msgs : Z) : t :=
  mk (repeat (repeat 0 (Z.to_nat num_msgs)) (Z.to_nat num_nodes))
     (repeat 0 (Z.to_nat num_nodes))
     (repeat 0 (Z.to_nat num_nodes)).

(** [last_received[i]] read *)
Definition read_last_received (i : Z) : R Z := fun s =>
  match missed_counters.lookup_index (last_received s) i with
  | Some x => (s, inl x)
  | None => (s, inr (in_last_received i))
  end.

(** [last_received[i] = x] *)
Definition write_last_received (i x : Z) : R unit := fun s =>
  match missed_counters.lookup_index (last_received s) i with
  | Some _ => (mk (received_msgs s) (<[Z.to_nat i := x]> (last_received s))
                  (j s), inl tt)
  | None => (s, inr (in_last_received i))
  end.

(** [j[i]] read *)
Definition read_j (i : Z) : R Z := fun s =>
  match missed_counters.lookup_index (j s) i with
  | Some x => (s, inl x)
  | None => (s, inr (in_j i))
  end.

(** [j[i] = x] *)
Definition write_j (i x : Z) : R unit := fun s =>
  match missed_counters.lookup_index (j s) i with
  | Some _ => (mk (received_msgs s) (last_received s)
                  (<[Z.to_nat i := x]> (j s)), inl tt)
  | None => (s, inr (in_j i))
  end.

(** [received_msgs[i][k] = x] *)
Definition write_received_msgs (i k x : Z) : R unit := fun s =>
  match missed_counters.write i k x (received_msgs s) with
  | (rm, inl _) => (mk rm (last_received s) (j s), inl tt)
  | (_, inr e) => (s, inr (in_received_msgs e))
  end.

(** [for(uint32_t i = 0; i < num_nodes; i++) {
      actual_received = (uint64_t&)sst.counter[i];
      if(actual_received == last_received[i]) continue;
      received_msgs[i][j[i]] = actual_received;
      j[i]++;
      last_received[i] = actual_received; }]
    where [counter i] is what this pass reads from [sst.counter[i]]. *)
Fixpoint pass (fuel : nat) (num_nodes : Z) (counter : Z -> Z) (i : Z) : R unit :=
  match fuel with
  | O => mret tt
  | S fuel' =>
      if i <? num_nodes then
        let actual_received := counter i in
        last ← read_last_received i;
        if actual_received =? last
        then pass fuel' num_nodes counter (wrap 32 (i + 1))
        else
          k ← read_j i;
          write_received_msgs i k actual_received;;
          write_j i (wrap64 (k + 1));;
          write_last_received i actual_received;;
          pass fuel' num_nodes counter (wrap 32 (i + 1))
      else mret tt
  end.

(** [std::all_of(last_received.begin(), last_received.end(),
      [&](uint64_t n) { return n == num_msgs; })] *)
Definition all_received (num_msgs : Z) (s : t) : bool :=
  forallb (fun n => n =? num_msgs) (last_received s).

(** [while(!std::all_of(...)) { for ... }]: [counter p i] is what the
    [p]-th pass reads from [sst.counter[i]].  [None]: the loop needs more
    than [fuel] tests of its condition. *)
Fixpoint receiver_loop (fuel : nat) (num_nodes num_msgs : Z)
    (counter : nat -> Z -> Z) (s : t) : option (t * (unit + bad_subscript)) :=
  match fuel with
  | O => None
  | S fuel' =>
      if all_received num_msgs s then Some (s, inl tt)
      else
        match pass (Z.to_nat num_nodes) num_nodes (counter O) 0 s with
        | (s', inl _) =>
            receiver_loop fuel' num_nodes num_msgs (fun p => counter (S p)) s'
        | (s', inr e) => Some (s', inr e)
        end
  end.

(** What the first [n] passes read from the counter of node [i]. *)
Definition samples (counter : nat -> Z -> Z) (i : Z) (n : nat) : list Z :=
  map (fun p => counter p i) (seq 0 n).

(** The entries of a sequence that differ from the entry before them
    ([prev] before the first). *)
Fixpoint changes (prev : Z) (l : list Z) : list Z :=
  match l with
  | [] => []
  | x :: l' => if x =? prev then changes prev l' else x :: changes x l'
  end.

(** A row of [num_msgs] entries that starts with [l] and is 0 after it. *)
Definition padded (num_msgs : Z) (l : list Z) : list Z :=
  l ++ repeat 0 (Z.to_nat num_msgs - length l).

(** The vectors hold, for every node, the recorded values [st i]. *)
Definition holds (num_nodes num_msgs : Z) (st : Z -> list Z) (s : t) : Prop :=
  Z.of_nat (length (received_msgs s)) = num_nodes
  /\ Z.of_nat (length (last_received s)) = num_nodes
  /\ forall i, 0 <= i < num_nodes ->
       missed_counters.lookup_index (received_msgs s) i
       = Some (padded num_msgs (st i))
       /\ missed_counters.lookup_index (last_received s) i
          = Some (List.last (st i) 0)
       /\ missed_counters.lookup_index (j s) i
          = Some (Z.of_nat (length (st i))).
End receiver.

(** A run of the receiver against two nodes and [num_msgs = 4]: the
    counter of node 0 is seen at 1, 3 and 4, that of node 1 at 0, 2
    and 4. *)
Definition two_node_run (p : nat) (i : Z) : Z :=
  match p with
  | O => if i =? 0 then 1 else 0
  | S O => if i =? 0 then 3 else 2
  | _ => 4
  end.

(** ** Facts about the byte encodings *)

Lemma le_bytes_length n x : length (le_bytes n x) = n.
Proof. revert x; induction n as [|n IH]; intros x; simpl; [done|]. by rewrite IH. Qed.

Lemma le_value_bytes n x :
  le_value (le_bytes n x) = x mod 256 ^ Z.of_nat n.
Proof.
  revert x; induction n as [|n IH]; intros x.
  - simpl. by rewrite Z.mod_1_r.
  - cbn [le_bytes le_value]. rewrite IH.
    rewrite Nat2Z.inj_succ, Z.pow_succ_r by lia.
    rewrite Z.rem_mul_r by lia. lia.
Qed.

Lemma to_bytes_length be n x : length (to_bytes be n x) = n.
Proof.
  unfold to_bytes; destruct be; rewrite ?length_rev; apply le_bytes_length.
Qed.

Lemma of_to_bytes be n x :
  0 <= x < 256 ^ Z.of_nat n -> of_bytes be (to_bytes be n x) = x.
Proof.
  intros Hx. unfold of_bytes, to_bytes.
  destruct be; rewrite ?rev_involutive, le_value_bytes; by apply Z.mod_small.
Qed.

Lemma load_store_same buf off bs buf' :
  store buf off bs = Some buf' -> load buf' off (length bs) = Some bs.
Proof.
  unfold store, load. intros H. case_decide as Hle; [|done].
  injection H as <-.
  assert (Hlen : length (take off buf ++ bs ++ drop (off + length bs) buf)
                 = length buf).
  { rewrite !length_app, length_take, length_drop. lia. }
  rewrite Hlen. rewrite decide_True by done. f_equal.
  rewrite drop_app_length'; [|rewrite length_take; lia].
  by rewrite take_app_length.
Qed.

Lemma store_length buf off bs buf' :
  store buf off bs = Some buf' -> length buf' = length buf.
Proof.
  unfold store. intros H. case_decide; [|done]. injection H as <-.
  rewrite !length_app, length_take, length_drop. lia.
Qed.

(** A later store to a disjoint range does not disturb an earlier load. *)
Lemma load_store_disjoint buf off bs buf' off' n :
  store buf off bs = Some buf' ->
  (off' + n <= off)%nat ->
  load buf' off' n = load buf off' n.
Proof.
  intros H Hd. pose proof (store_length _ _ _ _ H) as Hlen.
  unfold store in H. case_decide as Hle; [|done]. injection H as <-.
  unfold load. rewrite Hlen.
  case_decide; [|done]. f_equal.
  rewrite drop_app_le by (rewrite length_take; lia).
  rewrite take_app_le by (rewrite length_drop, length_take; lia).
  rewrite !take_drop_commute, take_take. do 2 f_equal. lia.
Qed.

Lemma store_in_range buf off bs :
  (off + length bs <= length buf)%nat -> is_Some (store buf off bs).
Proof. intros H. unfold store. rewrite decide_True by done. eauto. Qed.

(** ** RPC header framing *)

(** C5: for every triple [(payload_size, opcode, from)] of the header's
    field types, [populate_header] into a buffer that has room for the
    header followed by [retrieve_header] on that buffer gives the triple
    back, whatever the host's byte order and size word. *)
Theorem header_round_trip (big_endian : bool) (sizeof_size_t : nat)
    (reply_buf : list Z) (payload_size op : Z) (from : node_id_t) :
  (remote_invocation_utilities.header_space sizeof_size_t <= length reply_buf)%nat ->
  0 <= payload_size < 256 ^ Z.of_nat sizeof_size_t ->
  0 <= op < 2 ^ 64 ->
  0 <= from < 2 ^ 32 ->
  exists buf,
    remote_invocation_utilities.populate_header
      big_endian sizeof_size_t reply_buf payload_size op from = Some buf
    /\ remote_invocation_utilities.retrieve_header big_endian sizeof_size_t buf
       = Some (payload_size, op, from).
Proof.
  intros Hlen Hsz Hop Hfrom.
  unfold remote_invocation_utilities.header_space,
    remote_invocation_utilities.sizeof_Opcode,
    remote_invocation_utilities.sizeof_node_id_t in Hlen.
  unfold remote_invocation_utilities.populate_header,
    remote_invocation_utilities.retrieve_header,
    remote_invocation_utilities.sizeof_Opcode,
    remote_invocation_utilities.sizeof_node_id_t.
  destruct (store_in_range reply_buf 0
              (to_bytes big_endian sizeof_size_t payload_size)) as [b1 H1].
  { rewrite to_bytes_length. lia. }
  pose proof (store_length _ _ _ _ H1) as L1.
  destruct (store_in_range b1 sizeof_size_t (to_bytes big_endian 8 op))
    as [b2 H2].
  { rewrite to_bytes_length. lia. }
  pose proof (store_length _ _ _ _ H2) as L2.
  destruct (store_in_range b2 (sizeof_size_t + 8) (to_bytes big_endian 4 from))
    as [b3 H3].
  { rewrite to_bytes_length. lia. }
  exists b3. rewrite H1. simpl. rewrite H2. simpl. split; [exact H3|].
  pose proof (load_store_same _ _ _ _ H1) as R1.
  pose proof (load_store_same _ _ _ _ H2) as R2.
  pose proof (load_store_same _ _ _ _ H3) as R3.
  rewrite to_bytes_length in R1, R2, R3.
  assert (E1 : load b3 0 sizeof_size_t
               = Some (to_bytes big_endian sizeof_size_t payload_size)).
  { rewrite (load_store_disjoint _ _ _ _ 0%nat sizeof_size_t H3) by lia.
    rewrite (load_store_disjoint _ _ _ _ 0%nat sizeof_size_t H2) by lia.
    exact R1. }
  assert (E2 : load b3 sizeof_size_t 8 = Some (to_bytes big_endian 8 op)).
  { rewrite (load_store_disjoint _ _ _ _ sizeof_size_t 8%nat H3) by lia.
    exact R2. }
  rewrite E1. simpl. rewrite E2. simpl. rewrite R3. simpl.
  rewrite !of_to_bytes by (simpl; lia). done.
Qed.

Lemma header_round_trip_witness :
  exists buf,
    remote_invocation_utilities.populate_header
      false 8 (repeat 0 20) 1234 0xDEADBEEFCAFEBABE 7 = Some buf
    /\ remote_invocation_utilities.retrieve_header false 8 buf
       = Some (1234, 0xDEADBEEFCAFEBABE, 7).
Proof.
  apply (header_round_trip false 8 (repeat 0 20) 1234 0xDEADBEEFCAFEBABE 7).
  - vm_compute. lia.
  - vm_compute. split; [discriminate | reflexivity].
  - vm_compute. split; [discriminate | reflexivity].
  - vm_compute. split; [discriminate | reflexivity].
Defined.

Lemma emplace_new {V} (k : Z) (v : V) (m : gmap Z V) :
  m !! k = None -> emplace k v m = <[k := v]> m.
Proof. unfold emplace. by intros ->. Qed.

(** ** [PendingResults]: what each member function does to the object *)

Section PendingResults_facts.
Context {T : Type}.
Implicit Types (s : PendingResults.t T) (nid p q : node_id_t).

Import PendingResults.

Lemma at_populated_promises_fields {A} nid (op : M (promise.t T) A) s :
  let s' := fst (at_populated_promises nid op s) in
  pending_map s' = pending_map s /\ map_fulfilled s' = map_fulfilled s
  /\ dest_nodes s' = dest_nodes s /\ responded_nodes s' = responded_nodes s.
Proof.
  unfold at_populated_promises.
  destruct (op _) as [p r]; simpl; auto.
Qed.

Lemma at_populated_promises_slot {A} nid (op : M (promise.t T) A) s q :
  slot (fst (at_populated_promises nid op s)) q =
  if decide (q = nid)
  then promise.result
         (fst (op (default promise.fresh (populated_promises s !! nid))))
  else slot s q.
Proof.
  unfold at_populated_promises, slot.
  destruct (op _) as [pr r]; simpl.
  case_decide as Hq.
  - subst q. by rewrite lookup_insert_eq.
  - by rewrite lookup_insert_ne.
Qed.

Lemma at_populated_promises_outcome {A} nid (op : M (promise.t T) A) s :
  snd (at_populated_promises nid op s) =
  snd (op (default promise.fresh (populated_promises s !! nid))).
Proof. unfold at_populated_promises. by destruct (op _). Qed.

(** A promise that already holds a result refuses the next one and keeps
    what it has. *)
Lemma promise_set_value_full (pr : promise.t T) v x :
  promise.result pr = Some x ->
  promise.set_value v pr = (pr, Throws (future_error promise_already_satisfied)).
Proof. unfold promise.set_value. by intros ->. Qed.

Lemma promise_set_exception_full (pr : promise.t T) e x :
  promise.result pr = Some x ->
  promise.set_exception e pr
  = (pr, Throws (future_error promise_already_satisfied)).
Proof. unfold promise.set_exception. by intros ->. Qed.

Lemma slot_Some_lookup s p x :
  slot s p = Some x ->
  exists pr, populated_promises s !! p = Some pr /\ promise.result pr = Some x.
Proof.
  unfold slot. destruct (populated_promises s !! p) as [pr|]; simpl; [|done].
  eauto.
Qed.

(** [set_value] and [set_exception], field by field. *)
Lemma set_value_unfold nid v s :
  set_value nid v s =
  at_populated_promises nid (promise.set_value v)
    (set_responded_nodes ({[nid]} ∪ responded_nodes s) s).
Proof. reflexivity. Qed.

Lemma set_exception_unfold nid e s :
  set_exception nid e s =
  at_populated_promises nid (promise.set_exception e)
    (set_responded_nodes ({[nid]} ∪ responded_nodes s) s).
Proof. reflexivity. Qed.

Lemma set_value_responded nid v s :
  responded_nodes (fst (set_value nid v s)) = {[nid]} ∪ responded_nodes s.
Proof.
  rewrite set_value_unfold.
  by destruct (at_populated_promises_fields nid (promise.set_value v)
    (set_responded_nodes ({[nid]} ∪ responded_nodes s) s)) as (_ & _ & _ & ->).
Qed.

Lemma set_exception_responded nid e s :
  responded_nodes (fst (set_exception nid e s)) = {[nid]} ∪ responded_nodes s.
Proof.
  rewrite set_exception_unfold.
  by destruct (at_populated_promises_fields nid (promise.set_exception e)
    (set_responded_nodes ({[nid]} ∪ responded_nodes s) s)) as (_ & _ & _ & ->).
Qed.

Lemma set_value_fields nid v s :
  let s' := fst (set_value nid v s) in
  pending_map s' = pending_map s /\ map_fulfilled s' = map_fulfilled s
  /\ dest_nodes s' = dest_nodes s.
Proof.
  rewrite set_value_unfold. cbv zeta.
  by destruct (at_populated_promises_fields nid (promise.set_value v)
    (set_responded_nodes ({[nid]} ∪ responded_nodes s) s)) as (-> & -> & -> & _).
Qed.

Lemma set_exception_fields nid e s :
  let s' := fst (set_exception nid e s) in
  pending_map s' = pending_map s /\ map_fulfilled s' = map_fulfilled s
  /\ dest_nodes s' = dest_nodes s.
Proof.
  rewrite set_exception_unfold. cbv zeta.
  by destruct (at_populated_promises_fields nid (promise.set_exception e)
    (set_responded_nodes ({[nid]} ∪ responded_nodes s) s)) as (-> & -> & -> & _).
Qed.

Lemma set_value_slot nid v s q :
  slot (fst (set_value nid v s)) q =
  if decide (q = nid)
  then match slot s nid with Some x => Some x | None => Some (inl v) end
  else slot s q.
Proof.
  rewrite set_value_unfold, at_populated_promises_slot.
  destruct (decide (q = nid)); [|done]. unfold slot, promise.set_value; simpl.
  by destruct (promise.result (default _ _)) eqn:E.
Qed.

Lemma set_exception_slot nid e s q :
  slot (fst (set_exception nid e s)) q =
  if decide (q = nid)
  then match slot s nid with Some x => Some x | None => Some (inr e) end
  else slot s q.
Proof.
  rewrite set_exception_unfold, at_populated_promises_slot.
  destruct (decide (q = nid)); [|done].
  unfold slot, promise.set_exception; simpl.
  by destruct (promise.result (default _ _)) eqn:E.
Qed.

Lemma set_value_outcome nid v s :
  snd (set_value nid v s) =
  match slot s nid with
  | Some _ => Throws (future_error promise_already_satisfied)
  | None => Returns tt
  end.
Proof.
  rewrite set_value_unfold, at_populated_promises_outcome.
  unfold slot, promise.set_value; simpl.
  by destruct (promise.result (default _ _)).
Qed.

Lemma set_exception_outcome nid e s :
  snd (set_exception nid e s) =
  match slot s nid with
  | Some _ => Throws (future_error promise_already_satisfied)
  | None => Returns tt
  end.
Proof.
  rewrite set_exception_unfold, at_populated_promises_outcome.
  unfold slot, promise.set_exception; simpl.
  by destruct (promise.result (default _ _)).
Qed.

Lemma set_exception_for_removed_node_unfold ndebug p s :
  set_exception_for_removed_node ndebug p s =
  if ndebug || map_fulfilled s then
    if bool_decide (p ∈ dest_nodes s) && bool_decide (p ∉ responded_nodes s)
    then set_exception p (node_removed_from_group_exception p) s
    else (s, Returns tt)
  else (s, Aborts).
Proof.
  unfold set_exception_for_removed_node, mbind, M_bind, gets, assert; simpl.
  destruct (ndebug || map_fulfilled s); [|done].
  by destruct (bool_decide _ && bool_decide _).
Qed.

Lemma keeps_refl s : keeps s s.
Proof. by unfold keeps. Qed.

Lemma keeps_trans s1 s2 s3 : keeps s1 s2 -> keeps s2 s3 -> keeps s1 s3.
Proof.
  unfold keeps. intros (A1 & A2 & A3 & A4 & A5) (B1 & B2 & B3 & B4 & B5).
  rewrite B1, B2, B3, B4. repeat split; try done.
  intros q. by rewrite B5.
Qed.

(** The loop of [fulfill_map] touches nothing but the [retrieved] flags. *)
Lemma emplace_future_keeps to_add e s :
  keeps s (fst (emplace_future to_add e s)).
Proof.
  unfold emplace_future, mbind, M_bind.
  pose proof (at_populated_promises_fields e (promise.get_future e) s) as F.
  pose proof (at_populated_promises_slot e (promise.get_future e) s) as Fs.
  destruct (at_populated_promises e (promise.get_future e) s) as [s' r].
  simpl in F, Fs. destruct F as (F1 & F2 & F3 & F4).
  assert (K : keeps s s').
  { repeat split; try done.
    intros q. rewrite Fs. case_decide as Hq; [subst q|done].
    unfold slot, promise.get_future. by destruct (promise.retrieved _). }
  by destruct r.
Qed.

Lemma for_each_emplace_future_keeps who to_add s :
  keeps s (fst (for_each emplace_future who to_add s)).
Proof.
  revert to_add s.
  induction who as [|e who IH]; intros to_add s; [apply keeps_refl|].
  cbn [for_each]. unfold mbind, M_bind.
  pose proof (emplace_future_keeps to_add e s) as F.
  destruct (emplace_future to_add e s) as [s1 r]. simpl in F.
  destruct r; simpl; try done.
  eapply keeps_trans; [exact F|apply IH].
Qed.

Lemma for_each_emplace_future_outcome who to_add s :
  match snd (for_each emplace_future who to_add s) with
  | Returns _ => True
  | Throws e => e = future_error future_already_retrieved
  | _ => False
  end.
Proof.
  revert to_add s.
  induction who as [|e who IH]; intros to_add s; [done|].
  cbn [for_each]. unfold mbind, M_bind.
  unfold emplace_future at 1, mbind, M_bind.
  unfold at_populated_promises at 1, promise.get_future at 1.
  destruct (promise.retrieved _); simpl; [done|].
  apply IH.
Qed.

Lemma fulfill_map_unfold who s :
  fulfill_map who s =
  match for_each emplace_future who ∅ (set_map_fulfilled true s) with
  | (s1, Returns to_add) =>
      at_pending_map (promise.set_value to_add)
        (set_dest_nodes (dest_nodes s1 ∪ list_to_set who) s1)
  | (s1, Throws e) => (s1, Throws e)
  | (s1, Aborts) => (s1, Aborts)
  | (s1, Undefined) => (s1, Undefined)
  | (s1, Blocks) => (s1, Blocks)
  end.
Proof.
  unfold fulfill_map, mbind, M_bind, modify; simpl.
  destruct (for_each _ _ _ _) as [s1 [to_add|e| | |]]; done.
Qed.

Lemma at_pending_map_frame {A} (op : M (promise.t reply_map) A) s :
  let s' := fst (at_pending_map op s) in
  populated_promises s' = populated_promises s
  /\ map_fulfilled s' = map_fulfilled s
  /\ dest_nodes s' = dest_nodes s /\ responded_nodes s' = responded_nodes s
  /\ (forall q, slot s' q = slot s q).
Proof.
  cbv zeta. unfold at_pending_map. by destruct (op _).
Qed.

(** [fulfill_map] sets [map_fulfilled] whatever else happens, and leaves
    the replies and the responded set alone. *)
Lemma fulfill_map_frame who s :
  let s' := fst (fulfill_map who s) in
  map_fulfilled s' = true /\ responded_nodes s' = responded_nodes s
  /\ (forall q, slot s' q = slot s q).
Proof.
  cbv zeta. rewrite fulfill_map_unfold.
  pose proof (for_each_emplace_future_keeps who ∅ (set_map_fulfilled true s))
    as F.
  destruct (for_each _ _ _ _) as [s1 r]. simpl in F.
  destruct F as (F1 & F2 & F3 & F4 & F5). simpl in *.
  destruct r as [to_add|e| | |]; simpl; try done.
  destruct (at_pending_map_frame (promise.set_value to_add)
              (set_dest_nodes (dest_nodes s1 ∪ list_to_set who) s1))
    as (_ & P2 & _ & P4 & P5).
  rewrite P2, P4. simpl. repeat split; try done.
  intros q. rewrite P5. apply F5.
Qed.

Lemma get_future_frame s :
  let s' := fst (get_future s) in
  map_fulfilled s' = map_fulfilled s
  /\ dest_nodes s' = dest_nodes s /\ responded_nodes s' = responded_nodes s
  /\ (forall q, slot s' q = slot s q).
Proof.
  cbv zeta.
  by destruct (at_pending_map_frame (promise.get_future tt) s) as (_ & ?).
Qed.

(** *** What any call can do *)

Lemma set_value_effect nid v s :
  let s' := fst (set_value nid v s) in
  responded_nodes s ⊆ responded_nodes s'
  /\ (forall q x, slot s q = Some x -> slot s' q = Some x)
  /\ (forall q, is_Some (slot s' q) ->
        is_Some (slot s q) \/ q ∈ responded_nodes s')
  /\ map_fulfilled s' = map_fulfilled s /\ dest_nodes s' = dest_nodes s.
Proof.
  cbv zeta. destruct (set_value_fields nid v s) as (_ & F2 & F3).
  rewrite set_value_responded, F2, F3.
  repeat split; try done; [apply union_subseteq_r| |].
  - intros q x Hq. rewrite set_value_slot.
    case_decide as E; [subst q; by rewrite Hq|done].
  - intros q. rewrite set_value_slot.
    case_decide as E; [subst q; right|by left].
    apply elem_of_union_l. by apply elem_of_singleton.
Qed.

Lemma set_exception_effect nid e s :
  let s' := fst (set_exception nid e s) in
  responded_nodes s ⊆ responded_nodes s'
  /\ (forall q x, slot s q = Some x -> slot s' q = Some x)
  /\ (forall q, is_Some (slot s' q) ->
        is_Some (slot s q) \/ q ∈ responded_nodes s')
  /\ map_fulfilled s' = map_fulfilled s /\ dest_nodes s' = dest_nodes s.
Proof.
  cbv zeta. destruct (set_exception_fields nid e s) as (_ & F2 & F3).
  rewrite set_exception_responded, F2, F3.
  repeat split; try done; [apply union_subseteq_r| |].
  - intros q x Hq. rewrite set_exception_slot.
    case_decide as E; [subst q; by rewrite Hq|done].
  - intros q. rewrite set_exception_slot.
    case_decide as E; [subst q; right|by left].
    apply elem_of_union_l. by apply elem_of_singleton.
Qed.

Lemma run_effect ndebug (c : call T) s :
  let s' := fst (run ndebug c s) in
  responded_nodes s ⊆ responded_nodes s'
  /\ (forall q x, slot s q = Some x -> slot s' q = Some x)
  /\ (forall q, is_Some (slot s' q) ->
        is_Some (slot s q) \/ q ∈ responded_nodes s')
  /\ (map_fulfilled s' = true
      \/ (map_fulfilled s' = map_fulfilled s /\ dest_nodes s' = dest_nodes s)).
Proof.
  cbv zeta. destruct c as [who|nid v|nid e|nid|]; cbn [run].
  - destruct (fulfill_map_frame who s) as (F1 & F2 & F3).
    rewrite F1, F2. repeat split; [done| | |by left].
    + intros q x. by rewrite F3.
    + intros q. rewrite F3. by left.
  - destruct (set_value_effect nid v s) as (? & ? & ? & ? & ?). eauto 10.
  - destruct (set_exception_effect nid e s) as (? & ? & ? & ? & ?). eauto 10.
  - rewrite set_exception_for_removed_node_unfold.
    destruct (ndebug || map_fulfilled s); [|simpl; eauto 10].
    destruct (bool_decide _ && bool_decide _); [|simpl; eauto 10].
    destruct (set_exception_effect nid
                (node_removed_from_group_exception nid) s)
      as (? & ? & ? & ? & ?). eauto 10.
  - assert (E : fst ((get_future ≫= fun _ : option unit => mret tt) s)
                = fst (get_future s)).
    { unfold mbind, M_bind. by destruct (get_future s) as [s' [| | | |]]. }
    rewrite E. destruct (get_future_frame s) as (G1 & G2 & G3 & G4).
    rewrite G1, G2, G3. repeat split; [done| | |by right].
    + intros q x. by rewrite G4.
    + intros q. rewrite G4. by left.
Qed.

Lemma consistent_fresh : consistent (fresh (T := T)).
Proof.
  split.
  - intros p [x Hx]. unfold slot, fresh in Hx. simpl in Hx.
    by rewrite lookup_empty in Hx.
  - intros p Hp. unfold fresh in Hp. simpl in Hp. set_solver.
Qed.

Lemma run_consistent ndebug (c : call T) s :
  consistent s -> consistent (fst (run ndebug c s)).
Proof.
  intros [C1 C2]. destruct (run_effect ndebug c s) as (E1 & E2 & E3 & E4).
  split.
  - intros p Hp. destruct (E3 p Hp) as [Hs|Hr]; [|done].
    apply E1, C1, Hs.
  - intros p Hp. destruct E4 as [->|[-> Hd]]; [done|].
    apply (C2 p). by rewrite <- Hd.
Qed.

Lemma reachable_consistent ndebug s : reachable ndebug s -> consistent s.
Proof.
  induction 1 as [|s s' _ IH Hstep]; [apply consistent_fresh|].
  destruct Hstep. by apply run_consistent.
Qed.

Lemma later_responded ndebug s s' :
  later ndebug s s' -> responded_nodes s ⊆ responded_nodes s'.
Proof.
  induction 1 as [|s s' s'' _ IH Hstep]; [done|].
  destruct Hstep as [c s' _].
  destruct (run_effect ndebug c s') as (E1 & _). set_solver.
Qed.

Lemma later_slot ndebug s s' q x :
  later ndebug s s' -> slot s q = Some x -> slot s' q = Some x.
Proof.
  induction 1 as [|s s' s'' _ IH Hstep]; [done|].
  intros Hq. destruct Hstep as [c s' _].
  destruct (run_effect ndebug c s') as (_ & E2 & _). by apply E2, IH.
Qed.

Lemma later_reachable ndebug s s' :
  reachable ndebug s -> later ndebug s s' -> reachable ndebug s'.
Proof.
  intros Hs. induction 1 as [|s s' s'' _ IH Hstep]; [done|].
  eapply reachable_step; [by apply IH|done].
Qed.

(** With the peer already in [responded_nodes] the removal notice changes
    nothing. *)
Lemma removed_after_response ndebug p s :
  p ∈ responded_nodes s ->
  fst (set_exception_for_removed_node ndebug p s) = s.
Proof.
  intros Hp. rewrite set_exception_for_removed_node_unfold.
  destruct (ndebug || map_fulfilled s); [|done].
  rewrite (bool_decide_eq_false_2 (p ∉ responded_nodes s)) by auto.
  by rewrite andb_false_r.
Qed.

(** *** The removal notice *)

(** The notice for a destination that has not responded, in an object
    produced by the member functions, is a [set_exception] on an empty
    slot. *)
Lemma removed_node_installs ndebug s p :
  reachable ndebug s ->
  p ∈ dest_nodes s ->
  p ∉ responded_nodes s ->
  slot s p = None
  /\ map_fulfilled s = true
  /\ set_exception_for_removed_node ndebug p s
     = set_exception p (node_removed_from_group_exception p) s.
Proof.
  intros Hreach Hdest Hresp.
  destruct (reachable_consistent _ _ Hreach) as [C1 C2].
  repeat split.
  - destruct (slot s p) eqn:E; [|done]. exfalso. apply Hresp, C1. by rewrite E.
  - by apply (C2 p).
  - rewrite set_exception_for_removed_node_unfold, (C2 p Hdest), orb_true_r.
    by rewrite !bool_decide_eq_true_2.
Qed.

(** C1: in an object produced by its member functions, for a peer [p] of
    the destination set that has not responded,
    [set_exception_for_removed_node(p)] returns and leaves the slot of [p]
    at NodeRemovedFromGroup([p]), with every other slot as it was; a second
    notice changes nothing, and the slot stays at that error under every
    later call.  No slot receives a second result: once a slot holds a value
    or an error, every later call leaves it as it is.  In particular once
    [set_value(q, v)] has been called, a later
    [set_exception_for_removed_node(q)] leaves the object, and so the slot
    of [q], unchanged. *)
Theorem removed_node_resolves_once ndebug s p :
  reachable ndebug s ->
  p ∈ dest_nodes s ->
  p ∉ responded_nodes s ->
  let gone := node_removed_from_group_exception p in
  let s1 := fst (set_exception_for_removed_node ndebug p s) in
  snd (set_exception_for_removed_node ndebug p s) = Returns tt
  /\ slot s p = None
  /\ slot s1 p = Some (inr gone)
  /\ (forall q, q ≠ p -> slot s1 q = slot s q)
  /\ set_exception_for_removed_node ndebug p s1 = (s1, Returns tt)
  /\ (forall s2, later ndebug s1 s2 -> slot s2 p = Some (inr gone))
  /\ (forall q x (sa sb : t T),
        slot sa q = Some x -> later ndebug sa sb -> slot sb q = Some x)
  /\ (forall q v (sa sb : t T),
        later ndebug (fst (set_value q v sa)) sb ->
        fst (set_exception_for_removed_node ndebug q sb) = sb).
Proof.
  intros Hreach Hdest Hresp gone s1.
  destruct (removed_node_installs _ _ _ Hreach Hdest Hresp)
    as (Hempty & Hmf & Hcall).
  fold gone in Hcall.
  assert (Hslot : slot s1 p = Some (inr gone)).
  { subst s1. rewrite Hcall, set_exception_slot, Hempty.
    by rewrite decide_True. }
  repeat split.
  - by rewrite Hcall, set_exception_outcome, Hempty.
  - done.
  - done.
  - intros q Hq. subst s1. rewrite Hcall, set_exception_slot.
    by rewrite decide_False.
  - assert (Hin : p ∈ responded_nodes s1).
    { subst s1. rewrite Hcall, set_exception_responded.
      apply elem_of_union_l. by apply elem_of_singleton. }
    assert (Hmf1 : map_fulfilled s1 = true).
    { subst s1. rewrite Hcall.
      destruct (set_exception_fields p gone s) as (_ & F2 & _). by rewrite F2. }
    rewrite set_exception_for_removed_node_unfold, Hmf1, orb_true_r.
    rewrite (bool_decide_eq_false_2 (p ∉ _)) by auto.
    by rewrite andb_false_r.
  - intros s2 Hl. by apply (later_slot _ _ _ _ _ Hl).
  - intros q x sa sb Hq Hl. by apply (later_slot _ _ _ _ _ Hl).
  - intros q v sa sb Hl. apply removed_after_response.
    apply (later_responded _ _ _ Hl). rewrite set_value_responded.
    apply elem_of_union_l. by apply elem_of_singleton.
Qed.

(** C2, as the code has it: [set_exception_for_removed_node] asserts
    [map_fulfilled].  On an object produced by the member functions, a call
    with [map_fulfilled] false stops the process when assertions are
    compiled in and does nothing under [NDEBUG]; with [map_fulfilled] true
    it does nothing unless the peer is a destination that has not
    responded, and in that case it returns with NodeRemoved([p]) in the
    slot of [p], [p] added to the responded set and all else as before. *)
Theorem removed_node_notice_guarded ndebug s p :
  reachable ndebug s ->
  let gone := node_removed_from_group_exception p in
  let r := set_exception_for_removed_node ndebug p s in
  (map_fulfilled s = false ->
     r = (s, if ndebug then Returns tt else Aborts))
  /\ (map_fulfilled s = true ->
      p ∉ dest_nodes s \/ p ∈ responded_nodes s ->
      r = (s, Returns tt))
  /\ (map_fulfilled s = true ->
      p ∈ dest_nodes s -> p ∉ responded_nodes s ->
      snd r = Returns tt
      /\ slot (fst r) p = Some (inr gone)
      /\ (forall q, q ≠ p -> slot (fst r) q = slot s q)
      /\ responded_nodes (fst r) = {[p]} ∪ responded_nodes s
      /\ dest_nodes (fst r) = dest_nodes s
      /\ map_fulfilled (fst r) = true
      /\ pending_map (fst r) = pending_map s).
Proof.
  intros Hreach gone r. subst r.
  destruct (reachable_consistent _ _ Hreach) as [C1 C2].
  split; [|split].
  - intros Hmf. rewrite set_exception_for_removed_node_unfold, Hmf, orb_false_r.
    destruct ndebug; [|done].
    rewrite (bool_decide_eq_false_2 (p ∈ dest_nodes s)); [done|].
    intros Hp. specialize (C2 p Hp). congruence.
  - intros Hmf Hcase.
    rewrite set_exception_for_removed_node_unfold, Hmf, orb_true_r.
    destruct Hcase as [Hd|Hr].
    + by rewrite (bool_decide_eq_false_2 (p ∈ dest_nodes s)).
    + rewrite (bool_decide_eq_false_2 (p ∉ responded_nodes s)) by auto.
      by rewrite andb_false_r.
  - intros Hmf Hd Hr.
    destruct (removed_node_installs _ _ _ Hreach Hd Hr) as (Hempty & _ & Hcall).
    fold gone in Hcall.
    destruct (set_exception_fields p gone s) as (F1 & F2 & F3).
    rewrite Hcall, set_exception_responded, F1, F2, F3.
    rewrite set_exception_outcome, set_exception_slot, Hempty.
    rewrite decide_True by done.
    repeat split; try done.
    intros q Hq. rewrite set_exception_slot. by rewrite decide_False.
Qed.

(** C10, as the code has it: when the slot of [p] already holds a result,
    [set_value(p, v)] and [set_exception(p, e)] insert [p] into
    [responded_nodes] and then throw; the slot keeps its result and [p] is
    in the responded set afterwards.  The object differs from the one
    before the call in the responded set only, and only if [p] was missing
    from it; on an object produced by the member functions [p] is there
    already and the failed call leaves the object as it was. *)
Theorem refulfil_throws_after_insert ndebug s p v e x :
  slot s p = Some x ->
  let busy := Throws (future_error promise_already_satisfied) in
  let s' := set_responded_nodes ({[p]} ∪ responded_nodes s) s in
  set_value p v s = (s', busy)
  /\ set_exception p e s = (s', busy)
  /\ p ∈ responded_nodes s'
  /\ slot s' p = Some x
  /\ (p ∈ responded_nodes s -> s' = s)
  /\ (reachable ndebug s -> s' = s).
Proof.
  intros Hx busy s'.
  destruct (slot_Some_lookup _ _ _ Hx) as (pr & Hpr & Hres).
  assert (Hsame : p ∈ responded_nodes s -> s' = s).
  { intros Hp. subst s'. destruct s as [pm pp mf d r]; simpl in *.
    unfold set_responded_nodes; simpl. f_equal.
    apply leibniz_equiv. apply subseteq_union_1. by apply singleton_subseteq_l. }
  repeat split.
  - rewrite set_value_unfold. fold s'. unfold at_populated_promises.
    change (populated_promises s') with (populated_promises s).
    rewrite Hpr; simpl. rewrite (promise_set_value_full _ _ _ Hres).
    rewrite insert_id by done. by destruct s.
  - rewrite set_exception_unfold. fold s'. unfold at_populated_promises.
    change (populated_promises s') with (populated_promises s).
    rewrite Hpr; simpl. rewrite (promise_set_exception_full _ _ _ Hres).
    rewrite insert_id by done. by destruct s.
  - subst s'. simpl. apply elem_of_union_l. by apply elem_of_singleton.
  - done.
  - done.
  - intros Hreach. apply Hsame.
    destruct (reachable_consistent _ _ Hreach) as [C1 _].
    apply C1. by rewrite Hx.
Qed.

(** *** Publishing the reply map *)

(** With distinct peers whose futures are still to be taken, the loop of
    [fulfill_map] ends normally with one future per peer. *)
Lemma for_each_emplace_future_ok who :
  NoDup who ->
  forall (to_add : reply_map) s,
  (forall e, e ∈ who ->
     promise.retrieved
       (default promise.fresh (populated_promises s !! e)) = false) ->
  (forall e, e ∈ who -> to_add !! e = None) ->
  exists m,
    snd (for_each emplace_future who to_add s) = Returns m
    /\ forall k, m !! k = if bool_decide (k ∈ who) then Some (Some k)
                          else to_add !! k.
Proof.
  induction 1 as [|e who Hnotin Hnodup IH]; intros to_add s Hfut Hnew.
  - exists to_add. split; [done|]. intros k.
    rewrite bool_decide_eq_false_2; [done|]. apply not_elem_of_nil.
  - cbn [for_each]. unfold mbind, M_bind.
    unfold emplace_future at 1, mbind, M_bind.
    unfold at_populated_promises at 1, promise.get_future at 1.
    rewrite (Hfut e) by apply list_elem_of_here. simpl.
    rewrite emplace_new by apply Hnew, list_elem_of_here.
    match goal with
    | |- context [for_each emplace_future who ?acc ?s1] =>
        destruct (IH acc s1) as (m & Hm & Hlook)
    end.
    + intros e' He'. simpl.
      rewrite lookup_insert_ne by (intros ->; done).
      apply Hfut. by apply list_elem_of_further.
    + intros e' He'.
      rewrite lookup_insert_ne by (intros ->; done).
      apply Hnew. by apply list_elem_of_further.
    + exists m. split; [done|]. intros k. rewrite Hlook.
      destruct (decide (k = e)) as [->|Hk].
      * rewrite (bool_decide_eq_false_2 (e ∈ who)) by done.
        rewrite (bool_decide_eq_true_2 (e ∈ e :: who))
          by apply list_elem_of_here.
        by rewrite lookup_insert_eq.
      * rewrite lookup_insert_ne by done.
        destruct (decide (k ∈ who)) as [Hin|Hout].
        -- rewrite !bool_decide_eq_true_2;
             [done|by apply list_elem_of_further|done].
        -- rewrite !bool_decide_eq_false_2; [done| |done].
           intros [->|?]%elem_of_cons; done.
Qed.

(** C4, as the code has it: [fulfill_map] sets [map_fulfilled] in every
    case.  Called with a list of distinct peers on an object whose
    [pending_map] holds nothing yet and that has not handed out the future
    of any of these peers, it returns, and [pending_map] then holds the
    reply map: one entry per listed peer, [|D|] entries in all, each a
    future on that peer's own slot; the listed peers are added to the
    destination set and no slot is touched. *)
Theorem fulfill_map_publishes (who : list node_id_t) s :
  map_fulfilled (fst (fulfill_map who s)) = true
  /\ (NoDup who ->
      promise.result (pending_map s) = None ->
      (forall e, e ∈ who ->
         promise.retrieved
           (default promise.fresh (populated_promises s !! e)) = false) ->
      exists m : reply_map,
        snd (fulfill_map who s) = Returns tt
        /\ promise.result (pending_map (fst (fulfill_map who s))) = Some (inl m)
        /\ dom m = list_to_set who
        /\ size m = length who
        /\ (forall e, e ∈ who -> m !! e = Some (Some e))
        /\ dest_nodes (fst (fulfill_map who s))
           = dest_nodes s ∪ list_to_set who
        /\ (forall q, slot (fst (fulfill_map who s)) q = slot s q)).
Proof.
  split; [by destruct (fulfill_map_frame who s) as (-> & _)|].
  intros Hnodup Hpending Hfut.
  destruct (for_each_emplace_future_ok who Hnodup ∅ (set_map_fulfilled true s))
    as (m & Hm & Hlook); [exact Hfut|intros; apply lookup_empty|].
  pose proof (for_each_emplace_future_keeps who ∅ (set_map_fulfilled true s))
    as K.
  rewrite fulfill_map_unfold.
  destruct (for_each emplace_future who ∅ (set_map_fulfilled true s))
    as [s1 r]. simpl in Hm, K. subst r.
  destruct K as (K1 & K2 & K3 & K4 & K5). simpl in K1, K3.
  exists m. unfold at_pending_map, promise.set_value. simpl.
  rewrite K1, Hpending. simpl.
  assert (Hdom : dom m = list_to_set who).
  { apply set_eq. intros k. rewrite elem_of_dom, Hlook, elem_of_list_to_set.
    case_bool_decide as Hk; [by split; eauto|].
    rewrite lookup_empty. split; [by intros [? ?]|done]. }
  repeat split; try done.
  - rewrite <- size_dom, Hdom. by apply size_list_to_set.
  - intros e He. rewrite Hlook. by rewrite bool_decide_eq_true_2.
  - by rewrite K3.
Qed.

End PendingResults_facts.

(** *** Instances *)

(** An object after [fulfill_map({1, 2})]. *)
Lemma reachable_after_fulfill_map :
  PendingResults.reachable false
    (fst (PendingResults.fulfill_map (T := Z) [1; 2] PendingResults.fresh)).
Proof.
  eapply PendingResults.reachable_step;
    [apply PendingResults.reachable_fresh|].
  apply (PendingResults.step_run false
           (PendingResults.call_fulfill_map [1; 2]) PendingResults.fresh).
  vm_compute. discriminate.
Qed.

Lemma removed_node_resolves_once_witness :
  let s := fst (PendingResults.fulfill_map (T := Z) [1; 2]
                  PendingResults.fresh) in
  PendingResults.reachable false s
  /\ (2 ∈ PendingResults.dest_nodes s)
  /\ (2 ∉ PendingResults.responded_nodes s)
  /\ PendingResults.slot
       (fst (PendingResults.set_exception_for_removed_node false 2 s)) 2
     = Some (inr (node_removed_from_group_exception 2)).
Proof.
  intros s.
  assert (H1 : PendingResults.reachable false s)
    by exact reachable_after_fulfill_map.
  assert (H2 : 2 ∈ PendingResults.dest_nodes s)
    by (apply (bool_decide_unpack (2 ∈ PendingResults.dest_nodes s));
        vm_compute; exact I).
  assert (H3 : 2 ∉ PendingResults.responded_nodes s)
    by (apply (bool_decide_unpack (2 ∉ PendingResults.responded_nodes s));
        vm_compute; exact I).
  split; [exact H1|]. split; [exact H2|]. split; [exact H3|].
  exact (proj1 (proj2 (proj2
           (removed_node_resolves_once false s 2 H1 H2 H3)))).
Defined.

(** C2 as stated fails: before [fulfill_map], with assertions compiled in,
    the call is not a no-op; it stops the process. *)
Lemma removed_node_notice_unfulfilled_aborts :
  PendingResults.set_exception_for_removed_node (T := Z) false 1
    PendingResults.fresh
  = (PendingResults.fresh, Aborts).
Proof. reflexivity. Qed.

Lemma removed_node_notice_guarded_witness :
  let s := fst (PendingResults.fulfill_map (T := Z) [1; 2]
                  PendingResults.fresh) in
  PendingResults.reachable false s
  /\ PendingResults.set_exception_for_removed_node false 3 s
     = (s, Returns tt).
Proof.
  intros s. split; [exact reachable_after_fulfill_map|].
  apply (proj1 (proj2
           (removed_node_notice_guarded false s 3 reachable_after_fulfill_map))).
  - reflexivity.
  - left. apply (bool_decide_unpack (3 ∉ PendingResults.dest_nodes s)).
    vm_compute. exact I.
Defined.

(** C10 as stated fails: after [set_value(1, 7)] a second [set_value(1, 8)]
    throws and the object is what it was before the call. *)
Lemma refulfil_leaves_object_unchanged :
  let s := fst (PendingResults.set_value 1 7 PendingResults.fresh) in
  PendingResults.slot s 1 = Some (inl 7)
  /\ PendingResults.set_value 1 8 s
     = (s, Throws (future_error promise_already_satisfied)).
Proof. split; vm_compute; reflexivity. Qed.

Lemma refulfil_throws_after_insert_witness :
  let s := fst (PendingResults.set_value 1 7 PendingResults.fresh) in
  PendingResults.slot s 1 = Some (inl 7)
  /\ PendingResults.set_value 1 8 s
     = (PendingResults.set_responded_nodes
          ({[1]} ∪ PendingResults.responded_nodes s) s,
        Throws (future_error promise_already_satisfied)).
Proof.
  intros s.
  assert (H : PendingResults.slot s 1 = Some (inl 7)) by reflexivity.
  split; [exact H|].
  exact (proj1 (refulfil_throws_after_insert false s 1 8
                  (remote_exception_occurred 1) (inl 7) H)).
Defined.

(** C4 as stated fails: a destination list that names a peer twice makes
    [fulfill_map] throw on the second [get_future] of that peer's promise,
    and nothing is published. *)
Lemma fulfill_map_repeated_peer_throws :
  let r := PendingResults.fulfill_map (T := Z) [1; 1] PendingResults.fresh in
  snd r = Throws (future_error future_already_retrieved)
  /\ promise.result (PendingResults.pending_map (fst r)) = None.
Proof. split; vm_compute; reflexivity. Qed.

Lemma fulfill_map_publishes_witness :
  exists m : reply_map,
    PendingResults.fulfill_map (T := Z) [1; 2; 3] PendingResults.fresh
    = (fst (PendingResults.fulfill_map (T := Z) [1; 2; 3]
              PendingResults.fresh), Returns tt)
    /\ promise.result
         (PendingResults.pending_map
            (fst (PendingResults.fulfill_map (T := Z) [1; 2; 3]
                    PendingResults.fresh))) = Some (inl m)
    /\ size m = 3%nat.
Proof.
  destruct (proj2 (fulfill_map_publishes (T := Z) [1; 2; 3]
                     PendingResults.fresh))
    as (m & H1 & H2 & _ & H4 & _).
  - apply (bool_decide_unpack (NoDup [1; 2; 3])). vm_compute. exact I.
  - reflexivity.
  - intros e _. unfold PendingResults.fresh. simpl.
    by rewrite lookup_empty.
  - exists m. split; [|split]; [|exact H2|exact H4].
    rewrite <- H1. by destruct (PendingResults.fulfill_map _ _).
Defined.

(** ** [QueryResults] *)

Lemma bind_Returns_inv {S A B} (m : M S A) (f : A -> M S B) s s' b :
  (m ≫= f) s = (s', Returns b) ->
  exists a s1, m s = (s1, Returns a) /\ f a s1 = (s', Returns b).
Proof.
  unfold mbind, M_bind. destruct (m s) as [s1 [a|e| | |]]; try done. eauto.
Qed.

Lemma reply_map_size_pos (rmap : reply_map) nid f :
  rmap !! nid = Some f -> (0 < size rmap)%nat.
Proof.
  intros H. destruct (decide (size rmap = 0%nat)) as [E|]; [|lia].
  apply map_size_empty_inv in E. subst rmap. by rewrite lookup_empty in H.
Qed.

(** [valid] on a map that satisfies its assertion. *)
Lemma ReplyMap_valid_unfold ndebug nid (rmap : reply_map) :
  size rmap = 0%nat \/ is_Some (rmap !! nid) ->
  QueryResults.ReplyMap.valid ndebug nid rmap =
  (rmap, Returns (bool_decide (0 < size rmap)%nat &&
                  match rmap !! nid with
                  | Some f => future_valid f
                  | None => false
                  end)).
Proof.
  intros Hpre. unfold QueryResults.ReplyMap.valid, mbind, M_bind, gets, assert.
  simpl.
  assert (Hassert : bool_decide (size rmap = 0%nat)
                    || bool_decide (is_Some (rmap !! nid)) = true).
  { destruct Hpre as [H|H].
    - by rewrite (bool_decide_eq_true_2 _ H).
    - rewrite (bool_decide_eq_true_2 _ H). apply orb_true_r. }
  rewrite Hassert, orb_true_r. clear Hassert.
  destruct (decide (0 < size rmap)%nat) as [Hsz|Hsz].
  - rewrite !(bool_decide_eq_true_2 _ Hsz). cbn [andb].
    destruct Hpre as [H|[f H]]; [lia|]. by rewrite H.
  - by rewrite !(bool_decide_eq_false_2 _ Hsz).
Qed.

(** C6, as the code has it: on a reply map that is empty or has an entry
    for [nid], [valid(nid)] returns true exactly when the map is populated
    and the future of [nid] still refers to its shared state.  Whether the
    reply has arrived plays no part: the answer is a function of the map
    alone, and once [get(nid)] has returned the reply, [valid(nid)] is
    false. *)
Theorem valid_iff_future_has_state ndebug nid (rmap : reply_map) :
  size rmap = 0%nat \/ is_Some (rmap !! nid) ->
  (exists b,
     QueryResults.ReplyMap.valid ndebug nid rmap = (rmap, Returns b)
     /\ (b = true <->
         (0 < size rmap)%nat /\ exists src, rmap !! nid = Some (Some src)))
  /\ (forall T (pending : PendingResults.t T) w w' (v : T),
        QueryResults.ReplyMap.get ndebug pending nid w = (w', Returns v) ->
        QueryResults.ReplyMap.valid ndebug nid (QueryResults.replies (fst w'))
        = (QueryResults.replies (fst w'), Returns false)).
Proof.
  intros Hpre. split.
  - eexists. split; [by apply ReplyMap_valid_unfold|].
    rewrite andb_true_iff, bool_decide_eq_true.
    split.
    + intros [Hsz Hf]. split; [done|].
      destruct (rmap !! nid) as [[src|]|]; try done. by exists src.
    + intros [Hsz [src Hsrc]]. by rewrite Hsrc.
  - intros T pending w w' v Hget.
    unfold QueryResults.ReplyMap.get in Hget.
    repeat (apply bind_Returns_inv in Hget;
            destruct Hget as (? & ? & _ & Hget)).
    unfold QueryResults.ReplyMap.at_get in Hget.
    destruct (QueryResults.replies _ !! nid) as [[src|]|]; try done.
    destruct (PendingResults.slot pending src) as [[v'|e]|]; try done.
    injection Hget as <- _. simpl.
    rewrite ReplyMap_valid_unfold by (right; by rewrite lookup_insert_eq).
    rewrite lookup_insert_eq. simpl. by rewrite andb_false_r.
Qed.

(** C6 as stated fails: right after [fulfill_map({1})], with no reply from
    peer 1, the map delivered by [wait] answers [valid(1)] with true. *)
Lemma valid_before_reply_arrives :
  let pending :=
    fst (PendingResults.fulfill_map (T := Z) [1] PendingResults.fresh) in
  let w := fst (QueryResults.wait (PendingResults.pending_map pending) 1
                  (QueryResults.make (Some tt), [])) in
  PendingResults.slot pending 1 = None
  /\ QueryResults.ReplyMap.valid false 1 (QueryResults.replies (fst w))
     = (QueryResults.replies (fst w), Returns true).
Proof. split; vm_compute; reflexivity. Qed.

Lemma valid_iff_future_has_state_witness :
  let rmap : reply_map := {[1 := Some 1]} in
  exists b,
    QueryResults.ReplyMap.valid false 1 rmap = (rmap, Returns b)
    /\ (b = true <->
        (0 < size rmap)%nat /\ exists src, rmap !! 1 = Some (Some src)).
Proof.
  intros rmap.
  apply (proj1 (valid_iff_future_has_state false 1 rmap
                  (or_intror (ex_intro _ (Some 1) eq_refl)))).
Defined.

(** *** [wait] and [get] *)

Section QueryResults_facts.
Import QueryResults.
Implicit Types (q : QueryResults.t) (log : list blocking_call).

(** A populated [replies.rmap]: [wait] hands it out at once. *)
Lemma wait_populated shared d q log :
  size (replies q) ≠ 0%nat ->
  wait shared d (q, log) = ((q, log), Returns (Some (replies q))).
Proof.
  intros Hsz. unfold wait, mbind, M_bind, gets. simpl.
  by rewrite (bool_decide_eq_false_2 _ Hsz).
Qed.

(** Nothing published when the duration is over: [nullptr]. *)
Lemma wait_timeout shared d q log :
  size (replies q) = 0%nat ->
  pending_rmap q = Some tt ->
  promise.result shared = None ->
  wait shared d (q, log) = ((q, future_wait_for d :: log), Returns None).
Proof.
  intros Hsz Hfut Hres. unfold wait, mbind, M_bind, gets. simpl.
  rewrite (bool_decide_eq_true_2 _ Hsz).
  unfold pending_rmap_wait_for. simpl. rewrite Hfut, Hres.
  rewrite bool_decide_eq_false_2; [done|]. apply is_Some_None.
Qed.

(** The map is published: [wait] moves it into [replies.rmap]. *)
Lemma wait_ready shared d q log m :
  size (replies q) = 0%nat ->
  pending_rmap q = Some tt ->
  promise.result shared = Some (inl m) ->
  wait shared d (q, log)
  = ((mk None m, future_get :: future_wait_for d :: log), Returns (Some m)).
Proof.
  intros Hsz Hfut Hres. unfold wait, mbind, M_bind, gets. simpl.
  rewrite (bool_decide_eq_true_2 _ Hsz).
  unfold pending_rmap_wait_for. simpl. rewrite Hfut, Hres.
  rewrite bool_decide_eq_true_2 by eauto.
  unfold pending_rmap_get. simpl. by rewrite Hfut, Hres.
Qed.

Lemma repeat_app_cons {A} (x : A) n l :
  repeat x n ++ x :: l = x :: repeat x n ++ l.
Proof. induction n as [|n IH]; [done|]. simpl. by rewrite IH. Qed.

Lemma get_polls k : forall env q log m fuel,
  size (replies q) = 0%nat ->
  pending_rmap q = Some tt ->
  (forall j, (j < k)%nat -> promise.result (env j) = None) ->
  promise.result (env k) = Some (inl m) ->
  (k < fuel)%nat ->
  get fuel env (q, log)
  = Some ((mk None m,
           future_get :: repeat (future_wait_for five_minutes) (S k) ++ log),
          Returns m).
Proof.
  induction k as [|k IH]; intros env q log m fuel Hsz Hfut Hwait Hready Hfuel;
    (destruct fuel as [|fuel]; [lia|]); cbn [get].
  - by rewrite (wait_ready _ _ _ _ m).
  - rewrite wait_timeout by (try done; apply Hwait; lia).
    rewrite (IH _ q _ m) by (try done; try lia; intros j Hj; apply Hwait; lia).
    by rewrite repeat_app_cons.
Qed.

Lemma get_waits fuel : forall env q log,
  size (replies q) = 0%nat ->
  pending_rmap q = Some tt ->
  (forall j, promise.result (env j) = None) ->
  get fuel env (q, log) = None.
Proof.
  induction fuel as [|fuel IH]; intros env q log Hsz Hfut Hnever; [done|].
  cbn [get]. rewrite wait_timeout by done. by apply IH.
Qed.

(** C7, as the code has it.  The only calls of [wait(d)] that can suspend
    the thread are one [pending_rmap.wait_for(d)] and, once that reports
    ready, the [get()] of the ready future.  With an empty [replies.rmap]
    and nothing published, [wait(d)] returns [nullptr] after that one
    [wait_for(d)]; when the map is published it returns the map, and if
    that map is not empty every later [wait] returns it without any such
    call.  [get()] polls [wait(5min)]: when the map is first published at
    poll [k] it returns it after [k + 1] calls of [wait_for(5min)], and
    while the map is never published no number of rounds ends the loop. *)
Theorem wait_then_get_poll q log d :
  (size (replies q) ≠ 0%nat -> forall shared,
     wait shared d (q, log) = ((q, log), Returns (Some (replies q))))
  /\ (size (replies q) = 0%nat -> pending_rmap q = Some tt ->
      forall shared, promise.result shared = None ->
      wait shared d (q, log) = ((q, future_wait_for d :: log), Returns None))
  /\ (size (replies q) = 0%nat -> pending_rmap q = Some tt ->
      forall shared m, promise.result shared = Some (inl m) ->
      wait shared d (q, log)
      = ((mk None m, future_get :: future_wait_for d :: log),
         Returns (Some m))
      /\ (size m ≠ 0%nat -> forall shared' d' log',
            wait shared' d' (mk None m, log')
            = ((mk None m, log'), Returns (Some m))))
  /\ (size (replies q) = 0%nat -> pending_rmap q = Some tt ->
      forall env k m,
      (forall j, (j < k)%nat -> promise.result (env j) = None) ->
      promise.result (env k) = Some (inl m) ->
      forall fuel, (k < fuel)%nat ->
      get fuel env (q, log)
      = Some ((mk None m,
               future_get
                 :: repeat (future_wait_for five_minutes) (S k) ++ log),
              Returns m))
  /\ (size (replies q) = 0%nat -> pending_rmap q = Some tt ->
      forall env, (forall j, promise.result (env j) = None) ->
      forall fuel, get fuel env (q, log) = None).
Proof.
  split; [|split; [|split; [|split]]].
  - intros Hsz shared. by apply wait_populated.
  - intros Hsz Hfut shared Hres. by apply wait_timeout.
  - intros Hsz Hfut shared m Hres. split; [by apply wait_ready|].
    intros Hm shared' d' log'. by apply (wait_populated _ _ (mk None m)).
  - intros Hsz Hfut env k m Hwait Hready fuel Hfuel. by apply get_polls.
  - intros Hsz Hfut env Hnever fuel. by apply get_waits.
Qed.

End QueryResults_facts.

(** C7 as stated fails: after [fulfill_map] with an empty destination list
    the first [wait] returns the (empty) map, and the next [wait] does not
    return it: it calls [wait_for] on a future without shared state. *)
Lemma wait_after_empty_map :
  let pending :=
    fst (PendingResults.fulfill_map (T := Z) [] PendingResults.fresh) in
  let shared := PendingResults.pending_map pending in
  let first := QueryResults.wait shared 1 (QueryResults.make (Some tt), []) in
  snd first = Returns (Some ∅)
  /\ snd (QueryResults.wait shared 1 (fst first)) = Undefined.
Proof. split; vm_compute; reflexivity. Qed.

(** Scenario S4: a call sent to peers 1, 2 and 3; peer 1 answers 10, peer 3
    reports a remote exception and peer 2 is removed before it answers. *)
Example reply_map_after_partial_response :
  let pending :=
    fst (PendingResults.set_exception_for_removed_node false 2
      (fst (PendingResults.set_exception 3 (remote_exception_occurred 3)
        (fst (PendingResults.set_value 1 10
          (fst (PendingResults.fulfill_map [1; 2; 3]
            (fst (PendingResults.get_future PendingResults.fresh))))))))) in
  let query : QueryResults.me := (QueryResults.make (Some tt), []) in
  let reply nid :=
    snd (QueryResults.ReplyMap.get false pending nid query) in
  reply 1 = Returns 10
  /\ reply 2 = Throws (node_removed_from_group_exception 2)
  /\ reply 3 = Throws (remote_exception_occurred 3)
  /\ reply 4 = Aborts.
Proof. repeat split; vm_compute; reflexivity. Qed.

(** ** Byte order *)

Lemma le_bytes_range n x : Forall (fun b => 0 <= b < 256) (le_bytes n x).
Proof.
  revert x; induction n as [|n IH]; intros x; simpl; constructor; [|apply IH].
  apply Z.mod_pos_bound. lia.
Qed.

Lemma le_bytes_value bs :
  Forall (fun b => 0 <= b < 256) bs -> le_bytes (length bs) (le_value bs) = bs.
Proof.
  induction 1 as [|b bs Hb _ IH]; [done|].
  cbn [length le_bytes le_value].
  replace (b + 256 * le_value bs) with (b + le_value bs * 256) by lia.
  f_equal.
  - rewrite Z_mod_plus_full. by apply Z.mod_small.
  - rewrite Z.div_add by lia. rewrite (Z.div_small b), Z.add_0_l by done. exact IH.
Qed.

Lemma to_bytes_range be n x : Forall (fun b => 0 <= b < 256) (to_bytes be n x).
Proof.
  unfold to_bytes. destruct be; [apply Forall_rev|]; apply le_bytes_range.
Qed.

Lemma to_of_bytes be bs :
  Forall (fun b => 0 <= b < 256) bs ->
  to_bytes be (length bs) (of_bytes be bs) = bs.
Proof.
  intros H. unfold to_bytes, of_bytes. destruct be.
  - rewrite <- (length_rev bs), le_bytes_value by by apply Forall_rev.
    apply rev_involutive.
  - by apply le_bytes_value.
Qed.

Lemma of_bytes_range be bs :
  Forall (fun b => 0 <= b < 256) bs ->
  0 <= of_bytes be bs < 256 ^ Z.of_nat (length bs).
Proof.
  intros H.
  assert (G : forall l, Forall (fun b => 0 <= b < 256) l ->
              0 <= le_value l < 256 ^ Z.of_nat (length l)).
  { induction 1 as [|b l Hb _ IH]; [simpl; lia|].
    cbn [le_value length]. rewrite Nat2Z.inj_succ, Z.pow_succ_r by lia. lia. }
  unfold of_bytes. destruct be.
  - rewrite <- (length_rev bs). apply G. by apply Forall_rev.
  - by apply G.
Qed.

Section Byte_order.
Variable big_endian : bool.

(** The object representation of [htonll x] is [x] in big-endian order. *)
Lemma htonll_on_the_wire x :
  to_bytes big_endian 8 (MemoryRegion.htonll big_endian x) = to_bytes true 8 x.
Proof.
  unfold MemoryRegion.htonll.
  rewrite <- (to_bytes_length true 8 x) at 1.
  apply to_of_bytes, to_bytes_range.
Qed.

Lemma htonll_range x : 0 <= MemoryRegion.htonll big_endian x < 2 ^ 64.
Proof.
  unfold MemoryRegion.htonll.
  pose proof (of_bytes_range big_endian (to_bytes true 8 x)
                (to_bytes_range _ _ _)) as H.
  by rewrite to_bytes_length in H.
Qed.

(** Reading big-endian bytes natively and converting with [ntohll] gives
    the value back. *)
Lemma ntohll_of_the_wire x :
  0 <= x < 2 ^ 64 ->
  MemoryRegion.ntohll big_endian (of_bytes big_endian (to_bytes true 8 x)) = x.
Proof.
  intros Hx. unfold MemoryRegion.ntohll.
  rewrite <- (to_bytes_length true 8 x) at 1.
  rewrite to_of_bytes by apply to_bytes_range.
  by apply of_to_bytes.
Qed.

Lemma ntohll_htonll x :
  0 <= x < 2 ^ 64 ->
  MemoryRegion.ntohll big_endian (MemoryRegion.htonll big_endian x) = x.
Proof. apply ntohll_of_the_wire. Qed.

End Byte_order.

(** ** [MemoryRegion] *)

Lemma wrap64_small x : 0 <= x < 2 ^ 64 -> wrap64 x = x.
Proof. intros H. unfold wrap64, wrap. by apply Z.mod_small. Qed.

(** The constructor on a live connection with both registrations and both
    keys granted, when the peer's record [(rk, rv)] arrives: it sends its
    own record, big-endian, and stores the peer's values. *)
Lemma MemoryRegion_exchange (big_endian : bool) (NOTAVAIL declared : Z)
    (c : MemoryRegion.RDMAConnection) (lf : MemoryRegion.libfabric)
    (rid : node_id_t) (sbuf rbuf sz wmr rmr k kw rk rv : Z)
    (sent : list (list Z)) :
  MemoryRegion.is_broken c = false ->
  MemoryRegion.fi_mr_reg lf sbuf sz = (0, wmr) ->
  MemoryRegion.fi_mr_reg lf rbuf sz = (0, rmr) ->
  MemoryRegion.fi_mr_key lf rmr = k -> k ≠ NOTAVAIL ->
  MemoryRegion.fi_mr_key lf wmr = kw -> kw ≠ NOTAVAIL ->
  0 <= k < 2 ^ 64 -> 0 <= rbuf < 2 ^ 64 ->
  0 <= rk < 2 ^ 64 -> 0 <= rv < 2 ^ 64 ->
  MemoryRegion.MemoryRegion big_endian NOTAVAIL declared (Some c) lf
    (Some (to_bytes true 8 rk ++ to_bytes true 8 rv)) rid sbuf rbuf sz sent
  = ((to_bytes true 8 k ++ to_bytes true 8 rbuf) :: sent,
     Returns (MemoryRegion.mk rid sbuf rbuf declared wmr rmr k kw rk rv)).
Proof.
  intros Hlive Hw Hr Hk Hkna Hkw Hkwna Rk Rbuf Rrk Rrv.
  unfold MemoryRegion.MemoryRegion. rewrite Hlive, Hw. cbn [negb Z.eqb].
  rewrite Hr. cbn [negb Z.eqb]. rewrite Hk, Hkw.
  rewrite (proj2 (Z.eqb_neq k NOTAVAIL) Hkna).
  rewrite (proj2 (Z.eqb_neq kw NOTAVAIL) Hkwna).
  rewrite (wrap64_small rbuf Rbuf).
  rewrite !wrap64_small by apply htonll_range.
  unfold MemoryRegion.tcp_exchange.
  rewrite bool_decide_eq_true_2
    by (rewrite length_app, !to_bytes_length; reflexivity).
  unfold MemoryRegion.record_bytes, MemoryRegion.record_of_bytes.
  cbn [MemoryRegion.mr_key MemoryRegion.vaddr].
  rewrite !htonll_on_the_wire.
  assert (T1 : take 8 (to_bytes true 8 rk ++ to_bytes true 8 rv)
               = to_bytes true 8 rk).
  { rewrite take_app_le by (rewrite to_bytes_length; lia).
    apply firstn_all2. rewrite to_bytes_length. lia. }
  assert (T2 : take 8 (drop 8 (to_bytes true 8 rk ++ to_bytes true 8 rv))
               = to_bytes true 8 rv).
  { rewrite drop_app_length' by by rewrite to_bytes_length.
    apply firstn_all2. rewrite to_bytes_length. lia. }
  rewrite T1, T2.
  unfold mbind, M_bind, modify, mret, M_ret.
  cbn [MemoryRegion.mr_key MemoryRegion.vaddr].
  rewrite !ntohll_of_the_wire by done.
  by rewrite (wrap64_small rk Rrk).
Qed.

(** C8: two peers [a] and [b], of any byte orders, construct their regions
    towards each other on live connections with registrations and keys
    granted.  Each sends exactly one record, of 16 bytes: its read-buffer
    key at offset 0 and the address of its receive buffer at offset 8, both
    big-endian; each ends with the other's key in [mr_rwkey] and the
    other's receive-buffer address in [remote_recv_buf]. *)
Theorem MemoryRegion_descriptor_exchange
    (big_endian_a big_endian_b : bool) (NOTAVAIL declared_a declared_b : Z)
    (conn_a conn_b : MemoryRegion.RDMAConnection)
    (lf_a lf_b : MemoryRegion.libfabric) (id_a id_b : node_id_t)
    (sbuf_a rbuf_a sz_a wmr_a rmr_a key_a wkey_a : Z)
    (sbuf_b rbuf_b sz_b wmr_b rmr_b key_b wkey_b : Z) :
  MemoryRegion.is_broken conn_a = false ->
  MemoryRegion.is_broken conn_b = false ->
  MemoryRegion.fi_mr_reg lf_a sbuf_a sz_a = (0, wmr_a) ->
  MemoryRegion.fi_mr_reg lf_a rbuf_a sz_a = (0, rmr_a) ->
  MemoryRegion.fi_mr_reg lf_b sbuf_b sz_b = (0, wmr_b) ->
  MemoryRegion.fi_mr_reg lf_b rbuf_b sz_b = (0, rmr_b) ->
  MemoryRegion.fi_mr_key lf_a rmr_a = key_a -> key_a ≠ NOTAVAIL ->
  MemoryRegion.fi_mr_key lf_a wmr_a = wkey_a -> wkey_a ≠ NOTAVAIL ->
  MemoryRegion.fi_mr_key lf_b rmr_b = key_b -> key_b ≠ NOTAVAIL ->
  MemoryRegion.fi_mr_key lf_b wmr_b = wkey_b -> wkey_b ≠ NOTAVAIL ->
  0 <= key_a < 2 ^ 64 -> 0 <= rbuf_a < 2 ^ 64 ->
  0 <= key_b < 2 ^ 64 -> 0 <= rbuf_b < 2 ^ 64 ->
  exists rec_a rec_b mr_a mr_b,
    MemoryRegion.MemoryRegion big_endian_a NOTAVAIL declared_a (Some conn_a)
      lf_a (Some rec_b) id_b sbuf_a rbuf_a sz_a [] = ([rec_a], Returns mr_a)
    /\ MemoryRegion.MemoryRegion big_endian_b NOTAVAIL declared_b (Some conn_b)
         lf_b (Some rec_a) id_a sbuf_b rbuf_b sz_b [] = ([rec_b], Returns mr_b)
    /\ length rec_a = 16%nat /\ length rec_b = 16%nat
    /\ load rec_a 0 8 = Some (to_bytes true 8 key_a)
    /\ load rec_a 8 8 = Some (to_bytes true 8 rbuf_a)
    /\ load rec_b 0 8 = Some (to_bytes true 8 key_b)
    /\ load rec_b 8 8 = Some (to_bytes true 8 rbuf_b)
    /\ MemoryRegion.mr_rwkey mr_a = key_b
    /\ MemoryRegion.remote_recv_buf mr_a = rbuf_b
    /\ MemoryRegion.mr_rwkey mr_b = key_a
    /\ MemoryRegion.remote_recv_buf mr_b = rbuf_a
    /\ MemoryRegion.ntohll big_endian_a (MemoryRegion.htonll big_endian_a key_a)
       = key_a
    /\ MemoryRegion.ntohll big_endian_b (MemoryRegion.htonll big_endian_b rbuf_b)
       = rbuf_b.
Proof.
  intros La Lb Wa Ra Wb Rb Ka Kna KWa KWna Kb Knb KWb KWnb Rka Rra Rkb Rrb.
  exists (to_bytes true 8 key_a ++ to_bytes true 8 rbuf_a),
         (to_bytes true 8 key_b ++ to_bytes true 8 rbuf_b).
  eexists. eexists.
  split; [by apply (MemoryRegion_exchange big_endian_a)|].
  split; [by apply (MemoryRegion_exchange big_endian_b)|].
  assert (Hload : forall x y,
            load (to_bytes true 8 x ++ to_bytes true 8 y) 0 8
            = Some (to_bytes true 8 x)
            /\ load (to_bytes true 8 x ++ to_bytes true 8 y) 8 8
               = Some (to_bytes true 8 y)).
  { intros x y. unfold load.
    rewrite !decide_True by (rewrite length_app, !to_bytes_length; lia).
    split; reflexivity. }
  rewrite !length_app, !to_bytes_length.
  destruct (Hload key_a rbuf_a) as [-> ->].
  destruct (Hload key_b rbuf_b) as [-> ->].
  cbn [MemoryRegion.mr_rwkey MemoryRegion.remote_recv_buf].
  repeat split; try done; by apply ntohll_htonll.
Qed.

Lemma MemoryRegion_descriptor_exchange_witness :
  let lf := MemoryRegion.mk_lf (fun buf _ => (0, buf)) (fun mr => mr + 7) in
  let live := MemoryRegion.mk_conn false (fun _ => true) in
  exists rec_a rec_b mr_a mr_b,
    MemoryRegion.MemoryRegion false (2 ^ 64 - 1) 0 (Some live)
      lf (Some rec_b) 2 4096 8192 4096 [] = ([rec_a], Returns mr_a)
    /\ MemoryRegion.MemoryRegion true (2 ^ 64 - 1) 0 (Some live)
         lf (Some rec_a) 1 16384 32768 4096 [] = ([rec_b], Returns mr_b)
    /\ length rec_a = 16%nat
    /\ MemoryRegion.mr_rwkey mr_a = 32775
    /\ MemoryRegion.remote_recv_buf mr_a = 32768
    /\ MemoryRegion.mr_rwkey mr_b = 8199
    /\ MemoryRegion.remote_recv_buf mr_b = 8192.
Proof.
  intros lf live.
  assert (R : forall x, (x ?= 2 ^ 64) = Lt -> (0 ?= x) <> Gt -> 0 <= x < 2 ^ 64)
    by (intros x H1 H2; split; assumption).
  destruct (MemoryRegion_descriptor_exchange false true (2 ^ 64 - 1) 0 0
              live live lf lf 1 2
              4096 8192 4096 4096 8192 8199 4103
              16384 32768 4096 16384 32768 32775 16391
              eq_refl eq_refl eq_refl eq_refl eq_refl eq_refl
              eq_refl ltac:(discriminate) eq_refl ltac:(discriminate)
              eq_refl ltac:(discriminate) eq_refl ltac:(discriminate)
              (R 8199 eq_refl ltac:(discriminate))
              (R 8192 eq_refl ltac:(discriminate))
              (R 32775 eq_refl ltac:(discriminate))
              (R 32768 eq_refl ltac:(discriminate)))
    as (rec_a & rec_b & mr_a & mr_b & Ha & Hb & La & _ & _ & _ & _ & _
        & K1 & K2 & K3 & K4 & _).
  exists rec_a, rec_b, mr_a, mr_b. repeat split; assumption.
Defined.

(** The constructor never writes the member [size]: whatever size it is
    given, a constructed region has the value the member started with. *)
Lemma MemoryRegion_size_not_stored (big_endian : bool) (NOTAVAIL declared : Z)
    (shared : option MemoryRegion.RDMAConnection) (lf : MemoryRegion.libfabric)
    (incoming : option (list Z)) (rid : node_id_t) (sbuf rbuf sz : Z)
    (sent st : list (list Z)) (mr : MemoryRegion.t) :
  MemoryRegion.MemoryRegion big_endian NOTAVAIL declared shared lf incoming
    rid sbuf rbuf sz sent = (st, Returns mr) ->
  MemoryRegion.size mr = declared.
Proof.
  unfold MemoryRegion.MemoryRegion, MemoryRegion.crash, throw.
  destruct shared as [c|]; [|done].
  destruct (MemoryRegion.is_broken c); [done|].
  destruct (MemoryRegion.fi_mr_reg lf sbuf sz) as [rc_w wmr].
  destruct (negb (rc_w =? 0)); [done|].
  destruct (MemoryRegion.fi_mr_reg lf rbuf sz) as [rc_r rmr].
  destruct (negb (rc_r =? 0)); [done|].
  destruct (_ =? NOTAVAIL); [done|].
  destruct (_ =? NOTAVAIL); [done|].
  intros H. apply bind_Returns_inv in H.
  destruct H as ([remote_data|] & s1 & _ & H); [|done].
  unfold mret, M_ret in H. by injection H as _ <-.
Qed.

(** C3, on the code: a region whose [size] member is 4096, on a live
    connection.  With assertions compiled in, [write_remote(4080, 16)] is
    handed to the connection and [write_remote(4081, 16)] stops at the
    assertion; but [write_remote(2^64 - 1, 1)], whose [offset + size] is
    [2^64], passes the assertion, because the sum wraps to 0, and is handed
    to the connection.  Under [NDEBUG] [write_remote(4081, 16)] is handed to
    the connection as well.  And the constructor leaves [size] as the
    member was declared, whatever size it was called with. *)
Theorem write_remote_bounds_check (c : MemoryRegion.RDMAConnection)
    (rid : node_id_t) (sbuf rbuf wmr rmr lrkey lwkey rwkey rrbuf : Z) :
  let mr := MemoryRegion.mk rid sbuf rbuf 4096 wmr rmr lrkey lwkey rwkey rrbuf in
  let req offset size :=
    MemoryRegion.mk_write (wrap64 (sbuf + offset)) (wrap64 (rrbuf + offset))
      size false rwkey lrkey in
  MemoryRegion.write_remote false (Some c) mr 4080 16 false
  = Returns (req 4080 16, MemoryRegion.post_write c (req 4080 16))
  /\ MemoryRegion.write_remote false (Some c) mr 4081 16 false = Aborts
  /\ MemoryRegion.write_remote false (Some c) mr (2 ^ 64 - 1) 1 false
     = Returns (req (2 ^ 64 - 1) 1,
                MemoryRegion.post_write c (req (2 ^ 64 - 1) 1))
  /\ MemoryRegion.write_remote true (Some c) mr 4081 16 false
     = Returns (req 4081 16, MemoryRegion.post_write c (req 4081 16))
  /\ (forall big_endian NOTAVAIL declared shared lf incoming sz sent st r,
        MemoryRegion.MemoryRegion big_endian NOTAVAIL declared shared lf
          incoming rid sbuf rbuf sz sent = (st, Returns r) ->
        MemoryRegion.size r = declared).
Proof.
  intros mr req. repeat split; try reflexivity.
  intros. by eapply MemoryRegion_size_not_stored.
Qed.

(** ** [print_partial_sums] *)

Section missed_counters_facts.
Import missed_counters.

Lemma lookup_index_in {A} (l : list A) j :
  0 <= j < Z.of_nat (length l) -> is_Some (lookup_index l j).
Proof.
  intros [H0 H1]. unfold lookup_index.
  rewrite (proj2 (Z.leb_le 0 j) H0), (proj2 (Z.ltb_lt _ _) H1). simpl.
  apply lookup_lt_is_Some. lia.
Qed.

Lemma lookup_index_out {A} (l : list A) j :
  Z.of_nat (length l) <= j -> lookup_index l j = None.
Proof.
  intros H. unfold lookup_index.
  rewrite (proj2 (Z.ltb_ge _ _) H). by rewrite andb_false_r.
Qed.

Variable rm : list (list Z).
Variable i : Z.
Variable row : list Z.
Hypothesis Hrow : lookup_index rm i = Some row.
Hypothesis Hmax : Z.of_nat (length row) < 2 ^ 64.

Lemma size_of_row : size_of i rm = (rm, inl (Z.of_nat (length row))).
Proof using Hrow. unfold size_of. by rewrite Hrow. Qed.

Lemma read_row j x : lookup_index row j = Some x -> read i j rm = (rm, inl x).
Proof using Hrow. intros H. unfold read. by rewrite Hrow, H. Qed.

Lemma wrap64_index j : 0 <= j <= Z.of_nat (length row) -> wrap64 j = j.
Proof using Hmax. intros H. apply wrap64_small. lia. Qed.

(** The first loop reads inside the row and ends with a logic size that is
    at most the row's size (or 1 for an empty row). *)
Lemma logic_size_loop_bound fuel : forall j,
  1 <= j ->
  exists ls, logic_size_loop fuel i j j rm = (rm, inl ls)
             /\ j <= ls <= Z.max j (Z.of_nat (length row)).
Proof using Hrow Hmax.
  induction fuel as [|fuel IH]; intros j Hj.
  - exists j. split; [done|lia].
  - cbn [logic_size_loop]. unfold mbind at 1, V_bind at 1.
    rewrite size_of_row.
    destruct (j <? Z.of_nat (length row)) eqn:Hlt.
    + apply Z.ltb_lt in Hlt.
      destruct (lookup_index_in row j) as [a Ha]; [lia|].
      destruct (lookup_index_in row (j - 1)) as [b Hb]; [lia|].
      unfold mbind at 1, V_bind at 1. rewrite (read_row _ _ Ha).
      unfold mbind at 1, V_bind at 1.
      rewrite (wrap64_index (j - 1)) by lia. rewrite (read_row _ _ Hb).
      destruct (b <? a).
      * rewrite (wrap64_index (j + 1)) by lia.
        destruct (IH (j + 1)) as (ls & Hls & Hb1); [lia|].
        exists ls. split; [done|lia].
      * exists j. split; [done|lia].
    + exists j. split; [done|lia].
Qed.

(** With every scanned entry at most [num_msgs / 2] the second loop never
    assigns [start_index]. *)
Lemma start_index_loop_stays num_msgs ls fuel : forall j,
  0 <= j ->
  ls <= Z.of_nat (length row) ->
  (forall k x, 0 <= k < ls -> lookup_index row k = Some x -> x <= num_msgs / 2) ->
  start_index_loop fuel num_msgs i j ls 0 rm = (rm, inl 0).
Proof using Hrow Hmax.
  induction fuel as [|fuel IH]; intros j Hj Hls Hlow; [done|].
  cbn [start_index_loop].
  destruct (j <? ls) eqn:Hlt; [|done].
  apply Z.ltb_lt in Hlt.
  destruct (lookup_index_in row j) as [a Ha]; [lia|].
  unfold mbind, V_bind. rewrite (read_row _ _ Ha).
  rewrite (proj2 (Z.ltb_ge _ _) (Hlow j a ltac:(lia) Ha)).
  rewrite (wrap64_index (j + 1)) by lia.
  apply IH; [lia|done|done].
Qed.

Lemma write_before_first x :
  write i (wrap64 (0 - 1)) x rm
  = (rm, inr (element_out_of_bounds i (2 ^ 64 - 1))).
Proof using Hrow Hmax.
  unfold write. rewrite Hrow.
  change (wrap64 (0 - 1)) with (2 ^ 64 - 1).
  rewrite lookup_index_out; [done|lia].
Qed.

(** The block on row [i], when the start-index loop finds no entry above
    [num_msgs / 2]. *)
Lemma count_row_start_index_zero num_msgs counts ls :
  row ≠ [] ->
  logic_size_loop (length row) i 1 1 rm = (rm, inl ls) ->
  (forall k x, 0 <= k < ls -> lookup_index row k = Some x -> x <= num_msgs / 2) ->
  count_row num_msgs i counts rm
  = (rm, inr (element_out_of_bounds i (2 ^ 64 - 1))).
Proof using Hrow Hmax.
  intros Hne Hls Hlow.
  destruct (logic_size_loop_bound (length row) 1) as (ls' & Hls' & Hb); [lia|].
  rewrite Hls in Hls'. injection Hls' as <-.
  assert (0 < length row)%nat by (destruct row; [done|simpl; lia]).
  unfold count_row. unfold mbind at 1, V_bind at 1. rewrite size_of_row.
  rewrite Nat2Z.id. unfold mbind at 1, V_bind at 1. rewrite Hls.
  unfold mbind at 1, V_bind at 1.
  rewrite start_index_loop_stays by (try done; lia).
  unfold mbind at 1, V_bind at 1. by rewrite write_before_first.
Qed.

End missed_counters_facts.

(** C9: on a reception vector that is not empty and whose scanned entries
    (those below its logic size) are all at most [num_msgs / 2],
    [start_index] is still 0 when the block rewrites
    [received_msgs[i][start_index - 1]]; the subscript is computed as
    [2^64 - 1], outside the vector, and nothing tests [start_index > 0]
    before the write.  This holds for the block on any row [i], and so for
    [print_partial_sums] on its own row [my_rank]. *)
Theorem print_partial_sums_writes_before_row
    (num_nodes num_msgs my_rank : Z) (received_msgs : list (list Z))
    (row : list Z) (logic_size : Z) :
  missed_counters.lookup_index received_msgs my_rank = Some row ->
  row ≠ [] ->
  Z.of_nat (length row) < 2 ^ 64 ->
  missed_counters.logic_size_loop (length row) my_rank 1 1 received_msgs
  = (received_msgs, inl logic_size) ->
  (forall k x, 0 <= k < logic_size ->
     missed_counters.lookup_index row k = Some x -> x <= num_msgs / 2) ->
  wrap64 (0 - 1) = 2 ^ 64 - 1
  /\ (forall counts,
        missed_counters.count_row num_msgs my_rank counts received_msgs
        = (received_msgs,
           inr (missed_counters.element_out_of_bounds my_rank (2 ^ 64 - 1))))
  /\ missed_counters.print_partial_sums num_nodes num_msgs my_rank
       received_msgs
     = (received_msgs,
        inr (missed_counters.element_out_of_bounds my_rank (2 ^ 64 - 1))).
Proof.
  intros Hrow Hne Hmax Hls Hlow.
  assert (Hblock : forall counts,
            missed_counters.count_row num_msgs my_rank counts received_msgs
            = (received_msgs,
               inr (missed_counters.element_out_of_bounds my_rank
                      (2 ^ 64 - 1))))
    by (intros; by eapply count_row_start_index_zero).
  split; [reflexivity|]. split; [exact Hblock|].
  unfold missed_counters.print_partial_sums, mbind, missed_counters.V_bind.
  by rewrite Hblock.
Qed.

Lemma print_partial_sums_writes_before_row_witness :
  missed_counters.print_partial_sums 1 4 0 [[1; 2; 0; 0]]
  = ([[1; 2; 0; 0]],
     inr (missed_counters.element_out_of_bounds 0 (2 ^ 64 - 1))).
Proof.
  apply (print_partial_sums_writes_before_row 1 4 0 [[1; 2; 0; 0]]
           [1; 2; 0; 0] 2).
  - reflexivity.
  - discriminate.
  - reflexivity.
  - reflexivity.
  - intros k x Hk.
    assert (E : k = 0 \/ k = 1) by lia.
    destruct E as [-> | ->]; vm_compute; intros [= <-]; discriminate.
Defined.

(** The same on a remote row: the local row passes, row 1 does not. *)
Example print_partial_sums_remote_row :
  missed_counters.print_partial_sums 2 4 0 [[1; 3; 4; 0]; [1; 2; 0; 0]]
  = ([[2; 3; 4; 0]; [1; 2; 0; 0]],
     inr (missed_counters.element_out_of_bounds 1 (2 ^ 64 - 1))).
Proof. vm_compute. reflexivity. Qed.

(** A run in which every start index is positive. *)
Example print_partial_sums_second_half :
  missed_counters.print_partial_sums 2 8 0
    [[1; 3; 4; 6; 8; 0; 0; 0]; [2; 5; 8; 0; 0; 0; 0; 0]]
  = ([[1; 3; 4; 6; 8; 0; 0; 0]; [4; 5; 8; 0; 0; 0; 0; 0]],
     inl [2; 2; 2; 1]).
Proof. vm_compute. reflexivity. Qed.


(** ** More on the RPC header *)

Lemma store_app (pre old new post : list Z) :
  length old = length new ->
  store (pre ++ old ++ post) (length pre) new = Some (pre ++ new ++ post).
Proof.
  intros Hlen. unfold store.
  rewrite decide_True by (rewrite !length_app; lia). f_equal.
  rewrite take_app_length. f_equal. f_equal.
  rewrite drop_app_ge by lia.
  replace (length pre + length new - length pre)%nat with (length old) by lia.
  by rewrite drop_app_length.
Qed.

Section Header_facts.
Import remote_invocation_utilities.
Variable big_endian : bool.
Variable sizeof_size_t : nat.

(** The bytes [populate_header] writes. *)
Lemma populate_header_splice (reply_buf : list Z) (payload_size op from : Z) :
  (header_space sizeof_size_t <= length reply_buf)%nat ->
  populate_header big_endian sizeof_size_t reply_buf payload_size op from
  = Some (to_bytes big_endian sizeof_size_t payload_size
          ++ to_bytes big_endian 8 op ++ to_bytes big_endian 4 from
          ++ drop (header_space sizeof_size_t) reply_buf).
Proof.
  unfold header_space, sizeof_Opcode, sizeof_node_id_t. intros Hlen.
  set (a := to_bytes big_endian sizeof_size_t payload_size).
  set (b := to_bytes big_endian 8 op).
  set (c := to_bytes big_endian 4 from).
  assert (La : length a = sizeof_size_t) by apply to_bytes_length.
  assert (Lb : length b = 8%nat) by apply to_bytes_length.
  assert (Lc : length c = 4%nat) by apply to_bytes_length.
  set (x := take sizeof_size_t reply_buf).
  set (y := take 8 (drop sizeof_size_t reply_buf)).
  set (z := take 4 (drop (sizeof_size_t + 8) reply_buf)).
  set (rest := drop (sizeof_size_t + 8 + 4) reply_buf).
  assert (Hbuf : reply_buf = x ++ y ++ z ++ rest).
  { subst x y z rest.
    rewrite <- (take_drop sizeof_size_t reply_buf) at 1. f_equal.
    rewrite <- (take_drop 8 (drop sizeof_size_t reply_buf)) at 1. f_equal.
    rewrite drop_drop.
    rewrite <- (take_drop 4 (drop (sizeof_size_t + 8) reply_buf)) at 1.
    by rewrite drop_drop. }
  assert (Lx : length x = sizeof_size_t) by (subst x; rewrite length_take; lia).
  assert (Ly : length y = 8%nat)
    by (subst y; rewrite length_take, length_drop; lia).
  assert (Lz : length z = 4%nat)
    by (subst z; rewrite length_take, length_drop; lia).
  unfold populate_header, sizeof_Opcode, sizeof_node_id_t.
  fold a b c. change (drop (sizeof_size_t + 8 + 4) reply_buf) with rest.
  clearbody x y z rest. subst reply_buf.
  pose proof (store_app [] x a (y ++ z ++ rest)) as S1.
  cbn [app length] in S1. rewrite S1 by lia.
  cbn [mbind option_bind].
  rewrite <- La at 1.
  rewrite (store_app a y b (z ++ rest)) by lia.
  cbn [mbind option_bind].
  replace (sizeof_size_t + 8)%nat with (length (a ++ b))
    by (rewrite length_app; lia).
  replace (a ++ b ++ z ++ rest) with ((a ++ b) ++ z ++ rest)
    by (by rewrite <- app_assoc).
  rewrite (store_app (a ++ b) z c rest) by lia.
  by rewrite <- app_assoc.
Qed.

Lemma populate_header_short (reply_buf : list Z) (payload_size op from : Z) :
  (length reply_buf < header_space sizeof_size_t)%nat ->
  populate_header big_endian sizeof_size_t reply_buf payload_size op from = None.
Proof.
  unfold header_space, sizeof_Opcode, sizeof_node_id_t. intros Hlen.
  unfold populate_header, sizeof_Opcode, sizeof_node_id_t.
  destruct (store reply_buf 0 _) as [b1|] eqn:E1; [|done].
  pose proof (store_length _ _ _ _ E1) as L1. cbn [mbind option_bind].
  destruct (store b1 sizeof_size_t _) as [b2|] eqn:E2; [|done].
  pose proof (store_length _ _ _ _ E2) as L2. cbn [mbind option_bind].
  unfold store. rewrite to_bytes_length. rewrite decide_False; [done|lia].
Qed.

(** X1: [populate_header] is defined exactly on buffers of at least
    [header_space] bytes; it writes the three fields into the first
    [header_space] bytes, in the order size, opcode, sender, and leaves the
    length of the buffer and every byte after the header as they were. *)
Theorem populate_header_touches_header_only
    (reply_buf : list Z) (payload_size op from : Z) :
  match populate_header big_endian sizeof_size_t reply_buf payload_size op from
  with
  | Some buf =>
      (header_space sizeof_size_t <= length reply_buf)%nat
      /\ length buf = length reply_buf
      /\ drop (header_space sizeof_size_t) buf
         = drop (header_space sizeof_size_t) reply_buf
      /\ take (header_space sizeof_size_t) buf
         = to_bytes big_endian sizeof_size_t payload_size
           ++ to_bytes big_endian 8 op ++ to_bytes big_endian 4 from
  | None => (length reply_buf < header_space sizeof_size_t)%nat
  end.
Proof.
  destruct (decide (header_space sizeof_size_t <= length reply_buf)%nat)
    as [Hlen|Hlen].
  - rewrite populate_header_splice by done.
    set (a := to_bytes big_endian sizeof_size_t payload_size).
    set (b := to_bytes big_endian 8 op).
    set (c := to_bytes big_endian 4 from).
    assert (L : length (a ++ b ++ c) = header_space sizeof_size_t).
    { subst a b c. rewrite !length_app, !to_bytes_length.
      unfold header_space, sizeof_Opcode, sizeof_node_id_t. lia. }
    replace (a ++ b ++ c ++ drop (header_space sizeof_size_t) reply_buf)
      with ((a ++ b ++ c) ++ drop (header_space sizeof_size_t) reply_buf)
      by (by rewrite <- !app_assoc).
    split; [done|]. split; [|split].
    + rewrite length_app, L, length_drop. lia.
    + by rewrite drop_app_length'.
    + by rewrite take_app_length'.
  - rewrite populate_header_short by lia. lia.
Qed.

Lemma retrieve_header_splice (a b c rest : list Z) :
  length a = sizeof_size_t -> length b = 8%nat -> length c = 4%nat ->
  retrieve_header big_endian sizeof_size_t (a ++ b ++ c ++ rest)
  = Some (of_bytes big_endian a, of_bytes big_endian b, of_bytes big_endian c).
Proof.
  intros La Lb Lc.
  unfold retrieve_header, sizeof_Opcode, sizeof_node_id_t, load.
  rewrite !length_app, La, Lb, Lc.
  rewrite !decide_True by lia. cbn [mbind option_bind].
  rewrite drop_0, (take_app_length' a) by done.
  rewrite (drop_app_length' a) by done.
  rewrite (take_app_length' b) by done.
  rewrite app_assoc, drop_app_length' by (rewrite length_app; lia).
  by rewrite (take_app_length' c).
Qed.

(** X2: [retrieve_header] is undefined on a buffer shorter than
    [header_space].  On a longer buffer of bytes it reads three values of
    the field types from the first [header_space] bytes only, and writing
    them back with [populate_header] gives the buffer it was read from. *)
Theorem retrieve_header_then_populate (reply_buf : list Z) :
  ((length reply_buf < header_space sizeof_size_t)%nat ->
   retrieve_header big_endian sizeof_size_t reply_buf = None)
  /\ ((header_space sizeof_size_t <= length reply_buf)%nat ->
      Forall (fun b => 0 <= b < 256) reply_buf ->
      exists payload_size op from,
        retrieve_header big_endian sizeof_size_t reply_buf
        = Some (payload_size, op, from)
        /\ 0 <= payload_size < 256 ^ Z.of_nat sizeof_size_t
        /\ 0 <= op < 2 ^ 64 /\ 0 <= from < 2 ^ 32
        /\ populate_header big_endian sizeof_size_t reply_buf
             payload_size op from = Some reply_buf
        /\ forall other,
             retrieve_header big_endian sizeof_size_t
               (take (header_space sizeof_size_t) reply_buf ++ other)
             = Some (payload_size, op, from)).
Proof.
  split.
  - unfold header_space, sizeof_Opcode, sizeof_node_id_t. intros Hlen.
    unfold retrieve_header, sizeof_Opcode, sizeof_node_id_t, load.
    destruct (decide (0 + sizeof_size_t <= _)%nat); [|done].
    cbn [mbind option_bind].
    destruct (decide (sizeof_size_t + 8 <= _)%nat); [|done].
    cbn [mbind option_bind]. rewrite decide_False; [done|lia].
  - intros Hlen Hbytes.
    pose proof Hlen as Hlen'.
    unfold header_space, sizeof_Opcode, sizeof_node_id_t in Hlen'.
    set (a := take sizeof_size_t reply_buf).
    set (b := take 8 (drop sizeof_size_t reply_buf)).
    set (c := take 4 (drop (sizeof_size_t + 8) reply_buf)).
    set (rest := drop (header_space sizeof_size_t) reply_buf).
    assert (Hbuf : reply_buf = a ++ b ++ c ++ rest).
    { subst a b c rest. unfold header_space, sizeof_Opcode, sizeof_node_id_t.
      rewrite <- (take_drop sizeof_size_t reply_buf) at 1. f_equal.
      rewrite <- (take_drop 8 (drop sizeof_size_t reply_buf)) at 1. f_equal.
      rewrite drop_drop.
      rewrite <- (take_drop 4 (drop (sizeof_size_t + 8) reply_buf)) at 1.
      by rewrite drop_drop. }
    assert (La : length a = sizeof_size_t)
      by (subst a; rewrite length_take; lia).
    assert (Lb : length b = 8%nat)
      by (subst b; rewrite length_take, length_drop; lia).
    assert (Lc : length c = 4%nat)
      by (subst c; rewrite length_take, length_drop; lia).
    assert (Ba : Forall (fun b => 0 <= b < 256) a)
      by (subst a; by apply Forall_take).
    assert (Bb : Forall (fun b => 0 <= b < 256) b)
      by (subst b; by apply Forall_take, Forall_drop).
    assert (Bc : Forall (fun b => 0 <= b < 256) c)
      by (subst c; by apply Forall_take, Forall_drop).
    exists (of_bytes big_endian a), (of_bytes big_endian b),
           (of_bytes big_endian c).
    split; [|split; [|split; [|split; [|split]]]].
    + rewrite Hbuf at 1. by apply retrieve_header_splice.
    + pose proof (of_bytes_range big_endian a Ba) as R. by rewrite La in R.
    + pose proof (of_bytes_range big_endian b Bb) as R. by rewrite Lb in R.
    + pose proof (of_bytes_range big_endian c Bc) as R. by rewrite Lc in R.
    + rewrite populate_header_splice by done. fold rest.
      rewrite <- La at 1. rewrite (to_of_bytes big_endian a Ba).
      rewrite <- Lb at 1. rewrite (to_of_bytes big_endian b Bb).
      rewrite <- Lc at 1. rewrite (to_of_bytes big_endian c Bc).
      by rewrite <- Hbuf.
    + intros other.
      assert (Htake : take (header_space sizeof_size_t) reply_buf = a ++ b ++ c).
      { rewrite Hbuf at 1.
        replace (a ++ b ++ c ++ rest) with ((a ++ b ++ c) ++ rest)
          by (by rewrite <- !app_assoc).
        rewrite take_app_length'; [done|].
        rewrite !length_app, La, Lb, Lc.
        unfold header_space, sizeof_Opcode, sizeof_node_id_t. lia. }
      rewrite Htake, <- !app_assoc. by apply retrieve_header_splice.
Qed.

(** X3: with [i >= 0] and no wrap-around in [i + header_space],
    [extra_alloc(i)] returns a pointer [header_space] bytes into a block of
    [header_space + i] zero bytes, so the header precedes the returned
    body: [populate_header] on the block is defined and leaves the [i] body
    bytes zero.  When [calloc] fails there is no valid pointer. *)
Theorem extra_alloc_reserves_header (i payload_size op from : Z) :
  0 <= i ->
  i + Z.of_nat (header_space sizeof_size_t) < 2 ^ (8 * Z.of_nat sizeof_size_t) ->
  let hs := header_space sizeof_size_t in
  let block := repeat 0 (hs + Z.to_nat i) in
  extra_alloc sizeof_size_t true i = Some (block, hs)
  /\ extra_alloc sizeof_size_t false i = None
  /\ exists buf,
       populate_header big_endian sizeof_size_t block payload_size op from
       = Some buf
       /\ length buf = (hs + Z.to_nat i)%nat
       /\ drop hs buf = repeat 0 (Z.to_nat i).
Proof.
  intros Hi Hwrap hs block. split; [|split].
  - unfold extra_alloc, calloc. fold hs. cbn [mbind option_bind].
    unfold wrap. rewrite Z.mod_small by lia.
    do 3 f_equal. lia.
  - reflexivity.
  - assert (Hdrop : drop hs block = repeat 0 (Z.to_nat i)).
    { subst block. rewrite repeat_app.
      by rewrite drop_app_length' by (by rewrite repeat_length). }
    eexists. split.
    + apply populate_header_splice. subst block. rewrite repeat_length. lia.
    + fold hs. rewrite Hdrop. split.
      * rewrite !length_app, !to_bytes_length, repeat_length.
        subst hs. unfold header_space, sizeof_Opcode, sizeof_node_id_t. lia.
      * rewrite !app_assoc. rewrite drop_app_length'; [done|].
        rewrite !length_app, !to_bytes_length.
        subst hs. unfold header_space, sizeof_Opcode, sizeof_node_id_t. lia.
Qed.

End Header_facts.

Lemma extra_alloc_reserves_header_witness :
  extra_alloc 8 true 4 = Some (repeat 0 24, 20%nat)
  /\ extra_alloc 8 false 4 = None.
Proof.
  assert (H1 : 0 <= 4) by (vm_compute; discriminate).
  assert (H2 : 4 + Z.of_nat (remote_invocation_utilities.header_space 8)
               < 2 ^ (8 * Z.of_nat 8)) by (vm_compute; reflexivity).
  pose proof (extra_alloc_reserves_header false 8 4 4 9 7 H1 H2) as H.
  split; [exact (proj1 H)|exact (proj1 (proj2 H))].
Defined.

(** ** More on [PendingResults] *)

Section PendingResults_more.
Context {T : Type}.
Implicit Types (s : PendingResults.t T) (nid p q e : node_id_t).

Import PendingResults.

Lemma at_populated_promises_taken {A} nid (op : M (promise.t T) A) s q :
  future_taken (fst (at_populated_promises nid op s)) q =
  if decide (q = nid)
  then promise.retrieved
         (fst (op (default promise.fresh (populated_promises s !! nid))))
  else future_taken s q.
Proof.
  unfold at_populated_promises, future_taken.
  destruct (op _) as [pr r]; simpl.
  case_decide as Hq.
  - subst q. by rewrite lookup_insert_eq.
  - by rewrite lookup_insert_ne.
Qed.

Lemma emplace_future_taken to_add e s q :
  future_taken (fst (emplace_future to_add e s)) q
  = if decide (q = e) then true else future_taken s q.
Proof.
  unfold emplace_future, mbind, M_bind.
  pose proof (at_populated_promises_taken e (promise.get_future e) s q) as F.
  destruct (at_populated_promises e (promise.get_future e) s) as [s1 r].
  simpl in F.
  assert (G : future_taken s1 q
              = if decide (q = e) then true else future_taken s q).
  { rewrite F. case_decide; [|done]. unfold promise.get_future.
    by destruct (promise.retrieved (default _ _)) eqn:E. }
  by destruct r.
Qed.

Lemma for_each_emplace_future_taken who : forall to_add s q,
  future_taken s q = true ->
  future_taken (fst (for_each emplace_future who to_add s)) q = true.
Proof.
  induction who as [|e who IH]; intros to_add s q Hq; [done|].
  cbn [for_each]. unfold mbind, M_bind.
  pose proof (emplace_future_taken to_add e s q) as F.
  destruct (emplace_future to_add e s) as [s1 r]. simpl in F.
  assert (G : future_taken s1 q = true)
    by (rewrite F; by case_decide).
  destruct r; simpl; try done. by apply IH.
Qed.

(** When the loop of [fulfill_map] ends normally, the listed peers were
    distinct, none had handed out its future before, all have now, and the
    map holds one future per listed peer that was not in it already. *)
Lemma for_each_emplace_future_result who : forall (to_add m : reply_map) s,
  snd (for_each emplace_future who to_add s) = Returns m ->
  NoDup who
  /\ (forall e, e ∈ who -> future_taken s e = false)
  /\ (forall e, e ∈ who ->
        future_taken (fst (for_each emplace_future who to_add s)) e = true)
  /\ (forall k, m !! k = match to_add !! k with
                         | Some f => Some f
                         | None => if bool_decide (k ∈ who)
                                   then Some (Some k) else None
                         end).
Proof.
  induction who as [|e who IH]; intros to_add m s Hret.
  - simpl in Hret. injection Hret as <-.
    split; [constructor|]. split; [by intros e ?%elem_of_nil|].
    split; [by intros e ?%elem_of_nil|].
    intros k. destruct (to_add !! k); [done|].
    rewrite bool_decide_eq_false_2; [done|]. apply not_elem_of_nil.
  - cbn [for_each] in *. unfold mbind at 1, M_bind at 1 in Hret.
    unfold mbind at 1, M_bind at 1.
    pose proof (emplace_future_taken to_add e s) as F.
    assert (Hstep : future_taken s e = false /\
              exists s1, emplace_future to_add e s
                         = (s1, Returns (emplace e (Some e) to_add))).
    { unfold emplace_future, mbind, M_bind, at_populated_promises,
        promise.get_future, future_taken in *.
      destruct (promise.retrieved _) eqn:E; simpl in *; [done|].
      split; [done|]. by eexists. }
    destruct Hstep as (Hfresh & s1 & Hs1). rewrite Hs1 in *. simpl in F.
    destruct (IH _ _ _ Hret) as (Hnd & Hold & Hnew & Hm).
    assert (Hnotin : e ∉ who).
    { intros Hin. specialize (Hold e Hin). specialize (F e).
      rewrite decide_True in F by done. congruence. }
    split; [by constructor|]. split; [|split].
    + intros e' [->|Hin]%elem_of_cons; [done|].
      specialize (Hold e' Hin). specialize (F e').
      rewrite decide_False in F by (intros ->; done). congruence.
    + intros e' [->|Hin]%elem_of_cons; [|by apply Hnew].
      apply for_each_emplace_future_taken. rewrite F. by rewrite decide_True.
    + intros k. rewrite Hm. unfold emplace.
      destruct (to_add !! e) as [fe|] eqn:Ee.
      * destruct (to_add !! k) as [fk|] eqn:Ek; [done|].
        assert (k ≠ e) by congruence.
        destruct (decide (k ∈ who)) as [Hin|Hout].
        -- rewrite !bool_decide_eq_true_2;
             [done|by apply list_elem_of_further|done].
        -- rewrite !bool_decide_eq_false_2; [done| |done].
           intros [->|?]%elem_of_cons; done.
      * destruct (decide (k = e)) as [->|Hk].
        -- rewrite lookup_insert_eq, Ee.
           by rewrite bool_decide_eq_true_2 by apply list_elem_of_here.
        -- rewrite lookup_insert_ne by done.
           destruct (to_add !! k) as [fk|] eqn:Ek; [done|].
           destruct (decide (k ∈ who)) as [Hin|Hout].
           ++ rewrite !bool_decide_eq_true_2;
                [done|by apply list_elem_of_further|done].
           ++ rewrite !bool_decide_eq_false_2; [done| |done].
              intros [->|?]%elem_of_cons; done.
Qed.

(** Everything [fulfill_map] can do: it throws and publishes nothing, or it
    returns and publishes one future per listed peer. *)
Lemma fulfill_map_cases who s :
  let s' := fst (fulfill_map who s) in
  (forall e, future_taken s e = true -> future_taken s' e = true)
  /\ promise.retrieved (pending_map s') = promise.retrieved (pending_map s)
  /\ dest_nodes s ⊆ dest_nodes s'
  /\ ((published s' = published s
       /\ exists c, snd (fulfill_map who s) = Throws (future_error c))
      \/ (published s = None
          /\ snd (fulfill_map who s) = Returns tt
          /\ dest_nodes s' = dest_nodes s ∪ list_to_set who
          /\ NoDup who
          /\ (forall e, e ∈ who ->
                future_taken s e = false /\ future_taken s' e = true)
          /\ exists m : reply_map,
               published s' = Some (inl m)
               /\ forall k, m !! k = if bool_decide (k ∈ who)
                                     then Some (Some k) else None)).
Proof.
  cbv zeta. rewrite fulfill_map_unfold.
  pose proof (for_each_emplace_future_keeps who ∅ (set_map_fulfilled true s))
    as K.
  pose proof (for_each_emplace_future_taken who ∅ (set_map_fulfilled true s))
    as Tk.
  pose proof (for_each_emplace_future_outcome who ∅ (set_map_fulfilled true s))
    as O.
  pose proof (for_each_emplace_future_result who ∅) as R.
  specialize (fun m => R m (set_map_fulfilled true s)).
  destruct (for_each emplace_future who ∅ (set_map_fulfilled true s))
    as [s1 r1]. simpl in K, Tk, O, R.
  destruct K as (K1 & K2 & K3 & K4 & K5). simpl in K1, K2, K3, K4.
  assert (Tk' : forall e, future_taken s e = true -> future_taken s1 e = true)
    by (intros e He; by apply Tk).
  destruct r1 as [to_add|ex| | |]; try done.
  - destruct (R to_add eq_refl) as (Hnd & Hold & Hnew & Hm).
    unfold at_pending_map, promise.set_value. simpl.
    unfold published. rewrite K1.
    destruct (promise.result (pending_map s)) as [x|] eqn:Ep; simpl.
    + rewrite K3. split; [exact Tk'|]. split; [done|].
      split; [apply union_subseteq_l|]. left. split; [done|]. by eexists.
    + rewrite K3. split; [exact Tk'|]. split; [done|].
      split; [apply union_subseteq_l|]. right.
      split; [done|]. split; [done|]. split; [done|]. split; [done|].
      split.
      * intros e He. split; [exact (Hold e He)|exact (Hnew e He)].
      * exists to_add. split; [done|]. intros k. rewrite Hm.
        by rewrite lookup_empty.
  - simpl. unfold published. rewrite K1, K3. subst ex.
    split; [done|]. split; [done|]. split; [done|].
    left. split; [done|]. by eexists.
Qed.

(** What no call undoes. *)
Lemma run_keeps_progress ndebug (c : call T) s :
  let s' := fst (run ndebug c s) in
  (forall x, published s = Some x -> published s' = Some x)
  /\ (forall e, future_taken s e = true -> future_taken s' e = true)
  /\ (promise.retrieved (pending_map s) = true ->
      promise.retrieved (pending_map s') = true)
  /\ dest_nodes s ⊆ dest_nodes s'
  /\ (map_fulfilled s = true -> map_fulfilled s' = true).
Proof.
  cbv zeta. destruct c as [who|nid v|nid ex|nid|]; cbn [run].
  - destruct (fulfill_map_cases who s) as (F1 & F2 & F3 & F4).
    destruct (fulfill_map_frame who s) as (G1 & _).
    rewrite F2, G1. repeat split; try done.
    intros x Hx. destruct F4 as [[-> _]|(Hn & _)]; [done|congruence].
  - rewrite set_value_unfold.
    destruct (at_populated_promises_fields nid (promise.set_value v)
                (set_responded_nodes ({[nid]} ∪ responded_nodes s) s))
      as (F1 & F2 & F3 & _).
    unfold published. rewrite F1, F2, F3. simpl. repeat split; try done.
    intros e He. rewrite at_populated_promises_taken.
    case_decide as E; [subst e|done].
    unfold future_taken in He. simpl. unfold promise.set_value.
    by destruct (promise.result (default _ _)).
  - rewrite set_exception_unfold.
    destruct (at_populated_promises_fields nid (promise.set_exception ex)
                (set_responded_nodes ({[nid]} ∪ responded_nodes s) s))
      as (F1 & F2 & F3 & _).
    unfold published. rewrite F1, F2, F3. simpl. repeat split; try done.
    intros e He. rewrite at_populated_promises_taken.
    case_decide as E; [subst e|done].
    unfold future_taken in He. simpl. unfold promise.set_exception.
    by destruct (promise.result (default _ _)).
  - rewrite set_exception_for_removed_node_unfold.
    destruct (ndebug || map_fulfilled s); [|done].
    destruct (bool_decide _ && bool_decide _); [|done].
    rewrite set_exception_unfold.
    destruct (at_populated_promises_fields nid
                (promise.set_exception (node_removed_from_group_exception nid))
                (set_responded_nodes ({[nid]} ∪ responded_nodes s) s))
      as (F1 & F2 & F3 & _).
    unfold published. rewrite F1, F2, F3. simpl. repeat split; try done.
    intros e He. rewrite at_populated_promises_taken.
    case_decide as E; [subst e|done].
    unfold future_taken in He. simpl. unfold promise.set_exception.
    by destruct (promise.result (default _ _)).
  - assert (E : fst ((get_future ≫= fun _ : option unit => mret tt) s)
                = fst (get_future s)).
    { unfold mbind, M_bind. by destruct (get_future s) as [s' [| | | |]]. }
    rewrite E. unfold get_future, at_pending_map, promise.get_future, published.
    destruct (promise.retrieved (pending_map s)) eqn:Er; simpl;
      repeat split; done.
Qed.

Lemma run_published ndebug (c : call T) s :
  published (fst (run ndebug c s)) = published s
  \/ exists who, c = call_fulfill_map who.
Proof.
  destruct c as [who|nid v|nid ex|nid|]; cbn [run]; [right; by eexists|..];
    left.
  - destruct (set_value_fields nid v s) as (F1 & _).
    unfold published. by rewrite F1.
  - destruct (set_exception_fields nid ex s) as (F1 & _).
    unfold published. by rewrite F1.
  - rewrite set_exception_for_removed_node_unfold.
    destruct (ndebug || map_fulfilled s); [|done].
    destruct (bool_decide _ && bool_decide _); [|done].
    destruct (set_exception_fields nid
                (node_removed_from_group_exception nid) s) as (F1 & _).
    unfold published. by rewrite F1.
  - unfold mbind, M_bind, get_future, at_pending_map, promise.get_future,
      published.
    by destruct (promise.retrieved (pending_map s)).
Qed.

Lemma later_keeps_progress ndebug s s' :
  later ndebug s s' ->
  (forall x, published s = Some x -> published s' = Some x)
  /\ (promise.retrieved (pending_map s) = true ->
      promise.retrieved (pending_map s') = true)
  /\ dest_nodes s ⊆ dest_nodes s'.
Proof.
  induction 1 as [|s s' s'' _ (I1 & I2 & I3) Hstep]; [done|].
  destruct Hstep as [c s' _].
  destruct (run_keeps_progress ndebug c s') as (P1 & _ & P3 & P4 & _).
  repeat split; [by auto|by auto|]. etrans; done.
Qed.

Lemma run_responded_fulfilled ndebug (c : call T) s :
  (forall p, p ∈ responded_nodes s -> is_Some (slot s p)) ->
  forall p, p ∈ responded_nodes (fst (run ndebug c s)) ->
            is_Some (slot (fst (run ndebug c s)) p).
Proof.
  intros Hinv.
  assert (Hreply : forall nid (op : M (promise.t T) unit) p,
    (forall pr, is_Some (promise.result (fst (op pr)))) ->
    (forall pr x, promise.result pr = Some x ->
                  promise.result (fst (op pr)) = Some x) ->
    p ∈ responded_nodes
          (fst (at_populated_promises nid op
                  (set_responded_nodes ({[nid]} ∪ responded_nodes s) s))) ->
    is_Some (slot (fst (at_populated_promises nid op
                  (set_responded_nodes ({[nid]} ∪ responded_nodes s) s))) p)).
  { intros nid op p Hfull Hkeep.
    destruct (at_populated_promises_fields nid op
                (set_responded_nodes ({[nid]} ∪ responded_nodes s) s))
      as (_ & _ & _ & ->). simpl.
    rewrite at_populated_promises_slot.
    case_decide as E; [intros _; apply Hfull|].
    intros [?%elem_of_singleton|Hp]%elem_of_union; [done|].
    destruct (Hinv p Hp) as [x Hx]. exists x. exact Hx. }
  assert (Hval : forall v pr,
            is_Some (promise.result (fst (promise.set_value (T := T) v pr)))).
  { intros v pr. unfold promise.set_value.
    destruct (promise.result pr) eqn:E; simpl; [by rewrite E|done]. }
  assert (Hexn : forall ex pr,
            is_Some (promise.result (fst (promise.set_exception (T := T) ex pr)))).
  { intros ex pr. unfold promise.set_exception.
    destruct (promise.result pr) eqn:E; simpl; [by rewrite E|done]. }
  assert (Hvalk : forall v pr x, promise.result pr = Some x ->
            promise.result (fst (promise.set_value (T := T) v pr)) = Some x).
  { intros v pr x E. unfold promise.set_value. by rewrite E. }
  assert (Hexnk : forall ex pr x, promise.result pr = Some x ->
            promise.result (fst (promise.set_exception (T := T) ex pr)) = Some x).
  { intros ex pr x E. unfold promise.set_exception. by rewrite E. }
  destruct c as [who|nid v|nid ex|nid|]; cbn [run]; intros p.
  - destruct (fulfill_map_frame who s) as (_ & -> & Hs). rewrite Hs. auto.
  - rewrite set_value_unfold. apply Hreply; auto.
  - rewrite set_exception_unfold. apply Hreply; auto.
  - rewrite set_exception_for_removed_node_unfold.
    destruct (ndebug || map_fulfilled s); [|by auto].
    destruct (bool_decide _ && bool_decide _); [|by auto].
    rewrite set_exception_unfold. apply Hreply; auto.
  - assert (E : fst ((get_future ≫= fun _ : option unit => mret tt) s)
                = fst (get_future s)).
    { unfold mbind, M_bind. by destruct (get_future s) as [s' [| | | |]]. }
    rewrite E. destruct (get_future_frame s) as (_ & _ & -> & Hs).
    rewrite Hs. auto.
Qed.

(** X4: in every object the member functions can produce,
    [responded_nodes] is exactly the set of peers whose slot holds a value
    or an error. *)
Theorem responded_iff_slot_fulfilled ndebug s p :
  reachable ndebug s ->
  p ∈ responded_nodes s <-> is_Some (slot s p).
Proof.
  intros Hreach. split.
  - revert p. induction Hreach as [|s s' _ IH Hstep].
    + intros p Hp. unfold fresh in Hp. simpl in Hp.
      by apply not_elem_of_empty in Hp.
    + destruct Hstep as [c s _]. by apply run_responded_fulfilled.
  - destruct (reachable_consistent _ _ Hreach) as [C1 _]. apply C1.
Qed.

Lemma reachable_well_published ndebug s :
  reachable ndebug s -> well_published s.
Proof.
  induction 1 as [|s s' _ IH Hstep]; [done|].
  destruct Hstep as [c s _].
  destruct (run_keeps_progress ndebug c s) as (P1 & P2 & _ & P4 & P5).
  unfold well_published in *.
  destruct (published s) as [[m|ex]|] eqn:Ep; [|done|].
  - rewrite (P1 _ eq_refl). destruct IH as [Hmf Hm].
    split; [by apply P5|]. intros e f Hf.
    destruct (Hm e f Hf) as (-> & Hd & Ht).
    split; [done|]. split; [by apply P4|by apply P2].
  - destruct (run_published ndebug c s) as [Hsame|[who ->]].
    + by rewrite Hsame, Ep.
    + cbn [run].
      destruct (fulfill_map_cases who s) as (_ & _ & _ & [[-> _]|Hpub]).
      * by rewrite Ep.
      * destruct Hpub as (_ & _ & Hd & _ & Ht & m & -> & Hm).
        destruct (fulfill_map_frame who s) as (-> & _).
        split; [done|]. intros e f Hf. rewrite Hm in Hf.
        case_bool_decide as He; [|done]. injection Hf as <-.
        split; [done|]. split; [|by apply Ht].
        rewrite Hd. apply elem_of_union_r. by apply elem_of_list_to_set.
Qed.

(** X5: in every object the member functions can produce, [pending_map]
    never holds an exception, and a published reply map has
    [map_fulfilled] set, only destinations as peers, and for each peer the
    future of that peer's own promise, which the promise has handed out. *)
Theorem published_map_is_consistent ndebug s :
  reachable ndebug s ->
  (forall ex, published s ≠ Some (inr ex))
  /\ (forall m : reply_map, published s = Some (inl m) ->
        map_fulfilled s = true
        /\ dom m ⊆ dest_nodes s
        /\ forall e, e ∈ dom m ->
             m !! e = Some (Some e) /\ future_taken s e = true).
Proof.
  intros Hreach. pose proof (reachable_well_published _ _ Hreach) as W.
  unfold well_published in W. split.
  - intros ex Hex. by rewrite Hex in W.
  - intros m Hm. rewrite Hm in W. destruct W as [Hmf Hent].
    split; [done|]. split.
    + intros e [f Hf]%elem_of_dom. by destruct (Hent e f Hf) as (_ & ? & _).
    + intros e [f Hf]%elem_of_dom.
      destruct (Hent e f Hf) as (-> & _ & Ht). done.
Qed.

(** X6: the reply map is published at most once: once [pending_map] holds
    a map, every later call leaves that map in place, and every later
    [fulfill_map], whatever its list, throws a [future_error]. *)
Theorem published_map_is_final ndebug s s' x (who : list node_id_t) :
  published s = Some x ->
  later ndebug s s' ->
  published s' = Some x
  /\ (exists c, snd (fulfill_map who s') = Throws (future_error c))
  /\ published (fst (fulfill_map who s')) = Some x.
Proof.
  intros Hx Hl.
  destruct (later_keeps_progress _ _ _ Hl) as (P1 & _).
  specialize (P1 x Hx). split; [done|].
  destruct (fulfill_map_cases who s') as (_ & _ & _ & [[Hsame Hthrow]|Hpub]).
  - split; [done|]. by rewrite Hsame.
  - destruct Hpub as (Hnone & _). congruence.
Qed.

(** X7: [fulfill_map] returns normally exactly when its list names no
    peer twice, nothing is published yet, and none of the listed peers'
    promises has handed out its future; in every other case it throws. *)
Theorem fulfill_map_returns_iff (who : list node_id_t) s :
  snd (fulfill_map who s) = Returns tt
  <-> NoDup who /\ published s = None
      /\ forall e, e ∈ who -> future_taken s e = false.
Proof.
  split.
  - intros Hret.
    destruct (fulfill_map_cases who s) as (_ & _ & _ & [[_ [c Hc]]|Hpub]).
    + congruence.
    + destruct Hpub as (Hnone & _ & _ & Hnd & Ht & _).
      split; [done|]. split; [done|]. intros e He. by apply Ht.
  - intros (Hnd & Hnone & Hfut).
    destruct (for_each_emplace_future_ok who Hnd ∅ (set_map_fulfilled true s))
      as (m & Hm & _); [exact Hfut|intros; apply lookup_empty|].
    pose proof (for_each_emplace_future_keeps who ∅ (set_map_fulfilled true s))
      as K.
    rewrite fulfill_map_unfold.
    destruct (for_each emplace_future who ∅ (set_map_fulfilled true s))
      as [s1 r]. simpl in Hm, K. subst r.
    destruct K as (K1 & _). simpl in K1.
    unfold at_pending_map, promise.set_value. simpl.
    unfold published in Hnone. by rewrite K1, Hnone.
Qed.

(** A reply call on [nid] in one step. *)
Lemma reply_unfold nid (op : M (promise.t T) unit) s :
  at_populated_promises nid op
    (set_responded_nodes ({[nid]} ∪ responded_nodes s) s)
  = (mk (pending_map s)
        (<[nid := fst (op (default promise.fresh (populated_promises s !! nid)))]>
           (populated_promises s))
        (map_fulfilled s) (dest_nodes s) ({[nid]} ∪ responded_nodes s),
     snd (op (default promise.fresh (populated_promises s !! nid)))).
Proof.
  unfold at_populated_promises. simpl. by destruct (op _).
Qed.

Lemma reply_commute p q (a b : M (promise.t T) unit) s :
  p ≠ q ->
  let ra := fun s => at_populated_promises p a
                       (set_responded_nodes ({[p]} ∪ responded_nodes s) s) in
  let rb := fun s => at_populated_promises q b
                       (set_responded_nodes ({[q]} ∪ responded_nodes s) s) in
  fst (rb (fst (ra s))) = fst (ra (fst (rb s)))
  /\ snd (ra (fst (rb s))) = snd (ra s)
  /\ snd (rb (fst (ra s))) = snd (rb s).
Proof.
  intros Hpq ra rb. subst ra rb. cbv beta.
  rewrite !reply_unfold. simpl.
  rewrite !lookup_insert_ne by done.
  split; [|done]. f_equal.
  - by apply insert_insert_ne.
  - apply leibniz_equiv. rewrite !assoc by apply _.
    by rewrite (comm _ {[q]} {[p]}).
Qed.

(** X8: replies for two different peers commute: recording a value or an
    error for [p] and then one for [q] leaves the same object as the other
    order, and neither call's outcome depends on whether the other came
    first. *)
Theorem replies_for_distinct_peers_commute p q (v w : T) (ep eq : exception)
    (a b : M (t T) unit) s :
  p ≠ q ->
  a = set_value p v \/ a = set_exception p ep ->
  b = set_value q w \/ b = set_exception q eq ->
  fst (b (fst (a s))) = fst (a (fst (b s)))
  /\ snd (a (fst (b s))) = snd (a s)
  /\ snd (b (fst (a s))) = snd (b s).
Proof.
  intros Hpq [-> | ->] [-> | ->]; rewrite ?set_value_unfold, ?set_exception_unfold.
  - by apply (reply_commute p q (promise.set_value v) (promise.set_value w)).
  - by apply (reply_commute p q (promise.set_value v) (promise.set_exception eq)).
  - by apply (reply_commute p q (promise.set_exception ep) (promise.set_value w)).
  - by apply (reply_commute p q (promise.set_exception ep)
                (promise.set_exception eq)).
Qed.

(** A reply for a peer whose slot is taken and who is in the responded set
    throws and changes nothing. *)
Lemma reply_on_taken_slot s p x (v : T) (ex : exception) :
  slot s p = Some x ->
  p ∈ responded_nodes s ->
  set_value p v s = (s, Throws (future_error promise_already_satisfied))
  /\ set_exception p ex s
     = (s, Throws (future_error promise_already_satisfied)).
Proof.
  intros Hx Hp.
  destruct (slot_Some_lookup _ _ _ Hx) as (pr & Hpr & Hres).
  assert (Hr : {[p]} ∪ responded_nodes s = responded_nodes s).
  { apply leibniz_equiv, subseteq_union_1. by apply singleton_subseteq_l. }
  rewrite set_value_unfold, set_exception_unfold, !reply_unfold.
  rewrite Hpr. simpl.
  rewrite (promise_set_value_full _ _ _ Hres).
  rewrite (promise_set_exception_full _ _ _ Hres). simpl.
  rewrite insert_id by done. rewrite Hr. by destruct s.
Qed.

(** X9: a reply that arrives after the removal notice is refused: once
    [set_exception_for_removed_node(p)] has resolved the slot of a
    destination [p] that had not responded, [set_value(p, v)] and
    [set_exception(p, e)] throw [promise_already_satisfied] and leave the
    object, with NodeRemovedFromGroup([p]) in the slot, as it is. *)
Theorem late_reply_after_removal_throws ndebug s p (v : T) (ex : exception) :
  reachable ndebug s ->
  p ∈ dest_nodes s ->
  p ∉ responded_nodes s ->
  let s1 := fst (set_exception_for_removed_node ndebug p s) in
  slot s1 p = Some (inr (node_removed_from_group_exception p))
  /\ set_value p v s1 = (s1, Throws (future_error promise_already_satisfied))
  /\ set_exception p ex s1
     = (s1, Throws (future_error promise_already_satisfied)).
Proof.
  intros Hreach Hd Hr s1.
  destruct (removed_node_installs _ _ _ Hreach Hd Hr) as (Hempty & _ & Hcall).
  assert (Hslot : slot s1 p = Some (inr (node_removed_from_group_exception p))).
  { subst s1. rewrite Hcall, set_exception_slot, Hempty.
    by rewrite decide_True. }
  assert (Hin : p ∈ responded_nodes s1).
  { subst s1. rewrite Hcall, set_exception_responded.
    apply elem_of_union_l. by apply elem_of_singleton. }
  split; [done|]. by eapply reply_on_taken_slot.
Qed.

(** X10: [get_future] hands out the future end of [pending_map] once: the
    first call returns a future with shared state and leaves every other
    field, and what is published, as it was; after it, whatever calls come
    in between, [get_future] throws [future_already_retrieved] and changes
    nothing. *)
Theorem get_future_only_once ndebug s :
  promise.retrieved (pending_map s) = false ->
  let s1 := fst (get_future s) in
  snd (get_future s) = Returns (Some tt)
  /\ published s1 = published s
  /\ populated_promises s1 = populated_promises s
  /\ map_fulfilled s1 = map_fulfilled s
  /\ dest_nodes s1 = dest_nodes s
  /\ responded_nodes s1 = responded_nodes s
  /\ forall s2, later ndebug s1 s2 ->
       get_future s2 = (s2, Throws (future_error future_already_retrieved)).
Proof.
  intros Hfirst s1.
  assert (E : get_future s
              = (set_pending_map
                   (promise.mk (promise.result (pending_map s)) true) s,
                 Returns (Some tt))).
  { unfold get_future, at_pending_map, promise.get_future.
    by rewrite Hfirst. }
  subst s1. rewrite E. simpl. repeat split; try done.
  intros s2 Hl.
  destruct (later_keeps_progress _ _ _ Hl) as (_ & P2 & _).
  specialize (P2 eq_refl).
  unfold get_future, at_pending_map, promise.get_future.
  rewrite P2. by destruct s2.
Qed.

End PendingResults_more.

(** An object after [fulfill_map({1, 2})] and the reply 7 of peer 1. *)
Lemma reachable_after_reply :
  PendingResults.reachable false
    (fst (PendingResults.set_value 1 7
            (fst (PendingResults.fulfill_map (T := Z) [1; 2]
                    PendingResults.fresh)))).
Proof.
  eapply PendingResults.reachable_step; [apply reachable_after_fulfill_map|].
  apply (PendingResults.step_run false (PendingResults.call_set_value 1 7)).
  vm_compute. discriminate.
Qed.

Lemma later_after_reply :
  PendingResults.later false
    (fst (PendingResults.fulfill_map (T := Z) [1; 2] PendingResults.fresh))
    (fst (PendingResults.set_value 1 7
            (fst (PendingResults.fulfill_map (T := Z) [1; 2]
                    PendingResults.fresh)))).
Proof.
  eapply PendingResults.later_step; [apply PendingResults.later_now|].
  apply (PendingResults.step_run false (PendingResults.call_set_value 1 7)).
  vm_compute. discriminate.
Qed.

Lemma responded_iff_slot_fulfilled_witness :
  let s := fst (PendingResults.set_value 1 7
                  (fst (PendingResults.fulfill_map (T := Z) [1; 2]
                          PendingResults.fresh))) in
  (1 ∈ PendingResults.responded_nodes s <-> is_Some (PendingResults.slot s 1))
  /\ (2 ∈ PendingResults.responded_nodes s <-> is_Some (PendingResults.slot s 2)).
Proof.
  intros s. split.
  - exact (responded_iff_slot_fulfilled false s 1 reachable_after_reply).
  - exact (responded_iff_slot_fulfilled false s 2 reachable_after_reply).
Defined.

Lemma published_map_is_consistent_witness :
  let s := fst (PendingResults.fulfill_map (T := Z) [1; 2]
                  PendingResults.fresh) in
  exists m : reply_map,
    published s = Some (inl m)
    /\ PendingResults.map_fulfilled s = true
    /\ dom m ⊆ PendingResults.dest_nodes s
    /\ forall e, e ∈ dom m ->
         m !! e = Some (Some e) /\ future_taken s e = true.
Proof.
  intros s.
  destruct (published s) as [[m|e]|] eqn:E;
    [|vm_compute in E; discriminate|vm_compute in E; discriminate].
  exists m. split; [done|].
  exact (proj2 (published_map_is_consistent false s
                  reachable_after_fulfill_map) m E).
Defined.

Lemma published_map_is_final_witness :
  let s := fst (PendingResults.fulfill_map (T := Z) [1; 2]
                  PendingResults.fresh) in
  let s' := fst (PendingResults.set_value 1 7 s) in
  exists x, published s = Some x /\ published s' = Some x
            /\ published (fst (PendingResults.fulfill_map [3] s')) = Some x.
Proof.
  intros s s'.
  destruct (published s) as [x|] eqn:E; [|vm_compute in E; discriminate].
  exists x. split; [done|].
  destruct (published_map_is_final false s s' x [3] E later_after_reply)
    as (H1 & _ & H3).
  by split.
Defined.

Lemma replies_for_distinct_peers_commute_witness :
  let s := fst (PendingResults.fulfill_map (T := Z) [1; 2]
                  PendingResults.fresh) in
  fst (PendingResults.set_exception 2 (remote_exception_occurred 2)
         (fst (PendingResults.set_value 1 7 s)))
  = fst (PendingResults.set_value 1 7
           (fst (PendingResults.set_exception 2 (remote_exception_occurred 2) s))).
Proof.
  intros s.
  refine (proj1 (replies_for_distinct_peers_commute 1 2 7 7
                   (remote_exception_occurred 2) (remote_exception_occurred 2)
                   (PendingResults.set_value 1 7)
                   (PendingResults.set_exception 2 (remote_exception_occurred 2))
                   s _ (or_introl eq_refl) (or_intror eq_refl))).
  discriminate.
Defined.

Lemma late_reply_after_removal_throws_witness :
  let s := fst (PendingResults.fulfill_map (T := Z) [1; 2]
                  PendingResults.fresh) in
  let s1 := fst (PendingResults.set_exception_for_removed_node false 2 s) in
  PendingResults.set_value 2 9 s1
  = (s1, Throws (future_error promise_already_satisfied)).
Proof.
  intros s s1.
  assert (H2 : 2 ∈ PendingResults.dest_nodes s)
    by (apply (bool_decide_unpack (2 ∈ PendingResults.dest_nodes s));
        vm_compute; exact I).
  assert (H3 : 2 ∉ PendingResults.responded_nodes s)
    by (apply (bool_decide_unpack (2 ∉ PendingResults.responded_nodes s));
        vm_compute; exact I).
  exact (proj1 (proj2 (late_reply_after_removal_throws false s 2 9
                         (remote_exception_occurred 2)
                         reachable_after_fulfill_map H2 H3))).
Defined.

Lemma get_future_only_once_witness :
  let s1 := fst (PendingResults.get_future (PendingResults.fresh (T := Z))) in
  snd (PendingResults.get_future (PendingResults.fresh (T := Z)))
  = Returns (Some tt)
  /\ PendingResults.get_future s1
     = (s1, Throws (future_error future_already_retrieved)).
Proof.
  intros s1.
  destruct (get_future_only_once false (PendingResults.fresh (T := Z)) eq_refl)
    as (H1 & _ & _ & _ & _ & _ & H7).
  split; [exact H1|]. apply H7. apply PendingResults.later_now.
Defined.

(** ** More on [QueryResults] *)

Section QueryResults_more.
Import QueryResults.
Context {T : Type}.
Implicit Types (pending : PendingResults.t T) (q : QueryResults.t)
  (log : list blocking_call) (nid : node_id_t).

(** [ReplyMap::get] on a populated [rmap]: nothing is fetched. *)
Lemma ReplyMap_get_populated ndebug pending nid (w : me) :
  size (replies (fst w)) ≠ 0%nat ->
  ReplyMap.get ndebug pending nid w =
  match replies (fst w) !! nid with
  | None => (w, if ndebug then Throws out_of_range else Aborts)
  | Some None => (w, if ndebug then Undefined else Aborts)
  | Some (Some src) => ReplyMap.at_get (PendingResults.slot pending) nid w
  end.
Proof.
  intros Hsz. unfold ReplyMap.get, mbind, M_bind, gets, assert. simpl.
  rewrite (bool_decide_eq_false_2 _ Hsz). unfold mret, M_ret.
  rewrite (bool_decide_eq_true_2 (0 < size (replies w.1))%nat) by lia.
  rewrite orb_true_r.
  unfold ReplyMap.at_get.
  destruct (replies w.1 !! nid) as [[src|]|] eqn:E; destruct ndebug;
    cbn -[lookup]; rewrite ?E; done.
Qed.

(** [ReplyMap::get] on an empty [rmap] first moves the published map in. *)
Lemma ReplyMap_get_fetches ndebug pending nid q log (m : reply_map) :
  size (replies q) = 0%nat ->
  pending_rmap q = Some tt ->
  published pending = Some (inl m) ->
  size m ≠ 0%nat ->
  ReplyMap.get ndebug pending nid (q, log)
  = ReplyMap.get ndebug pending nid (mk None m, future_get :: log).
Proof.
  intros Hsz Hfut Hpub Hm.
  rewrite (ReplyMap_get_populated _ _ _ (mk None m, future_get :: log)) by done.
  destruct q as [fut rm]. simpl in Hsz, Hfut. subst fut.
  unfold ReplyMap.get, mbind, M_bind, gets, assert, pending_rmap_get,
    set_replies, modify.
  cbn -[lookup size].
  rewrite (bool_decide_eq_true_2 _ Hsz). rewrite orb_true_r.
  unfold published in Hpub. rewrite Hpub.
  cbn -[lookup size].
  rewrite (bool_decide_eq_true_2 (0 < size m)%nat) by lia.
  rewrite orb_true_r.
  unfold ReplyMap.at_get.
  destruct (m !! nid) as [[src|]|] eqn:E; destruct ndebug;
    cbn -[lookup]; rewrite ?E; done.
Qed.

(** X11: when [fulfill_map(who)] returns, the first [wait] of the query
    side gets the published map after one [wait_for]; on that map
    [contains(nid)] is true exactly for the listed peers, whether or not
    they have replied, and [valid(nid)] is true for each of them. *)
Theorem wait_delivers_the_destinations ndebug (who : list node_id_t)
    (s : PendingResults.t T) (d : duration) :
  snd (PendingResults.fulfill_map who s) = Returns tt ->
  let s' := fst (PendingResults.fulfill_map who s) in
  exists m : reply_map,
    wait (PendingResults.pending_map s') d (make (Some tt), [])
    = ((mk None m, [future_get; future_wait_for d]), Returns (Some m))
    /\ dom m = list_to_set who
    /\ (forall nid, ReplyMap.contains nid m
                    = (m, Returns (bool_decide (nid ∈ who))))
    /\ (forall nid, nid ∈ who ->
          ReplyMap.valid ndebug nid m = (m, Returns true)).
Proof.
  intros Hret s'.
  destruct (fulfill_map_cases who s) as (_ & _ & _ & [[_ [c Hc]]|Hpub]);
    [congruence|].
  destruct Hpub as (_ & _ & _ & _ & _ & m & Hm & Hlook).
  exists m. split; [|split; [|split]].
  - by apply wait_ready.
  - apply set_eq. intros k. rewrite elem_of_dom, Hlook, elem_of_list_to_set.
    case_bool_decide; [by split; eauto|]. split; [by intros [? ?]|done].
  - intros nid. unfold ReplyMap.contains, mbind, M_bind, gets. simpl.
    unfold mret, M_ret. do 2 f_equal. rewrite Hlook.
    destruct (decide (nid ∈ who)) as [Hin|Hout].
    + rewrite !(bool_decide_eq_true_2 (nid ∈ who)) by done.
      by rewrite bool_decide_eq_true_2 by eauto.
    + rewrite !(bool_decide_eq_false_2 (nid ∈ who)) by done.
      by rewrite bool_decide_eq_false_2 by apply is_Some_None.
  - intros nid Hin.
    assert (E : m !! nid = Some (Some nid))
      by (by rewrite Hlook, bool_decide_eq_true_2).
    rewrite ReplyMap_valid_unfold by (right; by rewrite E).
    rewrite E.
    rewrite bool_decide_eq_true_2 by (by eapply reply_map_size_pos).
    done.
Qed.

(** X12: [ReplyMap::get] delivers what the pending side recorded.  For a
    pending object the member functions can produce, with its map
    published, and a query side that has not fetched the map yet,
    [get(nid)] for a peer of the map fetches the map and then returns the
    value recorded for [nid], throws the error recorded for [nid], or waits
    when nothing is recorded yet; in the first two cases the future of
    [nid] is consumed and no other entry changes. *)
Theorem ReplyMap_get_delivers_recorded_reply ndebug pending nid q log
    (m : reply_map) :
  PendingResults.reachable ndebug pending ->
  published pending = Some (inl m) ->
  nid ∈ dom m ->
  size (replies q) = 0%nat ->
  pending_rmap q = Some tt ->
  ReplyMap.get ndebug pending nid (q, log) =
  match PendingResults.slot pending nid with
  | Some (inl v) =>
      ((mk None (<[nid := None]> m), future_get :: future_get :: log),
       Returns v)
  | Some (inr ex) =>
      ((mk None (<[nid := None]> m), future_get :: future_get :: log),
       Throws ex)
  | None => ((mk None m, future_get :: future_get :: log), Blocks)
  end.
Proof.
  intros Hreach Hpub Hin Hsz Hfut.
  pose proof (reachable_well_published _ _ Hreach) as W.
  unfold well_published in W. rewrite Hpub in W. destruct W as [_ Hent].
  apply elem_of_dom in Hin. destruct Hin as [f Hf].
  destruct (Hent nid f Hf) as (-> & _ & _).
  assert (Hm : size m ≠ 0%nat).
  { pose proof (reply_map_size_pos m nid _ Hf). lia. }
  rewrite (ReplyMap_get_fetches _ _ _ _ _ m) by done.
  rewrite ReplyMap_get_populated by done. simpl. rewrite Hf.
  unfold ReplyMap.at_get. simpl. rewrite Hf.
  by destruct (PendingResults.slot pending nid) as [[v|ex]|].
Qed.

(** X13: a per-peer result can be taken once.  After [get(nid)] has
    returned the reply of [nid], a second [get(nid)] stops at the assertion
    on [valid()] when assertions are compiled in, and under [NDEBUG] calls
    [get()] on a future without shared state. *)
Theorem ReplyMap_get_twice ndebug pending pending' nid (w w' : me) (v : T) :
  ReplyMap.get ndebug pending nid w = (w', Returns v) ->
  ReplyMap.get ndebug pending' nid w'
  = (w', if ndebug then Undefined else Aborts).
Proof.
  intros Hget. unfold ReplyMap.get in Hget.
  repeat (apply bind_Returns_inv in Hget;
          destruct Hget as (? & ? & _ & Hget)).
  unfold ReplyMap.at_get in Hget.
  destruct (replies _ !! nid) as [[src|]|]; try done.
  destruct (PendingResults.slot pending src) as [[v'|ex]|]; try done.
  injection Hget as <- _.
  rewrite ReplyMap_get_populated.
  - simpl. by rewrite lookup_insert_eq.
  - simpl. intros Hz. apply map_size_empty_inv in Hz.
    apply (f_equal (fun m : reply_map => m !! nid)) in Hz.
    by rewrite lookup_insert_eq, lookup_empty in Hz.
Qed.

(** X14: a peer the call was not sent to.  On a populated map without an
    entry for [nid], [contains(nid)] is false, while [valid(nid)] and
    [get(nid)] stop at an assertion when assertions are compiled in and
    throw [std::out_of_range] under [NDEBUG]; the map is left as it is.  On
    an empty map [valid] is false for every peer. *)
Theorem ReplyMap_peer_not_contacted ndebug pending nid q log :
  size (replies q) ≠ 0%nat ->
  replies q !! nid = None ->
  ReplyMap.contains nid (replies q) = (replies q, Returns false)
  /\ ReplyMap.valid ndebug nid (replies q)
     = (replies q, if ndebug then Throws out_of_range else Aborts)
  /\ ReplyMap.get ndebug pending nid (q, log)
     = ((q, log), if ndebug then Throws out_of_range else Aborts)
  /\ ReplyMap.valid ndebug nid ∅ = (∅, Returns false).
Proof.
  intros Hsz Hnone. split; [|split; [|split]].
  - unfold ReplyMap.contains, mbind, M_bind, gets. simpl. rewrite Hnone.
    by rewrite bool_decide_eq_false_2 by apply is_Some_None.
  - unfold ReplyMap.valid, mbind, M_bind, gets, assert. simpl.
    rewrite Hnone. rewrite (bool_decide_eq_false_2 _ Hsz).
    rewrite (bool_decide_eq_false_2 (is_Some None)) by apply is_Some_None.
    rewrite (bool_decide_eq_true_2 (0 < size (replies q))%nat) by lia.
    by destruct ndebug.
  - rewrite ReplyMap_get_populated by done. simpl. by rewrite Hnone.
  - by destruct ndebug.
Qed.

End QueryResults_more.


Lemma wait_delivers_the_destinations_witness :
  let s' := fst (PendingResults.fulfill_map (T := Z) [1; 2]
                   PendingResults.fresh) in
  exists m : reply_map,
    QueryResults.wait (PendingResults.pending_map s') 5
      (QueryResults.make (Some tt), [])
    = ((QueryResults.mk None m,
        [QueryResults.future_get; QueryResults.future_wait_for 5]),
       Returns (Some m))
    /\ QueryResults.ReplyMap.contains 3 m = (m, Returns false)
    /\ QueryResults.ReplyMap.contains 2 m = (m, Returns true).
Proof.
  intros s'.
  destruct (wait_delivers_the_destinations false [1; 2]
              (PendingResults.fresh (T := Z)) 5 eq_refl)
    as (m & H1 & _ & H3 & _).
  exists m. split; [exact H1|]. split; [exact (H3 3)|exact (H3 2)].
Defined.

Lemma ReplyMap_get_delivers_recorded_reply_witness :
  let pending :=
    fst (PendingResults.set_value 1 7
           (fst (PendingResults.fulfill_map (T := Z) [1; 2]
                   PendingResults.fresh))) in
  exists m : reply_map,
    published pending = Some (inl m)
    /\ QueryResults.ReplyMap.get false pending 1
         (QueryResults.make (Some tt), [])
       = ((QueryResults.mk None (<[1 := None]> m),
           [QueryResults.future_get; QueryResults.future_get]),
          Returns 7).
Proof.
  intros pending.
  destruct (published pending) as [[m|ex]|] eqn:E;
    [|vm_compute in E; discriminate..].
  exists m. split; [done|].
  assert (Hin : 1 ∈ dom m).
  { vm_compute in E. injection E as <-.
    apply (bool_decide_unpack (1 ∈ dom _)). vm_compute. exact I. }
  exact (ReplyMap_get_delivers_recorded_reply false pending 1
           (QueryResults.make (Some tt)) [] m
           reachable_after_reply E Hin eq_refl eq_refl).
Defined.

Lemma ReplyMap_get_twice_witness :
  let pending :=
    fst (PendingResults.set_value 1 7
           (fst (PendingResults.fulfill_map (T := Z) [1; 2]
                   PendingResults.fresh))) in
  let first := QueryResults.ReplyMap.get false pending 1
                 (QueryResults.make (Some tt), []) in
  snd first = Returns 7
  /\ QueryResults.ReplyMap.get false pending 1 (fst first) = (fst first, Aborts).
Proof.
  intros pending first.
  assert (E : first = (fst first, Returns 7)) by (vm_compute; reflexivity).
  split; [by rewrite E|].
  exact (ReplyMap_get_twice false pending pending 1
           (QueryResults.make (Some tt), []) (fst first) 7 E).
Defined.

Lemma ReplyMap_peer_not_contacted_witness :
  let q := QueryResults.mk None {[1 := Some 1]} in
  QueryResults.ReplyMap.get (T := Z) true PendingResults.fresh 2 (q, [])
  = ((q, []), Throws out_of_range).
Proof.
  intros q.
  assert (H1 : size (QueryResults.replies q) ≠ 0%nat)
    by (vm_compute; discriminate).
  exact (proj1 (proj2 (proj2
    (ReplyMap_peer_not_contacted true (PendingResults.fresh (T := Z)) 2 q []
       H1 eq_refl)))).
Defined.

(** ** More on [MemoryRegion] *)






(** ** More on [print_partial_sums] *)

Section missed_counters_more.
Import missed_counters.

Variable rm : list (list Z).
Variable i : Z.
Variable row : list Z.
Hypothesis Hrow : lookup_index rm i = Some row.
Hypothesis Hmax : Z.of_nat (length row) < 2 ^ 64.

(** The start-index loop stops at the first scanned entry above
    [num_msgs / 2]. *)
Lemma start_index_loop_finds num_msgs ls st x fuel : forall j,
  0 <= j <= st -> st < ls -> ls <= Z.of_nat (length row) ->
  (Z.to_nat (st - j) < fuel)%nat ->
  (forall k y, j <= k < st -> lookup_index row k = Some y -> y <= num_msgs / 2) ->
  lookup_index row st = Some x -> num_msgs / 2 < x ->
  start_index_loop fuel num_msgs i j ls 0 rm = (rm, inl st).
Proof using Hrow Hmax.
  induction fuel as [|fuel IH]; intros j Hj Hst Hls Hfuel Hlow Hx Hhigh; [lia|].
  cbn [start_index_loop].
  rewrite (proj2 (Z.ltb_lt j ls)) by lia.
  destruct (decide (j = st)) as [->|Hne].
  - unfold mbind, V_bind. rewrite (read_row rm i row Hrow _ _ Hx).
    by rewrite (proj2 (Z.ltb_lt _ _) Hhigh).
  - destruct (lookup_index_in row j) as [a Ha]; [lia|].
    unfold mbind, V_bind. rewrite (read_row rm i row Hrow _ _ Ha).
    rewrite (proj2 (Z.ltb_ge _ _) (Hlow j a ltac:(lia) Ha)).
    rewrite (wrap64_index row Hmax (j + 1)) by lia.
    apply IH; try done; try lia.
    intros k y Hk. apply Hlow. lia.
Qed.

(** The entries the first loop walks over are strictly increasing. *)
Lemma logic_size_loop_increasing fuel : forall j ls,
  1 <= j ->
  logic_size_loop fuel i j j rm = (rm, inl ls) ->
  forall k, j <= k < ls ->
    exists a b, lookup_index row (k - 1) = Some b
                /\ lookup_index row k = Some a /\ b < a.
Proof using Hrow Hmax.
  induction fuel as [|fuel IH]; intros j ls Hj Hloop k Hk.
  - simpl in Hloop. injection Hloop as <-. lia.
  - cbn [logic_size_loop] in Hloop. unfold mbind at 1, V_bind at 1 in Hloop.
    rewrite (size_of_row rm i row Hrow) in Hloop.
    destruct (j <? Z.of_nat (length row)) eqn:Hlt;
      [|injection Hloop as <-; lia].
    apply Z.ltb_lt in Hlt.
    destruct (lookup_index_in row j) as [a Ha]; [lia|].
    destruct (lookup_index_in row (j - 1)) as [b Hb]; [lia|].
    unfold mbind at 1, V_bind at 1 in Hloop.
    rewrite (read_row rm i row Hrow _ _ Ha) in Hloop.
    unfold mbind at 1, V_bind at 1 in Hloop.
    rewrite (wrap64_index row Hmax (j - 1)) in Hloop by lia.
    rewrite (read_row rm i row Hrow _ _ Hb) in Hloop.
    destruct (b <? a) eqn:Hba; [|injection Hloop as <-; lia].
    apply Z.ltb_lt in Hba.
    rewrite (wrap64_index row Hmax (j + 1)) in Hloop by lia.
    destruct (decide (k = j)) as [->|Hne]; [by exists a, b|].
    apply (IH (j + 1) ls); [lia|done|lia].
Qed.

(** The count loop over strictly increasing entries sums the gaps: the
    count grows by the distance walked minus the number of steps. *)
Lemma count_loop_telescopes ls lo c0 fuel : forall j n,
  1 <= lo <= j -> j <= ls -> ls <= Z.of_nat (length row) ->
  Forall (fun x => 0 <= x < 2 ^ 64) row ->
  (forall k, lo <= k < ls ->
     exists a b, lookup_index row (k - 1) = Some b
                 /\ lookup_index row k = Some a /\ b < a) ->
  (Z.to_nat (ls - j) <= fuel)%nat ->
  exists n',
    count_loop fuel i j ls
      (wrap64 (c0 + default 0 (lookup_index row (j - 1))
               - default 0 (lookup_index row (lo - 1)) - (j - lo)), n) rm
    = (rm, inl (wrap64 (c0 + default 0 (lookup_index row (ls - 1))
                        - default 0 (lookup_index row (lo - 1)) - (ls - lo)),
                n')).
Proof using Hrow Hmax.
  induction fuel as [|fuel IH]; intros j n Hlo Hj Hls Hrange Hinc Hfuel.
  - assert (j = ls) as -> by lia. by exists n.
  - cbn [count_loop].
    destruct (j <? ls) eqn:Hlt.
    2:{ apply Z.ltb_ge in Hlt. assert (j = ls) as -> by lia. by exists n. }
    apply Z.ltb_lt in Hlt.
    destruct (Hinc j ltac:(lia)) as (a & b & Hb & Ha & Hba).
    unfold mbind, V_bind. rewrite (read_row rm i row Hrow _ _ Ha).
    rewrite (wrap64_index row Hmax (j - 1)) by lia.
    rewrite (read_row rm i row Hrow _ _ Hb).
    assert (Ra : 0 <= a < 2 ^ 64).
    { unfold lookup_index in Ha. destruct (_ && _); [|done].
      by apply (Forall_lookup_1 _ _ _ _ Hrange Ha). }
    assert (Rb : 0 <= b < 2 ^ 64).
    { unfold lookup_index in Hb. destruct (_ && _); [|done].
      by apply (Forall_lookup_1 _ _ _ _ Hrange Hb). }
    rewrite (wrap64_small (a - b - 1)) by lia.
    rewrite (wrap64_index row Hmax (j + 1)) by lia.
    cbn [fst snd]. rewrite Hb. cbn [default id].
    set (v0 := default 0 (lookup_index row (lo - 1))).
    assert (E : wrap64 (wrap64 (c0 + b - v0 - (j - lo)) + (a - b - 1))
                = wrap64 (c0 + default 0 (lookup_index row (j + 1 - 1))
                          - v0 - (j + 1 - lo))).
    { replace (j + 1 - 1) with j by lia. rewrite Ha. cbn [default id].
      unfold wrap64, wrap. rewrite Zplus_mod_idemp_l.
      apply (f_equal (fun z => z mod 2 ^ 64)). clearbody v0. lia. }
    rewrite E.
    apply (IH (j + 1)); try done; lia.
Qed.

End missed_counters_more.

Lemma lookup_index_insert {A} (l : list A) k x j :
  0 <= k < Z.of_nat (length l) ->
  missed_counters.lookup_index (<[Z.to_nat k := x]> l) j
  = if decide (j = k) then Some x else missed_counters.lookup_index l j.
Proof.
  intros Hk. unfold missed_counters.lookup_index. rewrite length_insert.
  destruct ((0 <=? j) && (j <? Z.of_nat (length l))) eqn:E.
  - apply andb_true_iff in E. destruct E as [E1%Z.leb_le E2%Z.ltb_lt].
    case_decide as Hj.
    + subst j. apply list_lookup_insert_eq. lia.
    + apply list_lookup_insert_ne. lia.
  - case_decide as Hj; [|done]. subst j.
    apply andb_false_iff in E. destruct E as [E%Z.leb_gt|E%Z.ltb_ge]; lia.
Qed.

Lemma lookup_index_Some_range {A} (l : list A) j x :
  missed_counters.lookup_index l j = Some x -> 0 <= j < Z.of_nat (length l).
Proof.
  unfold missed_counters.lookup_index.
  destruct ((0 <=? j) && (j <? Z.of_nat (length l))) eqn:E; [|done].
  apply andb_true_iff in E. destruct E as [E1%Z.leb_le E2%Z.ltb_lt]. lia.
Qed.

(** The block on a row whose first entry is above [num_msgs / 2]. *)
Lemma count_row_first_entry_above (num_msgs i : Z)
    (received_msgs : list (list Z)) (row : list Z) (first : Z) counts :
  missed_counters.lookup_index received_msgs i = Some row ->
  Z.of_nat (length row) < 2 ^ 64 ->
  missed_counters.lookup_index row 0 = Some first ->
  num_msgs / 2 < first ->
  missed_counters.count_row num_msgs i counts received_msgs
  = (received_msgs,
     inr (missed_counters.element_out_of_bounds i (2 ^ 64 - 1))).
Proof.
  intros Hrow Hmax Hfirst Hhigh.
  pose proof (lookup_index_Some_range _ _ _ Hfirst) as Hlen.
  destruct (logic_size_loop_bound received_msgs i row Hrow Hmax
              (length row) 1) as (ls & Hls & Hb); [lia|].
  unfold missed_counters.count_row.
  unfold mbind at 1, missed_counters.V_bind at 1.
  rewrite (size_of_row _ _ _ Hrow), Nat2Z.id.
  unfold mbind at 1, missed_counters.V_bind at 1. rewrite Hls.
  unfold mbind at 1, missed_counters.V_bind at 1.
  rewrite (start_index_loop_finds received_msgs i row Hrow Hmax
             num_msgs ls 0 first); try done; try lia.
  unfold mbind at 1, missed_counters.V_bind at 1.
  by rewrite (write_before_first _ _ _ Hrow Hmax).
Qed.

(** X18: [start_index] is also 0 when the very first entry of the
    reception vector is above [num_msgs / 2]: the loop assigns
    [start_index = 0] and breaks, and the block then rewrites the element
    at subscript [2^64 - 1].  A run with [num_msgs = 1] that records the
    single message ends this way. *)
Theorem first_entry_above_half_writes_before_row
    (num_nodes num_msgs my_rank : Z) (received_msgs : list (list Z))
    (row : list Z) (first : Z) :
  missed_counters.lookup_index received_msgs my_rank = Some row ->
  Z.of_nat (length row) < 2 ^ 64 ->
  missed_counters.lookup_index row 0 = Some first ->
  num_msgs / 2 < first ->
  (forall counts,
     missed_counters.count_row num_msgs my_rank counts received_msgs
     = (received_msgs,
        inr (missed_counters.element_out_of_bounds my_rank (2 ^ 64 - 1))))
  /\ missed_counters.print_partial_sums num_nodes num_msgs my_rank
       received_msgs
     = (received_msgs,
        inr (missed_counters.element_out_of_bounds my_rank (2 ^ 64 - 1))).
Proof.
  intros Hrow Hmax Hfirst Hhigh.
  split.
  - intros counts.
    exact (count_row_first_entry_above num_msgs my_rank received_msgs row
             first counts Hrow Hmax Hfirst Hhigh).
  - unfold missed_counters.print_partial_sums, mbind, missed_counters.V_bind.
    by rewrite (count_row_first_entry_above num_msgs my_rank received_msgs
                  row first (0, 0) Hrow Hmax Hfirst Hhigh).
Qed.

Lemma first_entry_above_half_writes_before_row_witness :
  missed_counters.print_partial_sums 1 1 0 [[1]]
  = ([[1]], inr (missed_counters.element_out_of_bounds 0 (2 ^ 64 - 1))).
Proof.
  exact (proj2 (first_entry_above_half_writes_before_row 1 1 0 [[1]] [1] 1
                  eq_refl eq_refl eq_refl eq_refl)).
Defined.

(** The block on a row whose first entry above [num_msgs / 2] is at
    subscript [start >= 1]. *)
Lemma count_row_from_start
    (num_msgs i : Z) (received_msgs : list (list Z)) (row : list Z)
    (logic_size start above last count_missed intervals : Z) :
  missed_counters.lookup_index received_msgs i = Some row ->
  Z.of_nat (length row) < 2 ^ 64 ->
  Forall (fun x => 0 <= x < 2 ^ 64) row ->
  0 <= num_msgs < 2 ^ 64 ->
  0 <= count_missed < 2 ^ 64 ->
  missed_counters.logic_size_loop (length row) i 1 1 received_msgs
  = (received_msgs, inl logic_size) ->
  1 <= start < logic_size ->
  (forall k y, 0 <= k < start ->
     missed_counters.lookup_index row k = Some y -> y <= num_msgs / 2) ->
  missed_counters.lookup_index row start = Some above ->
  num_msgs / 2 < above ->
  missed_counters.lookup_index row (logic_size - 1) = Some last ->
  exists intervals',
    missed_counters.count_row num_msgs i (count_missed, intervals)
      received_msgs
    = (<[Z.to_nat i := <[Z.to_nat (start - 1) := num_msgs / 2]> row]>
         received_msgs,
       inl (wrap64 (count_missed + (last - num_msgs / 2)
                    - (logic_size - start)),
            intervals')).
Proof.
  intros Hrow Hmax Hrange Hn Hc Hls Hst Hlow Habove Hhigh Hlast.
  pose proof (lookup_index_Some_range _ _ _ Hrow) as Hi.
  pose proof (lookup_index_Some_range _ _ _ Hlast) as Hlastr.
  assert (Hhalf : 0 <= num_msgs / 2 < 2 ^ 64).
  { split; [apply Z.div_pos; lia|].
    apply Z.div_lt_upper_bound; lia. }
  set (row' := <[Z.to_nat (start - 1) := num_msgs / 2]> row).
  set (rm' := <[Z.to_nat i := row']> received_msgs).
  assert (Hrow' : missed_counters.lookup_index rm' i = Some row').
  { subst rm'. rewrite lookup_index_insert by done. by rewrite decide_True. }
  assert (Hmax' : Z.of_nat (length row') < 2 ^ 64)
    by (subst row'; by rewrite length_insert).
  assert (Hval : forall k,
            missed_counters.lookup_index row' k
            = if decide (k = start - 1) then Some (num_msgs / 2)
              else missed_counters.lookup_index row k).
  { intros k. subst row'. apply lookup_index_insert. lia. }
  unfold missed_counters.count_row.
  unfold mbind at 1, missed_counters.V_bind at 1.
  rewrite (size_of_row _ _ _ Hrow), Nat2Z.id.
  unfold mbind at 1, missed_counters.V_bind at 1. rewrite Hls.
  unfold mbind at 1, missed_counters.V_bind at 1.
  rewrite (start_index_loop_finds received_msgs i row Hrow Hmax
             num_msgs logic_size start above); try done; try lia.
  unfold mbind at 1, missed_counters.V_bind at 1.
  assert (Hwrite : missed_counters.write i (wrap64 (start - 1)) (num_msgs / 2)
                     received_msgs = (rm', inl tt)).
  { unfold missed_counters.write. rewrite Hrow.
    rewrite wrap64_small by lia.
    destruct (lookup_index_in row (start - 1)) as [y ->]; [lia|]. done. }
  rewrite Hwrite.
  destruct (count_loop_telescopes rm' i row' Hrow' Hmax' logic_size start
              count_missed (Z.to_nat logic_size) start intervals)
    as (n' & Hcount); try lia.
  - subst row'. rewrite length_insert. lia.
  - subst row'. apply Forall_insert; done.
  - intros k Hk. rewrite !Hval.
    destruct (decide (k = start)) as [->|Hne].
    + rewrite decide_True by done. rewrite decide_False by lia.
      exists above, (num_msgs / 2). done.
    + rewrite !decide_False by lia.
      apply (logic_size_loop_increasing received_msgs i row Hrow Hmax
               (length row) 1 logic_size); [lia|done|lia].
  - exists n'.
    rewrite !Hval in Hcount.
    rewrite decide_True in Hcount by done.
    rewrite decide_False in Hcount by lia.
    rewrite Hlast in Hcount. cbn [default id] in Hcount.
    replace (count_missed + num_msgs / 2 - num_msgs / 2 - (start - start))
      with count_missed in Hcount by lia.
    rewrite (wrap64_small count_missed) in Hcount by done.
    rewrite Hcount. do 3 f_equal.
    replace (count_missed + (last - num_msgs / 2))
      with (count_missed + last - num_msgs / 2) by lia.
    reflexivity.
Qed.

(** X19: the block on a well-formed row.  When the first scanned entry
    above [num_msgs / 2] is at subscript [start >= 1], the block has no
    access outside the vectors, rewrites exactly the element before
    [start] to [num_msgs / 2], and adds to [count_missed] the number of
    values between [num_msgs / 2] and the last scanned entry that were
    not recorded: [last - num_msgs / 2 - (logic_size - start)]. *)
Theorem count_row_counts_the_gaps
    (num_msgs i : Z) (received_msgs : list (list Z)) (row : list Z)
    (logic_size start above last count_missed intervals : Z) :
  missed_counters.lookup_index received_msgs i = Some row ->
  Z.of_nat (length row) < 2 ^ 64 ->
  Forall (fun x => 0 <= x < 2 ^ 64) row ->
  0 <= num_msgs < 2 ^ 64 ->
  0 <= count_missed < 2 ^ 64 ->
  missed_counters.logic_size_loop (length row) i 1 1 received_msgs
  = (received_msgs, inl logic_size) ->
  1 <= start < logic_size ->
  (forall k y, 0 <= k < start ->
     missed_counters.lookup_index row k = Some y -> y <= num_msgs / 2) ->
  missed_counters.lookup_index row start = Some above ->
  num_msgs / 2 < above ->
  missed_counters.lookup_index row (logic_size - 1) = Some last ->
  exists intervals',
    missed_counters.count_row num_msgs i (count_missed, intervals)
      received_msgs
    = (<[Z.to_nat i := <[Z.to_nat (start - 1) := num_msgs / 2]> row]>
         received_msgs,
       inl (wrap64 (count_missed + (last - num_msgs / 2)
                    - (logic_size - start)),
            intervals')).
Proof.
  apply count_row_from_start.
Qed.

Lemma count_row_counts_the_gaps_witness :
  exists intervals',
    missed_counters.count_row 8 1 (0, 0)
      [[1; 3; 4; 6; 8; 0; 0; 0]; [2; 5; 8; 0; 0; 0; 0; 0]]
    = ([[1; 3; 4; 6; 8; 0; 0; 0]; [4; 5; 8; 0; 0; 0; 0; 0]],
       inl (wrap64 (0 + (8 - 8 / 2) - (3 - 1)), intervals')).
Proof.
  assert (R : forall x, (0 ?= x) <> Gt -> (x ?= 2 ^ 64) = Lt -> 0 <= x < 2 ^ 64)
    by (intros x H1 H2; split; assumption).
  apply (count_row_counts_the_gaps 8 1
           [[1; 3; 4; 6; 8; 0; 0; 0]; [2; 5; 8; 0; 0; 0; 0; 0]]
           [2; 5; 8; 0; 0; 0; 0; 0] 3 1 5 8 0 0).
  - reflexivity.
  - reflexivity.
  - repeat constructor; discriminate.
  - apply R; [discriminate|reflexivity].
  - apply R; [discriminate|reflexivity].
  - reflexivity.
  - split; [discriminate|reflexivity].
  - intros k y Hk. assert (k = 0) as -> by lia.
    vm_compute. intros [= <-]. discriminate.
  - reflexivity.
  - reflexivity.
  - reflexivity.
Defined.

(** ** The receiver loop *)

Lemma lookup_index_Some {A} (l : list A) k x :
  missed_counters.lookup_index l k = Some x
  <-> 0 <= k /\ l !! Z.to_nat k = Some x.
Proof.
  unfold missed_counters.lookup_index. split.
  - destruct ((0 <=? k) && (k <? Z.of_nat (length l))) eqn:E; [|done].
    apply andb_true_iff in E. destruct E as [E1%Z.leb_le _]. done.
  - intros [H0 Hx]. pose proof (lookup_lt_Some _ _ _ Hx) as Hlt.
    rewrite (proj2 (Z.leb_le 0 k) H0).
    rewrite (proj2 (Z.ltb_lt k (Z.of_nat (length l)))) by lia. done.
Qed.

Lemma padded_length num_msgs l :
  Z.of_nat (length l) <= num_msgs ->
  Z.of_nat (length (receiver.padded num_msgs l)) = num_msgs.
Proof.
  intros H. unfold receiver.padded. rewrite length_app, repeat_length. lia.
Qed.

Lemma padded_snoc num_msgs l x :
  Z.of_nat (length l) < num_msgs ->
  <[length l := x]> (receiver.padded num_msgs l)
  = receiver.padded num_msgs (l ++ [x]).
Proof.
  intros H. unfold receiver.padded.
  rewrite length_app. cbn [length].
  replace (Z.to_nat num_msgs - length l)%nat
    with (S (Z.to_nat num_msgs - (length l + 1)))%nat by lia.
  cbn [repeat].
  rewrite insert_app_r_alt by lia. rewrite Nat.sub_diag. cbn [insert].
  by rewrite <- app_assoc.
Qed.

Lemma samples_S counter i n :
  receiver.samples counter i (S n)
  = counter O i :: receiver.samples (fun p => counter (S p)) i n.
Proof.
  unfold receiver.samples. cbn [seq map]. f_equal.
  rewrite <- seq_shift, map_map. done.
Qed.

Lemma all_received_iff num_nodes num_msgs st s :
  receiver.holds num_nodes num_msgs st s ->
  receiver.all_received num_msgs s = true
  <-> forall i, 0 <= i < num_nodes -> List.last (st i) 0 = num_msgs.
Proof.
  intros (_ & Hlen & Hst). unfold receiver.all_received.
  rewrite forallb_forall. split.
  - intros Hall i Hi. destruct (Hst i Hi) as (_ & Hl & _).
    apply lookup_index_Some in Hl as [_ Hl].
    apply Z.eqb_eq, Hall. apply list_elem_of_In.
    by apply list_elem_of_lookup_2 in Hl.
  - intros Hall x Hx. apply list_elem_of_In, list_elem_of_lookup_1 in Hx.
    destruct Hx as [k Hk]. pose proof (lookup_lt_Some _ _ _ Hk) as Hlt.
    destruct (Hst (Z.of_nat k)) as (_ & Hl & _); [lia|].
    apply lookup_index_Some in Hl as [_ Hl]. rewrite Nat2Z.id in Hl.
    rewrite Hk in Hl. injection Hl as ->. apply Z.eqb_eq, Hall. lia.
Qed.

Lemma lookup_repeat {A} (x : A) n k :
  (k < n)%nat -> repeat x n !! k = Some x.
Proof.
  revert k; induction n as [|n IH]; intros [|k] Hk; try lia; [done|].
  cbn. apply IH. lia.
Qed.

Lemma holds_init num_nodes num_msgs :
  0 <= num_nodes -> 0 <= num_msgs ->
  receiver.holds num_nodes num_msgs (fun _ => [])
    (receiver.init num_nodes num_msgs).
Proof.
  intros Hn Hm. unfold receiver.holds, receiver.init.
  cbn [receiver.received_msgs receiver.last_received receiver.j].
  rewrite !repeat_length.
  split; [lia|]. split; [lia|]. intros i Hi.
  assert (Hr : forall {A} (x : A),
             missed_counters.lookup_index (repeat x (Z.to_nat num_nodes)) i
             = Some x).
  { intros A x. apply lookup_index_Some. split; [lia|].
    apply lookup_repeat. lia. }
  rewrite !Hr. unfold receiver.padded. cbn [length app List.last].
  by rewrite Nat.sub_0_r.
Qed.

(** One pass of the [for] loop from node [i0] on: every node from [i0] on
    whose counter differs from its last recorded value gets that value
    appended. *)
Lemma pass_holds num_nodes num_msgs (c : Z -> Z) (st : Z -> list Z) :
  num_nodes < 2 ^ 32 -> num_msgs < 2 ^ 64 ->
  let st' := fun i =>
    st i ++ (if c i =? List.last (st i) 0 then [] else [c i]) in
  (forall i, 0 <= i < num_nodes -> Z.of_nat (length (st' i)) <= num_msgs) ->
  forall fuel i0 s,
    0 <= i0 <= num_nodes -> (Z.to_nat (num_nodes - i0) <= fuel)%nat ->
    receiver.holds num_nodes num_msgs
      (fun i => if i <? i0 then st' i else st i) s ->
    exists s', receiver.pass fuel num_nodes c i0 s = (s', inl tt)
               /\ receiver.holds num_nodes num_msgs st' s'.
Proof.
  intros Hn Hm st' Hfit fuel.
  induction fuel as [|fuel IH]; intros i0 s Hi0 Hfuel Hs.
  - exists s. split; [done|].
    assert (i0 = num_nodes) as -> by lia.
    destruct Hs as (L1 & L2 & Hs). split; [done|]. split; [done|].
    intros i Hi. specialize (Hs i Hi).
    by rewrite (proj2 (Z.ltb_lt i num_nodes)) in Hs by lia.
  - cbn [receiver.pass].
    destruct (i0 <? num_nodes) eqn:Elt.
    2:{ apply Z.ltb_ge in Elt. assert (i0 = num_nodes) as -> by lia.
        exists s. split; [done|].
        destruct Hs as (L1 & L2 & Hs). split; [done|]. split; [done|].
        intros i Hi. specialize (Hs i Hi).
        by rewrite (proj2 (Z.ltb_lt i num_nodes)) in Hs by lia. }
    apply Z.ltb_lt in Elt.
    assert (Hw : wrap 32 (i0 + 1) = i0 + 1).
    { unfold wrap. apply Z.mod_small. lia. }
    rewrite Hw.
    destruct Hs as (L1 & L2 & Hs).
    destruct (Hs i0) as (Hrow & Hlast & Hj); [lia|].
    rewrite Z.ltb_irrefl in Hrow, Hlast, Hj.
    unfold mbind at 1, receiver.R_bind at 1.
    unfold receiver.read_last_received at 1. rewrite Hlast.
    destruct (c i0 =? List.last (st i0) 0) eqn:Esame.
    + apply (IH (i0 + 1) s); [lia|lia|].
      split; [done|]. split; [done|]. intros i Hi.
      destruct (decide (i = i0)) as [->|Hne].
      * rewrite (proj2 (Z.ltb_lt i0 (i0 + 1))) by lia.
        subst st'. cbn beta. rewrite Esame, app_nil_r. done.
      * specialize (Hs i Hi).
        destruct (i <? i0) eqn:E1.
        -- apply Z.ltb_lt in E1.
           by rewrite (proj2 (Z.ltb_lt i (i0 + 1))) by lia.
        -- apply Z.ltb_ge in E1.
           by rewrite (proj2 (Z.ltb_ge i (i0 + 1))) by lia.
    + pose proof (Hfit i0 ltac:(lia)) as Hfit0. subst st'. cbn beta in Hfit0.
      rewrite Esame, length_app in Hfit0. cbn [length] in Hfit0.
      unfold mbind at 1, receiver.R_bind at 1.
      unfold receiver.read_j at 1. rewrite Hj.
      unfold mbind at 1, receiver.R_bind at 1.
      unfold receiver.write_received_msgs at 1, missed_counters.write.
      rewrite Hrow.
      destruct (lookup_index_in (receiver.padded num_msgs (st i0))
                  (Z.of_nat (length (st i0)))) as [y Hy].
      { rewrite padded_length by lia. lia. }
      rewrite Hy. rewrite !Nat2Z.id.
      rewrite padded_snoc by lia.
      unfold mbind at 1, receiver.R_bind at 1.
      unfold receiver.write_j at 1.
      cbn [receiver.j receiver.received_msgs receiver.last_received].
      rewrite Hj.
      unfold mbind at 1, receiver.R_bind at 1.
      unfold receiver.write_last_received at 1.
      cbn [receiver.j receiver.received_msgs receiver.last_received].
      rewrite Hlast.
      apply IH; [lia|lia|].
      pose proof (lookup_index_Some_range _ _ _ Hrow) as R1.
      pose proof (lookup_index_Some_range _ _ _ Hlast) as R2.
      pose proof (lookup_index_Some_range _ _ _ Hj) as R3.
      unfold receiver.holds.
      cbn [receiver.j receiver.received_msgs receiver.last_received].
      rewrite !length_insert.
      split; [done|]. split; [done|]. intros i Hi.
      rewrite !lookup_index_insert by done.
      destruct (decide (i = i0)) as [->|Hne].
      * rewrite (proj2 (Z.ltb_lt i0 (i0 + 1))) by lia.
        cbn beta. rewrite Esame.
        rewrite List.last_last, length_app. cbn [length].
        rewrite wrap64_small by lia.
        split; [done|]. split; [done|]. f_equal. lia.
      * specialize (Hs i Hi).
        destruct (i <? i0) eqn:E1.
        -- apply Z.ltb_lt in E1.
           by rewrite (proj2 (Z.ltb_lt i (i0 + 1))) by lia.
        -- apply Z.ltb_ge in E1.
           by rewrite (proj2 (Z.ltb_ge i (i0 + 1))) by lia.
Qed.

Lemma holds_ext num_nodes num_msgs st1 st2 s :
  (forall i, 0 <= i < num_nodes -> st1 i = st2 i) ->
  receiver.holds num_nodes num_msgs st1 s ->
  receiver.holds num_nodes num_msgs st2 s.
Proof.
  intros Heq (L1 & L2 & Hs). split; [done|]. split; [done|].
  intros i Hi. rewrite <- (Heq i Hi). by apply Hs.
Qed.

Lemma last_cons_default {A} (l : list A) : forall x d,
  List.last (x :: l) d = List.last l x.
Proof.
  induction l as [|y l IH]; intros x d; [done|].
  change (List.last (x :: y :: l) d) with (List.last (y :: l) d).
  change (List.last (y :: l) x) with (List.last (y :: l) x).
  by rewrite !IH.
Qed.

Lemma changes_last l : forall prev,
  List.last (receiver.changes prev l) prev = List.last l prev.
Proof.
  induction l as [|x l IH]; intros prev; [done|].
  cbn [receiver.changes]. rewrite (last_cons_default l).
  destruct (x =? prev) eqn:E.
  - apply Z.eqb_eq in E. subst x. apply IH.
  - rewrite last_cons_default. apply IH.
Qed.

Lemma samples_snoc counter i n :
  receiver.samples counter i (S n)
  = receiver.samples counter i n ++ [counter n i].
Proof. unfold receiver.samples. by rewrite seq_S, map_app. Qed.

(** Appending what a pass records and then the later changes gives the
    changes from this pass on. *)
Lemma changes_step (l : list Z) x rest :
  let l' := l ++ (if x =? List.last l 0 then [] else [x]) in
  List.last l' 0 = x
  /\ l' ++ receiver.changes (List.last l' 0) rest
     = l ++ receiver.changes (List.last l 0) (x :: rest).
Proof.
  cbn [receiver.changes]. destruct (x =? List.last l 0) eqn:E; cbn zeta.
  - apply Z.eqb_eq in E. rewrite app_nil_r. done.
  - rewrite List.last_last. split; [done|]. by rewrite <- app_assoc.
Qed.

(** The [while] loop: from vectors that hold [st], it ends after [P]
    passes when [P] is the first count of passes after which every
    [last_received] entry is [num_msgs]. *)
Lemma receiver_loop_holds num_nodes num_msgs :
  1 <= num_nodes < 2 ^ 32 -> num_msgs < 2 ^ 64 ->
  forall P counter st s fuel,
    receiver.holds num_nodes num_msgs st s ->
    (P < fuel)%nat ->
    (forall i, 0 <= i < num_nodes ->
       Z.of_nat (length (st i ++ receiver.changes (List.last (st i) 0)
                                   (receiver.samples counter i P)))
       <= num_msgs) ->
    (forall p, (p < P)%nat -> exists i, 0 <= i < num_nodes /\
       match p with O => List.last (st i) 0 | S p' => counter p' i end
       <> num_msgs) ->
    (forall i, 0 <= i < num_nodes ->
       match P with O => List.last (st i) 0 | S p' => counter p' i end
       = num_msgs) ->
    exists s',
      receiver.receiver_loop fuel num_nodes num_msgs counter s
      = Some (s', inl tt)
      /\ receiver.holds num_nodes num_msgs
           (fun i => st i ++ receiver.changes (List.last (st i) 0)
                               (receiver.samples counter i P)) s'.
Proof.
  intros Hn Hm P.
  induction P as [|P IH]; intros counter st s fuel Hs Hfuel Hfit Hnot Hstop;
    (destruct fuel as [|fuel]; [lia|]); cbn [receiver.receiver_loop].
  - rewrite (proj2 (all_received_iff _ _ _ _ Hs) Hstop).
    exists s. split; [done|].
    apply (holds_ext _ _ st); [|done].
    intros i _. unfold receiver.samples. cbn. by rewrite app_nil_r.
  - destruct (receiver.all_received num_msgs s) eqn:Eall.
    { destruct (Hnot O ltac:(lia)) as (i & Hi & Hne).
      by rewrite (proj1 (all_received_iff _ _ _ _ Hs) Eall i Hi) in Hne. }
    destruct (pass_holds num_nodes num_msgs (counter O) st
                ltac:(lia) Hm) with (fuel := Z.to_nat num_nodes) (i0 := 0)
      (s := s) as (s1 & Hpass & Hs1).
    + intros i Hi. specialize (Hfit i Hi).
      rewrite samples_S in Hfit.
      destruct (changes_step (st i) (counter O i)
                  (receiver.samples (fun p => counter (S p)) i P))
        as [_ Heq]. cbn zeta in Heq.
      rewrite <- Heq in Hfit. rewrite length_app in Hfit. lia.
    + lia.
    + lia.
    + apply (holds_ext _ _ st); [|done]. intros i Hi.
      by rewrite (proj2 (Z.ltb_ge i 0)) by lia.
    + rewrite Hpass.
      destruct (IH (fun p => counter (S p)) _ s1 fuel Hs1 ltac:(lia))
        as (s' & Hloop & Hs').
      * intros i Hi.
        destruct (changes_step (st i) (counter O i)
                    (receiver.samples (fun p => counter (S p)) i P))
          as [_ Heq]. cbn zeta in Heq. rewrite Heq, <- samples_S.
        by apply Hfit.
      * intros p Hp. destruct (Hnot (S p) ltac:(lia)) as (i & Hi & Hne).
        exists i. split; [done|]. destruct p as [|p]; [|done].
        by rewrite (proj1 (changes_step (st i) (counter O i) [])).
      * intros i Hi. specialize (Hstop i Hi). destruct P as [|P]; [|done].
        by rewrite (proj1 (changes_step (st i) (counter O i) [])).
      * exists s'. split; [done|].
        eapply holds_ext; [|exact Hs']. intros i Hi. cbn beta.
        destruct (changes_step (st i) (counter O i)
                    (receiver.samples (fun p => counter (S p)) i P))
          as [_ Heq]. cbn zeta in Heq. by rewrite Heq, <- samples_S.
Qed.

Lemma changes_sorted hi l : forall prev,
  StronglySorted Z.le l -> Forall (fun x => prev <= x <= hi) l ->
  StronglySorted Z.lt (receiver.changes prev l)
  /\ Forall (fun x => prev < x <= hi) (receiver.changes prev l).
Proof.
  induction l as [|x l IH]; intros prev Hs Hb; cbn [receiver.changes].
  - split; constructor.
  - apply StronglySorted_inv in Hs as [Hs Hx].
    apply Forall_cons in Hb as [Hxb Hb].
    destruct (x =? prev) eqn:E.
    + by apply IH.
    + apply Z.eqb_neq in E.
      destruct (IH x Hs) as [IH1 IH2].
      { rewrite Forall_forall in Hx, Hb. apply Forall_forall.
        intros y Hy. specialize (Hx y Hy). specialize (Hb y Hy). lia. }
      split.
      * constructor; [done|]. eapply Forall_impl; [exact IH2|].
        intros y Hy. cbn beta in Hy. lia.
      * constructor; [lia|]. eapply Forall_impl; [exact IH2|].
        intros y Hy. cbn beta in Hy. lia.
Qed.

Lemma sorted_bounded_length hi l : forall lo,
  StronglySorted Z.lt l -> Forall (fun x => lo < x <= hi) l ->
  Z.of_nat (length l) <= Z.max 0 (hi - lo).
Proof.
  induction l as [|x l IH]; intros lo Hs Hb; cbn [length]; [lia|].
  apply StronglySorted_inv in Hs as [Hs Hx].
  apply Forall_cons in Hb as [Hxb Hb].
  specialize (IH x Hs).
  assert (Forall (fun y => x < y <= hi) l) as Hb'.
  { rewrite Forall_forall in Hx, Hb. apply Forall_forall.
    intros y Hy. specialize (Hx y Hy). specialize (Hb y Hy). lia. }
  specialize (IH Hb'). lia.
Qed.

Lemma samples_sorted (i : Z) : forall P (counter : nat -> Z -> Z),
  (forall p, counter p i <= counter (S p) i) ->
  StronglySorted Z.le (receiver.samples counter i P).
Proof.
  induction P as [|P IH]; intros counter Hmono; [constructor|].
  rewrite samples_S. constructor.
  - apply IH. intros p. apply Hmono.
  - apply Forall_forall. intros y Hy. unfold receiver.samples in Hy.
    apply list_elem_of_fmap in Hy as (p & -> & _).
    clear IH. induction p as [|p IHp]; [apply Hmono|].
    etransitivity; [exact IHp|apply Hmono].
Qed.

(** X20: what the receiver records.  [counter p i] being what pass [p]
    reads from the counter of node [i], let pass [P] be the first one in
    which every counter reads [num_msgs].  If no node's counter is seen to
    change more than [num_msgs] times, the loop ends after [P + 1] passes
    without a subscript out of range, and the row of node [i] is the
    sequence of its samples that differ from the sample before them (from
    0 before the first), followed by zeros. *)
Theorem receiver_loop_records_changes (num_nodes num_msgs : Z)
    (counter : nat -> Z -> Z) (P : nat) :
  1 <= num_nodes < 2 ^ 32 -> 1 <= num_msgs < 2 ^ 64 ->
  (forall i, 0 <= i < num_nodes -> counter P i = num_msgs) ->
  (forall p, (p < P)%nat ->
     exists i, 0 <= i < num_nodes /\ counter p i <> num_msgs) ->
  (forall i, 0 <= i < num_nodes ->
     Z.of_nat (length (receiver.changes 0 (receiver.samples counter i (S P))))
     <= num_msgs) ->
  forall fuel, (S P < fuel)%nat ->
  exists s',
    receiver.receiver_loop fuel num_nodes num_msgs counter
      (receiver.init num_nodes num_msgs)
    = Some (s', inl tt)
    /\ Z.of_nat (length (receiver.received_msgs s')) = num_nodes
    /\ forall i, 0 <= i < num_nodes ->
         missed_counters.lookup_index (receiver.received_msgs s') i
         = Some (receiver.padded num_msgs
                   (receiver.changes 0 (receiver.samples counter i (S P)))).
Proof.
  intros Hn Hm Hstop Hnot Hfit fuel Hfuel.
  destruct (receiver_loop_holds num_nodes num_msgs Hn (proj2 Hm) (S P)
              counter (fun _ => []) (receiver.init num_nodes num_msgs) fuel)
    as (s' & Hloop & Hs').
  - apply holds_init; lia.
  - done.
  - intros i Hi. by apply Hfit.
  - intros [|p] Hp.
    + exists 0. split; [lia|]. cbn. lia.
    + apply Hnot. lia.
  - done.
  - exists s'. split; [done|]. destruct Hs' as (L1 & _ & Hs').
    split; [done|]. intros i Hi. by destruct (Hs' i Hi) as (-> & _).
Qed.

Lemma receiver_loop_records_changes_witness :
  exists s',
    receiver.receiver_loop 4 2 4 two_node_run (receiver.init 2 4)
    = Some (s', inl tt)
    /\ Z.of_nat (length (receiver.received_msgs s')) = 2
    /\ forall i, 0 <= i < 2 ->
         missed_counters.lookup_index (receiver.received_msgs s') i
         = Some (receiver.padded 4
                   (receiver.changes 0 (receiver.samples two_node_run i 3))).
Proof.
  apply (receiver_loop_records_changes 2 4 two_node_run 2).
  - lia.
  - lia.
  - reflexivity.
  - intros p Hp. exists 1. split; [lia|].
    destruct p as [|[|p]]; [discriminate|discriminate|lia].
  - intros i Hi.
    assert (i = 0 \/ i = 1) as [-> | ->] by lia; vm_compute; discriminate.
  - lia.
Defined.

(** X21: counters that never decrease.  If every node's counter is seen
    within [0, num_msgs] and never below an earlier sample, no node can
    be seen to change more than [num_msgs] times: the loop ends after the
    first pass in which every counter reads [num_msgs], without a
    subscript out of range, and the recorded part of every row is strictly
    increasing, lies within [1, num_msgs] and ends with [num_msgs]. *)
Theorem receiver_loop_monotone_counters (num_nodes num_msgs : Z)
    (counter : nat -> Z -> Z) (P : nat) :
  1 <= num_nodes < 2 ^ 32 -> 1 <= num_msgs < 2 ^ 64 ->
  (forall p i, 0 <= i < num_nodes ->
     0 <= counter p i <= num_msgs /\ counter p i <= counter (S p) i) ->
  (forall i, 0 <= i < num_nodes -> counter P i = num_msgs) ->
  (forall p, (p < P)%nat ->
     exists i, 0 <= i < num_nodes /\ counter p i <> num_msgs) ->
  forall fuel, (S P < fuel)%nat ->
  exists s',
    receiver.receiver_loop fuel num_nodes num_msgs counter
      (receiver.init num_nodes num_msgs)
    = Some (s', inl tt)
    /\ forall i, 0 <= i < num_nodes ->
         exists recorded,
           missed_counters.lookup_index (receiver.received_msgs s') i
           = Some (receiver.padded num_msgs recorded)
           /\ StronglySorted Z.lt recorded
           /\ Forall (fun x => 0 < x <= num_msgs) recorded
           /\ List.last recorded 0 = num_msgs
           /\ Z.of_nat (length recorded) <= num_msgs.
Proof.
  intros Hn Hm Hmono Hstop Hnot fuel Hfuel.
  assert (Hrec : forall i, 0 <= i < num_nodes ->
            let c := receiver.changes 0 (receiver.samples counter i (S P)) in
            StronglySorted Z.lt c
            /\ Forall (fun x => 0 < x <= num_msgs) c
            /\ List.last c 0 = num_msgs
            /\ Z.of_nat (length c) <= num_msgs).
  { intros i Hi c.
    destruct (changes_sorted num_msgs (receiver.samples counter i (S P)) 0)
      as [Hs Hb].
    - apply samples_sorted. intros p. by apply Hmono.
    - apply Forall_forall. intros y Hy. unfold receiver.samples in Hy.
      apply list_elem_of_fmap in Hy as (p & -> & _). by apply Hmono.
    - split; [done|]. split; [done|]. split.
      + subst c. rewrite changes_last, samples_snoc, List.last_last.
        by apply Hstop.
      + pose proof (sorted_bounded_length num_msgs c 0 Hs Hb). lia. }
  destruct (receiver_loop_holds num_nodes num_msgs Hn (proj2 Hm) (S P)
              counter (fun _ => []) (receiver.init num_nodes num_msgs) fuel)
    as (s' & Hloop & Hs').
  - apply holds_init; lia.
  - done.
  - intros i Hi. by apply Hrec.
  - intros [|p] Hp.
    + exists 0. split; [lia|]. cbn. lia.
    + apply Hnot. lia.
  - done.
  - exists s'. split; [done|]. destruct Hs' as (_ & _ & Hs').
    intros i Hi. destruct (Hs' i Hi) as (Hrow & _).
    eexists. split; [exact Hrow|]. by apply Hrec.
Qed.

Lemma receiver_loop_monotone_counters_witness :
  exists s',
    receiver.receiver_loop 4 2 4 two_node_run (receiver.init 2 4)
    = Some (s', inl tt)
    /\ forall i, 0 <= i < 2 ->
         exists recorded,
           missed_counters.lookup_index (receiver.received_msgs s') i
           = Some (receiver.padded 4 recorded)
           /\ StronglySorted Z.lt recorded
           /\ Forall (fun x => 0 < x <= 4) recorded
           /\ List.last recorded 0 = 4
           /\ Z.of_nat (length recorded) <= 4.
Proof.
  apply (receiver_loop_monotone_counters 2 4 two_node_run 2).
  - lia.
  - lia.
  - intros p i Hi. unfold two_node_run.
    destruct p as [|[|[|p]]]; destruct (i =? 0); lia.
  - reflexivity.
  - intros p Hp. exists 1. split; [lia|].
    destruct p as [|[|p]]; [discriminate|discriminate|lia].
  - lia.
Defined.

(** ** From the receiver's rows to the counts *)

(** The logic size of a row is the length of its longest strictly
    increasing prefix. *)
Lemma logic_size_loop_exact (rm : list (list Z)) (i : Z) (row : list Z)
    (ls : Z) :
  missed_counters.lookup_index rm i = Some row ->
  Z.of_nat (length row) < 2 ^ 64 ->
  ls <= Z.of_nat (length row) ->
  (forall k, 1 <= k < ls ->
     exists a b, missed_counters.lookup_index row (k - 1) = Some b
                 /\ missed_counters.lookup_index row k = Some a /\ b < a) ->
  (ls = Z.of_nat (length row)
   \/ exists a b, missed_counters.lookup_index row (ls - 1) = Some b
                  /\ missed_counters.lookup_index row ls = Some a /\ a <= b) ->
  forall fuel j, 1 <= j <= ls -> (Z.to_nat (ls - j) <= fuel)%nat ->
    missed_counters.logic_size_loop fuel i j j rm = (rm, inl ls).
Proof.
  intros Hrow Hmax Hlen Hinc Hend fuel.
  induction fuel as [|fuel IH]; intros j Hj Hfuel.
  - assert (j = ls) as -> by lia. done.
  - cbn [missed_counters.logic_size_loop].
    unfold mbind at 1, missed_counters.V_bind at 1.
    rewrite (size_of_row rm i row Hrow).
    destruct (decide (j = ls)) as [->|Hne].
    + destruct Hend as [->|(a & b & Hb & Ha & Hab)].
      * by rewrite Z.ltb_irrefl.
      * pose proof (lookup_index_Some_range _ _ _ Ha) as Hr.
        rewrite (proj2 (Z.ltb_lt ls (Z.of_nat (length row)))) by lia.
        unfold mbind at 1, missed_counters.V_bind at 1.
        rewrite (read_row rm i row Hrow _ _ Ha).
        unfold mbind at 1, missed_counters.V_bind at 1.
        rewrite (wrap64_index row Hmax (ls - 1)) by lia.
        rewrite (read_row rm i row Hrow _ _ Hb).
        by rewrite (proj2 (Z.ltb_ge b a)) by lia.
    + destruct (Hinc j) as (a & b & Hb & Ha & Hab); [lia|].
      rewrite (proj2 (Z.ltb_lt j (Z.of_nat (length row)))) by lia.
      unfold mbind at 1, missed_counters.V_bind at 1.
      rewrite (read_row rm i row Hrow _ _ Ha).
      unfold mbind at 1, missed_counters.V_bind at 1.
      rewrite (wrap64_index row Hmax (j - 1)) by lia.
      rewrite (read_row rm i row Hrow _ _ Hb).
      rewrite (proj2 (Z.ltb_lt b a)) by lia.
      rewrite (wrap64_index row Hmax (j + 1)) by lia.
      apply IH; lia.
Qed.

Lemma sorted_adjacent (l : list Z) :
  StronglySorted Z.lt l ->
  forall k a b, l !! k = Some b -> l !! S k = Some a -> b < a.
Proof.
  induction 1 as [|x l Hs IH Hx]; intros k a b Hb Ha; [done|].
  destruct k as [|k].
  - cbn in Hb, Ha. injection Hb as <-.
    rewrite Forall_forall in Hx. apply Hx.
    exact (list_elem_of_lookup_2 l 0 a Ha).
  - cbn in Hb, Ha. by apply (IH k).
Qed.

Lemma last_lookup_default (l : list Z) d x :
  l <> [] -> List.last l d = x -> l !! (length l - 1)%nat = Some x.
Proof.
  intros Hne <-. destruct (exists_last Hne) as (l' & y & ->).
  rewrite List.last_last, length_app. cbn [length].
  rewrite lookup_app_r by lia.
  by replace (length l' + 1 - 1 - length l')%nat with 0%nat by lia.
Qed.

(** X22: the block on a row as the receiver leaves it.  Let the recorded
    part of the row be strictly increasing, within [1, num_msgs] and ending
    with [num_msgs]; [low] are its values up to [num_msgs / 2] and [above]
    the ones beyond.  If nothing was recorded from the first half, the
    block writes at subscript [2^64 - 1].  Otherwise it has no access out
    of range, replaces the last value of [low] by [num_msgs / 2] and adds
    to [count_missed] the number of values of the second half that were
    not recorded. *)
Theorem count_row_on_recorded_row (num_msgs i : Z) (rm : list (list Z))
    (low above : list Z) (count_missed intervals : Z) :
  missed_counters.lookup_index rm i
  = Some (receiver.padded num_msgs (low ++ above)) ->
  1 <= num_msgs < 2 ^ 64 ->
  0 <= count_missed < 2 ^ 64 ->
  StronglySorted Z.lt (low ++ above) ->
  Forall (fun x => 0 < x <= num_msgs / 2) low ->
  Forall (fun x => num_msgs / 2 < x <= num_msgs) above ->
  List.last (low ++ above) 0 = num_msgs ->
  (low = [] ->
   missed_counters.count_row num_msgs i (count_missed, intervals) rm
   = (rm, inr (missed_counters.element_out_of_bounds i (2 ^ 64 - 1))))
  /\ (low <> [] ->
      exists intervals',
        missed_counters.count_row num_msgs i (count_missed, intervals) rm
        = (<[Z.to_nat i :=
               <[(length low - 1)%nat := num_msgs / 2]>
                 (receiver.padded num_msgs (low ++ above))]> rm,
           inl (wrap64 (count_missed
                        + (num_msgs - num_msgs / 2
                           - Z.of_nat (length above))),
                intervals'))).
Proof.
  intros Hrow Hn Hc Hsorted Hlow Habove Hlast.
  set (c := low ++ above) in *.
  set (row := receiver.padded num_msgs c) in *.
  assert (Hhalf : num_msgs / 2 < num_msgs)
    by (apply Z.div_lt_upper_bound; lia).
  assert (Hhalf0 : 0 <= num_msgs / 2) by (apply Z.div_pos; lia).
  assert (Hbounds : Forall (fun x => 0 < x <= num_msgs) c).
  { subst c. apply Forall_app. split.
    - eapply Forall_impl; [exact Hlow|]. cbn beta. intros; lia.
    - eapply Forall_impl; [exact Habove|]. cbn beta. intros; lia. }
  assert (Habove_ne : above <> []).
  { intros ->. subst c. rewrite app_nil_r in Hlast.
    destruct low as [|x low] using rev_ind; [cbn in Hlast; lia|].
    rewrite List.last_last in Hlast. subst x.
    apply Forall_app in Hlow as [_ Hx]. apply Forall_inv in Hx. lia. }
  assert (Hclen : Z.of_nat (length c) <= num_msgs).
  { pose proof (sorted_bounded_length num_msgs c 0 Hsorted Hbounds). lia. }
  assert (Hlenrow : Z.of_nat (length row) = num_msgs)
    by (by apply padded_length).
  assert (Hmax : Z.of_nat (length row) < 2 ^ 64) by lia.
  assert (Hin : forall k x, c !! k = Some x ->
            missed_counters.lookup_index row (Z.of_nat k) = Some x).
  { intros k x Hk. apply lookup_index_Some. split; [lia|].
    rewrite Nat2Z.id. subst row. unfold receiver.padded.
    by apply lookup_app_l_Some. }
  assert (Hclen' : length c = (length low + length above)%nat)
    by (subst c; apply length_app).
  assert (Habove_len : (0 < length above)%nat)
    by (destruct above; [done|cbn; lia]).
  assert (Hls : missed_counters.logic_size_loop (length row) i 1 1 rm
                = (rm, inl (Z.of_nat (length c)))).
  { apply (logic_size_loop_exact rm i row); try done; try lia.
    - intros k Hk.
      destruct (lookup_lt_is_Some_2 c (Z.to_nat k)) as [a Ha]; [lia|].
      destruct (lookup_lt_is_Some_2 c (Z.to_nat (k - 1))) as [b Hb]; [lia|].
      exists a, b.
      replace (k - 1) with (Z.of_nat (Z.to_nat (k - 1))) at 1 by lia.
      replace k with (Z.of_nat (Z.to_nat k)) at 2 by lia.
      split; [by apply Hin|]. split; [by apply Hin|].
      apply (sorted_adjacent c Hsorted (Z.to_nat (k - 1))); [done|].
      by replace (S (Z.to_nat (k - 1))) with (Z.to_nat k) by lia.
    - destruct (decide (Z.of_nat (length c) = Z.of_nat (length row)))
        as [Heq|Hneq]; [by left|right].
      destruct (lookup_lt_is_Some_2 c (length c - 1)) as [b Hb]; [lia|].
      exists 0, b.
      replace (Z.of_nat (length c) - 1) with (Z.of_nat (length c - 1))
        by lia.
      split; [by apply Hin|]. split.
      + apply lookup_index_Some. split; [lia|]. rewrite Nat2Z.id.
        subst row. unfold receiver.padded.
        rewrite lookup_app_r by lia. rewrite Nat.sub_diag.
        apply lookup_repeat. lia.
      + apply list_elem_of_lookup_2 in Hb.
        rewrite Forall_forall in Hbounds.
        pose proof (Hbounds b Hb). lia. }
  split.
  - intros ->. cbn [app] in *. destruct above as [|x above]; [done|].
    apply Forall_cons in Habove as [Hx _].
    apply (count_row_first_entry_above num_msgs i rm row x _ Hrow Hmax);
      [|lia].
    by apply (Hin 0%nat).
  - intros Hlow_ne.
    assert (Hlow_len : (0 < length low)%nat)
      by (destruct low; [done|cbn; lia]).
    destruct (lookup_lt_is_Some_2 above 0) as [x Hx]; [lia|].
    destruct (count_row_from_start num_msgs i rm row
                (Z.of_nat (length c)) (Z.of_nat (length low)) x num_msgs
                count_missed intervals) as (n' & Hcount); try done.
    + subst row. unfold receiver.padded. apply Forall_app. split.
      * eapply Forall_impl; [exact Hbounds|]. cbn beta. intros; lia.
      * apply Forall_forall. intros y Hy.
        apply list_elem_of_In, repeat_spec in Hy. lia.
    + lia.
    + lia.
    + intros k y Hk Hy. apply lookup_index_Some in Hy as [_ Hy].
      subst row c. unfold receiver.padded in Hy.
      rewrite <- app_assoc in Hy.
      rewrite lookup_app_l in Hy by lia.
      apply list_elem_of_lookup_2 in Hy.
      rewrite Forall_forall in Hlow.
      pose proof (Hlow y Hy). lia.
    + apply Hin. subst c. rewrite lookup_app_r by lia.
      by rewrite Nat.sub_diag.
    + apply list_elem_of_lookup_2 in Hx.
      rewrite Forall_forall in Habove.
      pose proof (Habove x Hx). lia.
    + replace (Z.of_nat (length c) - 1) with (Z.of_nat (length c - 1))
        by lia.
      apply Hin. apply (last_lookup_default c 0); [|done].
      intros Hnil. rewrite Hnil in Hclen'. cbn in Hclen'. lia.
    + exists n'. rewrite Hcount.
      replace (Z.to_nat (Z.of_nat (length low) - 1))
        with (length low - 1)%nat by lia.
      do 3 f_equal. rewrite Hclen', Nat2Z.inj_add.
      generalize (num_msgs / 2). intros half.
      apply (f_equal wrap64). lia.
Qed.

Lemma count_row_on_recorded_row_witness :
  exists intervals',
    missed_counters.count_row 8 0 (0, 0) [[1; 3; 6; 8; 0; 0; 0; 0]]
    = ([[1; 4; 6; 8; 0; 0; 0; 0]], inl (wrap64 (0 + (8 - 8 / 2 - 2)), intervals')).
Proof.
  assert (R : forall x, (0 ?= x) <> Gt -> (x ?= 2 ^ 64) = Lt -> 0 <= x < 2 ^ 64)
    by (intros x H1 H2; split; assumption).
  refine (proj2 (count_row_on_recorded_row 8 0 [[1; 3; 6; 8; 0; 0; 0; 0]]
                  [1; 3] [6; 8] 0 0 _ _ _ _ _ _ _) _).
  - reflexivity.
  - split; [discriminate|reflexivity].
  - apply R; [discriminate|reflexivity].
  - repeat constructor.
  - repeat constructor; discriminate.
  - repeat constructor; discriminate.
  - reflexivity.
  - discriminate.
Defined.
